(** * branchedflowsim: a shallow embedding of the grid, multi-index,
      potential container, phase randomiser, caustic observer, particle
      dynamics and radial initial condition, with the properties of the
      specification stated and settled against them.

    Conventions.
    - C++ exceptions are the [Throw] branch of [result].
    - [int] is a [Z] in [[INT_MIN, INT_MAX]], [std::size_t] and
      [std::uint64_t] are a [Z] in [[0, 2^64)]; conversions and wrapping
      arithmetic are written out ([wrap_int], [to_size_t]).
    - [std::array] / [std::vector] are lists read with [!!] and written
      with [<[i:=v]>].
    - A [double] that is only stored and copied (file I/O) is the eight
      bytes of its object representation ([float64]); a [double] that is
      computed with is idealised as a real number ([R]): rounding, NaN and
      overflow are outside the model. *)

From Stdlib Require Import ZArith List Lia Bool.
From Stdlib Require Import Reals Lra.
From Stdlib.Strings Require Import Byte String.
From Stdlib Require Import DecimalN DecimalPos.
From stdpp Require Import base list.
Import ListNotations.

Local Open Scope Z_scope.

(* ===================================================================== *)
(** ** Exceptions and results *)
(* ===================================================================== *)

(** The exception classes thrown through [THROW_EXCEPTION].
    [stream_failure] stands for a read past the end of the input: the C++
    code does not test the stream state and would go on with an
    indeterminate buffer; the model stops there. *)
Inductive exception :=
| logic_error | out_of_range | domain_error | invalid_argument
| runtime_error | overflow_error | stream_failure.

Inductive result (A : Type) :=
| Ok (a : A)
| Throw (e : exception).
Arguments Ok {A} a.
Arguments Throw {A} e.

#[export] Instance result_ret : MRet result := fun A a => Ok a.
#[export] Instance result_bind : MBind result := fun A B f r =>
  match r with
  | Ok a => f a
  | Throw e => Throw e
  end.

Definition is_ok {A} (r : result A) : bool :=
  match r with Ok _ => true | Throw _ => false end.

(* ===================================================================== *)
(** ** Machine integers *)
(* ===================================================================== *)

Definition INT_MIN : Z := - 2 ^ 31.
Definition INT_MAX : Z := 2 ^ 31 - 1.
Definition SIZE_MAX : Z := 2 ^ 64 - 1.

Definition int_range (z : Z) : Prop := INT_MIN <= z <= INT_MAX.
Definition size_range (z : Z) : Prop := 0 <= z <= SIZE_MAX.

(** Conversion of a [Z] to [int] (two's complement wrap-around). *)
Definition wrap_int (z : Z) : Z := (z + 2 ^ 31) mod 2 ^ 32 - 2 ^ 31.

(** Conversion to [std::size_t] / [uint64_t]. *)
Definition to_size_t (z : Z) : Z := z mod 2 ^ 64.

(** Conversion to [unsigned int]. *)
Definition to_unsigned (z : Z) : Z := z mod 2 ^ 32.

(** Unchecked [operator[]] of an array or vector of integers (reading
    outside the container is undefined behaviour in C++; the model
    returns 0 there). *)
Definition get (a : list Z) (i : nat) : Z := default 0 (a !! i).

(* ===================================================================== *)
(** ** MultiIndex (common/multiindex.hpp, common/multiindex.cpp) *)
(* ===================================================================== *)

Module MultiIndex.

Definition MAX_MULTIINDEX_DIMENSION : nat := 4.

(** [std::array<int, MAX_MULTIINDEX_DIMENSION>] *)
Abbreviation storage_type := (list Z).

Record t := Build {
  mLowerBound : storage_type;
  mUpperBound : storage_type;
  mCurrentPos : storage_type;
  mDimension : nat;
  mIsValid : bool
}.

(** [std::array::fill] *)
Definition fill (v : Z) : storage_type := replicate MAX_MULTIINDEX_DIMENSION v.

(** Checked write [a.at(i) = v]. *)
Definition set_at (a : storage_type) (i : nat) (v : Z) : result storage_type :=
  if decide (i < length a)%nat then Ok (<[i:=v]> a) else Throw out_of_range.

(** [MultiIndex(std::size_t dims)].  The three arrays are left
    uninitialised by the C++ constructor; the model fills them with the
    documented initial value 0.  Entries at positions [>= mDimension] are
    never read by the functions below. *)
Definition create (dims : nat) : result t :=
  if decide (MAX_MULTIINDEX_DIMENSION < dims)%nat then Throw logic_error
  else Ok (Build (fill 0) (fill 0) (fill 0) dims false).

Definition valid (m : t) : bool := mIsValid m.

Definition checkNotValid (m : t) : result unit :=
  if valid m then Throw logic_error else Ok tt.

Definition setLowerBound (lb : Z) (m : t) : result t :=
  _ ← checkNotValid m;
  Ok (Build (fill lb) (mUpperBound m) (mCurrentPos m) (mDimension m) (mIsValid m)).

Definition setLowerBoundAt (dim : nat) (lb : Z) (m : t) : result t :=
  _ ← checkNotValid m;
  lo ← set_at (mLowerBound m) dim lb;
  Ok (Build lo (mUpperBound m) (mCurrentPos m) (mDimension m) (mIsValid m)).

Definition setUpperBound (ub : Z) (m : t) : result t :=
  _ ← checkNotValid m;
  Ok (Build (mLowerBound m) (fill ub) (mCurrentPos m) (mDimension m) (mIsValid m)).

Definition setUpperBoundAt (dim : nat) (ub : Z) (m : t) : result t :=
  _ ← checkNotValid m;
  up ← set_at (mUpperBound m) dim ub;
  Ok (Build (mLowerBound m) up (mCurrentPos m) (mDimension m) (mIsValid m)).

(** [setUpperBoundDynamic]; the leading [assert(valid())] is a debug-only
    check and is not part of the behaviour. *)
Definition setUpperBoundDynamic (dim : nat) (ub : Z) (m : t) : result t :=
  match mLowerBound m !! dim with
  | None => Throw out_of_range
  | Some lo =>
    if ub <=? lo then Throw logic_error
    else match mCurrentPos m !! dim with
         | None => Throw out_of_range
         | Some c =>
           if ub <=? c then Throw logic_error
           else up ← set_at (mUpperBound m) dim ub;
                Ok (Build (mLowerBound m) up (mCurrentPos m) (mDimension m) (mIsValid m))
         end
  end.

(** The checking loop of [init]: [for i in 0 .. mDimension-1], throw at
    the first axis with [mLowerBound[i] >= mUpperBound[i]]. *)
Definition bounds_ok (m : t) : bool :=
  forallb (fun i => get (mLowerBound m) i <? get (mUpperBound m) i)
          (seq 0 (mDimension m)).

Definition init (m : t) : result t :=
  _ ← checkNotValid m;
  if bounds_ok m
  then Ok (Build (mLowerBound m) (mUpperBound m) (mLowerBound m) (mDimension m) true)
  else Throw logic_error.

(** [MultiIndex(dimensions, lower, upper)].  It does not compare
    [dimensions] with the maximum; for [dimensions > 4] the C++ code reads
    past the arrays (undefined behaviour), so the model is only meaningful
    for [dimensions <= 4]. *)
Definition create_bounds (dimensions : nat) (lower upper : Z) : result t :=
  let m := Build (fill 0) (fill 0) (fill 0) dimensions false in
  m ← setLowerBound lower m;
  m ← setUpperBound upper m;
  init m.

(** The loop of [increment], from axis [k-1] down to axis 0.
    [mCurrentPos[i]++] is an [int] increment ([wrap_int]). *)
Fixpoint increment_from (k : nat) (m : t) : t * nat :=
  match k with
  | O => (Build (mLowerBound m) (mUpperBound m) (mCurrentPos m) (mDimension m) false, 0%nat)
  | S i =>
    let c := wrap_int (get (mCurrentPos m) i + 1) in
    if c <? get (mUpperBound m) i
    then (Build (mLowerBound m) (mUpperBound m) (<[i:=c]> (mCurrentPos m))
                (mDimension m) (mIsValid m), i)
    else increment_from i
           (Build (mLowerBound m) (mUpperBound m)
                  (<[i:=get (mLowerBound m) i]> (mCurrentPos m))
                  (mDimension m) (mIsValid m))
  end.

Definition increment (m : t) : t * nat := increment_from (mDimension m) m.

(** [operator++] *)
Definition incr (m : t) : t := fst (increment m).

(** [getAsVector]: the first [mDimension] entries of the position. *)
Definition getAsVector (m : t) : list Z := take (mDimension m) (mCurrentPos m).

(** The body of the loop of [split] for the [i]-th part; [acc] is the
    vector built so far and [last_boundary] the running boundary. *)
Definition split_step (m : t) (n : Z) (range : Z)
           (st : result (list t * Z)) (i : nat) : result (list t * Z) :=
  '(acc, last_boundary) ← st;
  let copy := Build (mLowerBound m) (mUpperBound m) (mCurrentPos m) (mDimension m) false in
  copy ← setLowerBoundAt 0 last_boundary copy;
  let next := wrap_int (Z.quot (wrap_int (wrap_int (Z.of_nat i + 1) * range)) (wrap_int n)
                        + get (mLowerBound m) 0) in
  copy ← setUpperBoundAt 0 next copy;
  if last_boundary =? next then Ok (acc, last_boundary)
  else copy ← init copy; Ok (acc ++ [copy], next).

Definition split (n : nat) (m : t) : result (list t) :=
  if decide (n = 0%nat) then Throw domain_error
  else
    let range := wrap_int (get (mUpperBound m) 0 - get (mLowerBound m) 0) in
    r ← fold_left (split_step m (Z.of_nat n) range) (seq 0 n)
                  (Ok ([], get (mLowerBound m) 0));
    Ok (fst r).

(** [size] *)
Definition size (m : t) : nat := mDimension m.

(** [getLowerBound], [getUpperBound]: copies of the arrays. *)
Definition getLowerBound (m : t) : storage_type := mLowerBound m.
Definition getUpperBound (m : t) : storage_type := mUpperBound m.

(** [getAccumulated]: [std::accumulate(begin(), end(), 0u)]; the sum is
    formed in [unsigned int] and returned as [std::size_t]. *)
Definition getAccumulated (m : t) : Z :=
  fold_left (fun acc v => to_unsigned (acc + v)) (getAsVector m) 0.

(** *** The box invariant *)

Definition wf (m : t) : Prop :=
  length (mLowerBound m) = MAX_MULTIINDEX_DIMENSION /\
  length (mUpperBound m) = MAX_MULTIINDEX_DIMENSION /\
  length (mCurrentPos m) = MAX_MULTIINDEX_DIMENSION /\
  (mDimension m <= MAX_MULTIINDEX_DIMENSION)%nat /\
  Forall int_range (mLowerBound m) /\
  Forall int_range (mUpperBound m) /\
  Forall int_range (mCurrentPos m).

Definition in_box (m : t) : Prop :=
  forall i, (i < mDimension m)%nat ->
    get (mLowerBound m) i <= get (mCurrentPos m) i < get (mUpperBound m) i
    /\ get (mLowerBound m) i < get (mUpperBound m) i.

Definition inv (m : t) : Prop := wf m /\ (mIsValid m = true -> in_box m).

(** [c] is a started index of the dimension of [m] over a part of the box of [m]. *)
Definition sub_box (m c : t) : Prop :=
  inv c /\ mIsValid c = true /\ mDimension c = mDimension m /\
  forall i, (i < mDimension m)%nat ->
    get (mLowerBound m) i <= get (mLowerBound c) i /\
    get (mUpperBound c) i <= get (mUpperBound m) i.

(** [subs] are started indices, each at its first position, that cut
    the range [[lo, hi)] of axis 0 into consecutive non-empty slabs and
    have the dimension of [m] and its bounds on the other axes. *)
Fixpoint slabs (m : t) (lo : Z) (subs : list t) (hi : Z) : Prop :=
  match subs with
  | [] => lo = hi
  | c :: r =>
    mIsValid c = true /\ mDimension c = mDimension m /\
    mCurrentPos c = mLowerBound c /\
    get (mLowerBound c) 0 = lo /\ lo < get (mUpperBound c) 0 /\
    (forall i, (0 < i)%nat ->
       get (mLowerBound c) i = get (mLowerBound m) i /\
       get (mUpperBound c) i = get (mUpperBound m) i) /\
    slabs m (get (mUpperBound c) 0) r hi
  end.

(** The states a client can produce through the public interface
    ([r_copy_invalid] is the copy with cleared flag made inside [split]). *)
Inductive reachable : t -> Prop :=
| r_create dims m :
    create dims = Ok m -> reachable m
| r_create_bounds dims lo up m :
    (dims <= MAX_MULTIINDEX_DIMENSION)%nat -> int_range lo -> int_range up ->
    create_bounds dims lo up = Ok m -> reachable m
| r_setLowerBound lb m m' :
    reachable m -> int_range lb -> setLowerBound lb m = Ok m' -> reachable m'
| r_setUpperBound ub m m' :
    reachable m -> int_range ub -> setUpperBound ub m = Ok m' -> reachable m'
| r_setLowerBoundAt d lb m m' :
    reachable m -> int_range lb -> setLowerBoundAt d lb m = Ok m' -> reachable m'
| r_setUpperBoundAt d ub m m' :
    reachable m -> int_range ub -> setUpperBoundAt d ub m = Ok m' -> reachable m'
| r_setUpperBoundDynamic d ub m m' :
    reachable m -> int_range ub -> setUpperBoundDynamic d ub m = Ok m' -> reachable m'
| r_init m m' :
    reachable m -> init m = Ok m' -> reachable m'
| r_increment m :
    reachable m -> reachable (incr m)
| r_copy_invalid m :
    reachable m ->
    reachable (Build (mLowerBound m) (mUpperBound m) (mCurrentPos m) (mDimension m) false).

End MultiIndex.

(* ===================================================================== *)
(** ** util.hpp *)
(* ===================================================================== *)

(** One round of the loop of [safe_product]; [p] is a [std::size_t]. *)
Definition safe_product_step (st : result Z) (f : Z) : result Z :=
  p ← st;
  if f <? 0 then Throw overflow_error
  else if negb (f =? 0) && (SIZE_MAX / f <=? p) then Throw overflow_error
  else Ok (to_size_t (p * f)).

Definition safe_product (factors : list Z) : result Z :=
  fold_left safe_product_step factors (Ok 1).

(** [makeIndexVector(length, idx)]: a vector of [length] zeros of type
    [int], then [v[i]++] for every [i] of [idx].  ([v[i]] is unchecked:
    an [i] outside the vector is undefined behaviour in C++, the model
    leaves the vector as it is.) *)
Definition makeIndexVector (length : nat) (idx : list nat) : list Z :=
  fold_left (fun v i => <[i := wrap_int (get v i + 1)]> v) idx (replicate length 0).

(* ===================================================================== *)
(** ** Bytes, streams (common/fileIO.hpp, common/fileIO.cpp) *)
(* ===================================================================== *)

#[export] Instance byte_eq_decision : EqDecision byte := Byte.byte_eq_dec.

Definition byte_of_Z (z : Z) : byte := default x00 (Byte.of_N (Z.to_N (z mod 256))).
Definition Z_of_byte (b : byte) : Z := Z.of_N (Byte.to_N b).

(** Little-endian object representation of an unsigned integer. *)
Fixpoint le_bytes (n : nat) (v : Z) : list byte :=
  match n with
  | O => []
  | S k => byte_of_Z v :: le_bytes k (v / 256)
  end.

Fixpoint le_value (bs : list byte) : Z :=
  match bs with
  | [] => 0
  | b :: r => Z_of_byte b + 256 * le_value r
  end.

(** A [double] as stored: the eight bytes of its object representation. *)
Record float64 := F64 {
  f64_0 : byte; f64_1 : byte; f64_2 : byte; f64_3 : byte;
  f64_4 : byte; f64_5 : byte; f64_6 : byte; f64_7 : byte
}.

Definition float64_bytes (d : float64) : list byte :=
  [f64_0 d; f64_1 d; f64_2 d; f64_3 d; f64_4 d; f64_5 d; f64_6 d; f64_7 d].

Definition float64_of_bytes (bs : list byte) : float64 :=
  match bs with
  | [a; b; c; d; e; f; g; h] => F64 a b c d e f g h
  | _ => F64 x00 x00 x00 x00 x00 x00 x00 x00
  end.

(** [writeInteger]: [uint64_t fixed_size = value], then its 8 bytes. *)
Definition writeInteger (value : Z) : list byte := le_bytes 8 (to_size_t value).

(** [writeFloat] *)
Definition writeFloat (value : float64) : list byte := float64_bytes value.

(** An input stream is the list of bytes still to be read. *)
Definition reader (A : Type) : Type := list byte -> result (A * list byte).

Definition rret {A} (a : A) : reader A := fun s => Ok (a, s).
Definition rbind {A B} (r : reader A) (f : A -> reader B) : reader B :=
  fun s => match r s with
           | Ok (a, s') => f a s'
           | Throw e => Throw e
           end.
Definition rthrow {A} (e : exception) : reader A := fun _ => Throw e.
Definition rlift {A} (r : result A) : reader A :=
  fun s => match r with Ok a => Ok (a, s) | Throw e => Throw e end.

#[export] Instance reader_ret : MRet reader := @rret.
#[export] Instance reader_bind : MBind reader := fun A B f r => rbind r f.

(** [istream::read(buf, n)] *)
Definition read_bytes (n : nat) : reader (list byte) :=
  fun s => if decide (length s < n)%nat then Throw stream_failure
           else Ok (take n s, drop n s).

(** [istream::read(buf, n)] into a buffer of [n] bytes that holds
    [buffer], where the code does not test the stream afterwards: the
    bytes the stream still has overwrite the start of the buffer. *)
Definition read_into (buffer : list byte) : reader (list byte) :=
  fun s => let got := take (length buffer) s in
           Ok (got ++ drop (length got) buffer, drop (length buffer) s).

(** [istream::get()] *)
Definition read_byte : reader byte :=
  fun s => match s with
           | [] => Throw stream_failure
           | b :: r => Ok (b, r)
           end.

(** [readInteger(std::istream&)] *)
Definition readInteger : reader Z :=
  (bs ← read_bytes 8; rret (le_value bs)).

(** [readFloat(std::istream&)] *)
Definition readFloat : reader float64 :=
  (bs ← read_bytes 8; rret (float64_of_bytes bs)).

(** A counted loop [for(i = 0; i < n; ++i) v[i] = r()]. *)
Fixpoint read_n {A} (n : nat) (r : reader A) : reader (list A) :=
  match n with
  | O => rret []
  | S k => (a ← r; l ← read_n k r; rret (a :: l))
  end.

(** [std::getline(in, str, '\0')]: the bytes before the first NUL; the
    NUL is consumed. *)
Fixpoint getline_nul (s : list byte) : result (list byte * list byte) :=
  match s with
  | [] => Throw stream_failure
  | b :: r =>
    if decide (b = x00) then Ok ([], r)
    else '(l, r') ← getline_nul r; Ok (b :: l, r')
  end.

(* ===================================================================== *)
(** ** GridStorage and DynamicGrid
       (common/grid_storage.cpp, common/dynamic_grid_base.cpp, common/dynamic_grid.hpp) *)
(* ===================================================================== *)

Module Grid.

(** Value initialisation [T()] of a cell. *)
Class Zero (V : Type) := zero : V.

(** What [GridStorage::dump] and [GridStorage::load] use of the cell type:
    [typeid(T).name()] (a C string), [sizeof(T)] and the object
    representation. *)
Class Serial (V : Type) := {
  type_name : list byte;
  stride : nat;
  to_bytes : V -> list byte;
  of_bytes : list byte -> V;
  type_name_c_string : x00 ∉ type_name;
  to_bytes_length : forall v, length (to_bytes v) = stride;
  of_to_bytes : forall v, of_bytes (to_bytes v) = v
}.

Inductive TransformationType := IDENTITY | FFT_INDEX | PERIODIC.

#[export] Instance TransformationType_eq_dec : EqDecision TransformationType.
Proof. solve_decision. Defined.

Record DynamicGrid (V : Type) := MkGrid {
  mData : list V;
  mDimension : nat;
  mExtents : list Z;
  mTrafoType : TransformationType
}.
Arguments MkGrid {V}.
Arguments mData {V}.
Arguments mDimension {V}.
Arguments mExtents {V}.
Arguments mTrafoType {V}.

(** The index functions; [offset] and [extends[i]] are [std::size_t],
    [index[i]] is an [int] converted to [std::size_t] by the arithmetic. *)
Definition IdentityIndexFn (D : nat) (index extends : list Z) : Z :=
  fold_left (fun offset i => to_size_t (offset * get extends i + get index i))
            (seq 0 D) 0.

Definition FFTIndexFn (D : nat) (index extends : list Z) : Z :=
  fold_left (fun offset i =>
               to_size_t (offset * get extends i +
                          (if get index i <? 0
                           then to_size_t (get extends i + get index i)
                           else get index i)))
            (seq 0 D) 0.

(** In [index[i] % extends[i]] the index is converted to [std::size_t]
    before the division, so [mod] is unsigned and [mod < 0] never holds.
    (An extent of 0 is a division by zero in C++.) *)
Definition PeriodicIndexFn (D : nat) (index extends : list Z) : Z :=
  fold_left (fun offset i =>
               let mod_ := to_size_t (get index i) mod get extends i in
               to_size_t (offset * get extends i +
                          (if mod_ <? 0 then mod_ + get extends i else mod_)))
            (seq 0 D) 0.

Definition index_fn : Type := list Z -> list Z -> Z.

Definition getIndexFnTemplate (N : nat) (trafo : TransformationType) : index_fn :=
  match trafo with
  | IDENTITY => IdentityIndexFn N
  | FFT_INDEX => FFTIndexFn N
  | PERIODIC => PeriodicIndexFn N
  end.

Definition getIndexFn (trafo : TransformationType) (dimension : nat) : result index_fn :=
  if decide (1 <= dimension <= 6)%nat
  then Ok (getIndexFnTemplate dimension trafo)
  else Throw logic_error.

Section GridOps.
Context {V : Type}.

(** [setAccessMode]: the function pointer [mIndexFunction] it stores is
    [getIndexFnTemplate mDimension mTrafoType], see [getOffsetOf]. *)
Definition setAccessMode (type : TransformationType) (g : DynamicGrid V)
  : result (DynamicGrid V) :=
  _ ← getIndexFn type (mDimension g);
  Ok (MkGrid (mData g) (mDimension g) (mExtents g) type).

Definition getAccessMode (g : DynamicGrid V) : TransformationType := mTrafoType g.
Definition getExtents (g : DynamicGrid V) : list Z := mExtents g.
Definition getDimension (g : DynamicGrid V) : nat := mDimension g.
Definition getContainer (g : DynamicGrid V) : list V := mData g.
Definition size (g : DynamicGrid V) : Z := Z.of_nat (length (mData g)).

Definition getOffsetOf (g : DynamicGrid V) (index : list Z) : Z :=
  getIndexFnTemplate (mDimension g) (mTrafoType g) index (mExtents g).

(** [DynamicGrid(const extents_type& sizes, TransformationType indexing)]:
    [safe_product], allocation of that many value-initialised cells, then
    the base-class constructor, which calls [setAccessMode].  This is
    the constructor when the allocation succeeds; [create_alloc] below
    has the failure path ([std::bad_alloc], rethrown as
    [runtime_error]) as well. *)
Definition create `{Zero V} (sizes : list Z) (indexing : TransformationType)
  : result (DynamicGrid V) :=
  n ← safe_product sizes;
  setAccessMode indexing
    (MkGrid (replicate (Z.to_nat n) zero) (length sizes) sizes IDENTITY).

(** The constructor with its failure path.  Whether the allocation of
    [n] cells succeeds is up to the allocator: [allocates n].  A failed
    allocation ([std::bad_alloc]) is caught by the function-try-block of
    the constructor and rethrown as [runtime_error]; the [overflow_error]
    of [safe_product] and the [logic_error] of [setAccessMode] pass
    through it.  [create] is this constructor with an allocator that
    serves every request. *)
Definition create_alloc `{Zero V} (allocates : Z -> bool) (sizes : list Z)
           (indexing : TransformationType) : result (DynamicGrid V) :=
  n ← safe_product sizes;
  if allocates n
  then setAccessMode indexing
         (MkGrid (replicate (Z.to_nat n) zero) (length sizes) sizes IDENTITY)
  else Throw runtime_error.

(** [DynamicGrid(size_t dimension, size_t size, TransformationType)] *)
Definition create_square `{Zero V} (dimension : nat) (size_ : Z)
           (indexing : TransformationType) : result (DynamicGrid V) :=
  create (replicate dimension size_) indexing.

(** [operator[]] on a linear offset, read and write. *)
Definition cell `{Zero V} (g : DynamicGrid V) (offset : Z) : V :=
  default zero (mData g !! Z.to_nat offset).

Definition set_cell (g : DynamicGrid V) (offset : Z) (v : V) : DynamicGrid V :=
  MkGrid (<[Z.to_nat offset := v]> (mData g)) (mDimension g) (mExtents g) (mTrafoType g).

(** [getElementCount] *)
Definition getElementCount (g : DynamicGrid V) : Z := Z.of_nat (length (mData g)).

(** [operator()]: the cell at a multi-dimensional index. *)
Definition at_index `{Zero V} (g : DynamicGrid V) (index : list Z) : V :=
  cell g (getOffsetOf g index).

(** One round of the loop of [getIndex]; [mExtents[i]] is converted to
    [int]. *)
Definition getIndex_step (g : DynamicGrid V) (st : result MultiIndex.t) (i : nat)
  : result MultiIndex.t :=
  index ← st;
  MultiIndex.setUpperBoundAt i (wrap_int (get (mExtents g) i)) index.

(** [getIndex]: an index over [[0, extents)], whatever the access mode. *)
Definition getIndex (g : DynamicGrid V) : result MultiIndex.t :=
  index ← MultiIndex.create (mDimension g);
  index ← MultiIndex.setLowerBound 0 index;
  index ← fold_left (getIndex_step g) (seq 0 (length (mExtents g))) (Ok index);
  MultiIndex.init index.

(** [clone]: a new grid of the same extents and access mode, then
    [std::copy(begin(), end(), newgrid.begin())], which overwrites the
    first cells of the new grid (the new grid has as many cells as the
    extents ask for; copying more than that is undefined in C++). *)
Definition clone `{Zero V} (g : DynamicGrid V) : result (DynamicGrid V) :=
  newgrid ← create (mExtents g) (mTrafoType g);
  Ok (MkGrid (mData g ++ drop (length (mData g)) (mData newgrid))
             (mDimension newgrid) (mExtents newgrid) (mTrafoType newgrid)).

Context `{Serial V}.

(** [GridStorage::dump] *)
Definition storage_dump (data : list V) : list byte :=
  type_name ++ [x00] ++ writeInteger (Z.of_nat (length data))
            ++ concat (map to_bytes data).

(** [DynamicGridBase::dump] *)
Definition dump (g : DynamicGrid V) : list byte :=
  ["g"%byte] ++ writeInteger (Z.of_nat (mDimension g))
             ++ concat (map writeInteger (mExtents g))
             ++ storage_dump (mData g).

(** The cells held by [n * stride] raw bytes. *)
Fixpoint cells_of_bytes (n : nat) (bs : list byte) : list V :=
  match n with
  | O => []
  | S k => of_bytes (take stride bs) :: cells_of_bytes k (drop stride bs)
  end.

(** [GridStorage::load] into a container that holds the cells [data].
    The stream is not tested after the last [read]: when it has fewer
    bytes than the container, the cells are filled as far as the bytes
    go and the others stay as they are. *)
Definition storage_load (data : list V) : reader (list V) :=
  (type ← getline_nul;
   count ← readInteger;
   if decide (type = type_name) then
     if decide (count = Z.of_nat (length data)) then
       bs ← read_into (concat (map to_bytes data));
       rret (cells_of_bytes (length data) bs)
     else rthrow runtime_error
   else rthrow runtime_error).

(** [DynamicGridBase::load_info] *)
Definition load_info : reader (list Z) :=
  (temp ← read_byte;
   if decide (temp = "g"%byte) then
     dimension ← readInteger;
     read_n (Z.to_nat dimension) readInteger
   else rthrow runtime_error).

(** [DynamicGrid::load] *)
Definition load `{Zero V} : reader (DynamicGrid V) :=
  (extents ← load_info;
   grid ← rlift (create extents IDENTITY);
   data ← storage_load (mData grid);
   rret (MkGrid data (mDimension grid) (mExtents grid) (mTrafoType grid))).

End GridOps.

(** The grids of [double] of the potential. *)
Definition float64_zero : float64 := F64 x00 x00 x00 x00 x00 x00 x00 x00.
#[export] Instance float64_Zero : Zero float64 := float64_zero.

(** [typeid(double).name()] is ["d"] in the Itanium C++ ABI. *)
#[export, refine] Instance float64_serial : Serial float64 := {|
  type_name := ["d"%byte];
  stride := 8;
  to_bytes := float64_bytes;
  of_bytes := float64_of_bytes
|}.
Proof.
  - intros H. apply list_elem_of_singleton in H. discriminate.
  - intros []. reflexivity.
  - intros []. reflexivity.
Defined.

(** A grid as the constructor makes it and cell writes keep it. *)
Definition wf_grid {V} (g : DynamicGrid V) : Prop :=
  mDimension g = length (mExtents g) /\
  (1 <= mDimension g <= 6)%nat /\
  Forall size_range (mExtents g) /\
  safe_product (mExtents g) = Ok (Z.of_nat (length (mData g))).

End Grid.
Export Grid.

(* ===================================================================== *)
(** ** FFT-centred iteration index (potgen/randomize.cpp) *)
(* ===================================================================== *)

(** One round of the loop of [fft_indexing].  [-(int)(grid_size[i]/2)]
    divides in [std::size_t] and converts, [(int)grid_size[i]/2] converts
    and divides in [int]. *)
Definition fft_indexing_step {V} (grid : DynamicGrid V)
           (st : result MultiIndex.t) (i : nat) : result MultiIndex.t :=
  index ← st;
  let e := get (getExtents grid) i in
  if negb (e mod 2 =? 0) then Throw logic_error
  else
    index ← MultiIndex.setLowerBoundAt i (wrap_int (- wrap_int (e / 2))) index;
    MultiIndex.setUpperBoundAt i (Z.quot (wrap_int e) 2) index.

Definition fft_indexing {V} (grid : DynamicGrid V) : result MultiIndex.t :=
  index ← MultiIndex.create (getDimension grid);
  index ← fold_left (fft_indexing_step grid) (seq 0 (getDimension grid)) (Ok index);
  MultiIndex.init index.

(* ===================================================================== *)
(** ** Formatted stream I/O used by the potential file *)
(* ===================================================================== *)

Definition bytes (s : string) : list byte := list_byte_of_string s.
Definition nl : list byte := [x0a].

Fixpoint uint_bytes (d : Decimal.uint) : list byte :=
  match d with
  | Decimal.Nil => []
  | Decimal.D0 d => "0"%byte :: uint_bytes d
  | Decimal.D1 d => "1"%byte :: uint_bytes d
  | Decimal.D2 d => "2"%byte :: uint_bytes d
  | Decimal.D3 d => "3"%byte :: uint_bytes d
  | Decimal.D4 d => "4"%byte :: uint_bytes d
  | Decimal.D5 d => "5"%byte :: uint_bytes d
  | Decimal.D6 d => "6"%byte :: uint_bytes d
  | Decimal.D7 d => "7"%byte :: uint_bytes d
  | Decimal.D8 d => "8"%byte :: uint_bytes d
  | Decimal.D9 d => "9"%byte :: uint_bytes d
  end.

(** [stream << n] for a [std::size_t]: decimal digits. *)
Definition show_size (n : Z) : list byte := uint_bytes (N.to_uint (Z.to_N n)).

Definition digit_of_byte (b : byte) : option (Decimal.uint -> Decimal.uint) :=
  if decide (b = "0"%byte) then Some Decimal.D0
  else if decide (b = "1"%byte) then Some Decimal.D1
  else if decide (b = "2"%byte) then Some Decimal.D2
  else if decide (b = "3"%byte) then Some Decimal.D3
  else if decide (b = "4"%byte) then Some Decimal.D4
  else if decide (b = "5"%byte) then Some Decimal.D5
  else if decide (b = "6"%byte) then Some Decimal.D6
  else if decide (b = "7"%byte) then Some Decimal.D7
  else if decide (b = "8"%byte) then Some Decimal.D8
  else if decide (b = "9"%byte) then Some Decimal.D9
  else None.

(** [std::isspace] in the "C" locale. *)
Definition is_space (b : byte) : bool :=
  bool_decide (b ∈ [" "%byte; x09; x0a; x0b; x0c; x0d]).

Fixpoint skip_ws (s : list byte) : list byte :=
  match s with
  | [] => []
  | b :: r => if is_space b then skip_ws r else s
  end.

Fixpoint read_digits (s : list byte) : Decimal.uint * list byte :=
  match s with
  | [] => (Decimal.Nil, [])
  | b :: r =>
    match digit_of_byte b with
    | Some D => let '(d, r') := read_digits r in (D d, r')
    | None => (Decimal.Nil, s)
    end
  end.

(** [stream >> hs] for a [std::uint64_t]: leading white space is skipped,
    then the longest run of decimal digits is converted; no digit, or a
    value above [2^64 - 1], sets the fail bit (the model stops with
    [stream_failure]).  A leading sign, which [operator>>] also accepts,
    is not modelled (it counts as no digit). *)
Definition read_unsigned : reader Z :=
  fun s =>
    let '(d, r) := read_digits (skip_ws s) in
    match d with
    | Decimal.Nil => Throw stream_failure
    | _ => let v := Z.of_N (N.of_uint d) in
           if v <=? SIZE_MAX then Ok (v, r) else Throw stream_failure
    end.

(** A loop [for(unsigned i = 0; i < n; ++i)] over a 64-bit bound [n]: the
    32-bit counter wraps before reaching a bound of [2^32] or more and the
    loop never ends; the model stops with [stream_failure] there. *)
Definition unsigned_loop_count (n : Z) : reader nat :=
  if n <? 2 ^ 32 then rret (Z.to_nat n) else rthrow stream_failure.

(* ===================================================================== *)
(** ** Potential (common/potential.hpp, common/potential.cpp) *)
(* ===================================================================== *)

Module Potential.

Record IndexType := MkIndex {
  name : list byte;
  derivations : list Z
}.

(** [std::lexicographical_compare] *)
Fixpoint lexicographical_compare {A} (lt : A -> A -> bool) (a b : list A) : bool :=
  match a, b with
  | _, [] => false
  | [], _ :: _ => true
  | x :: a', y :: b' =>
    if lt x y then true
    else if lt y x then false
    else lexicographical_compare lt a' b'
  end.

(** [char_traits<char>::lt] compares as [unsigned char]. *)
Definition byte_lt (a b : byte) : bool := Z_of_byte a <? Z_of_byte b.

(** [IndexType::operator<] *)
Definition key_lt (a b : IndexType) : bool :=
  if lexicographical_compare byte_lt (name a) (name b) then true
  else if decide (name a = name b)
       then lexicographical_compare Z.ltb (derivations a) (derivations b)
       else false.

Abbreviation grid_type := (DynamicGrid float64).

(** [std::map<IndexType, grid_type>]: the entries in key order. *)
Abbreviation map_type := (list (IndexType * grid_type)).

(** [map[key] = value] *)
Fixpoint map_assign (k : IndexType) (v : grid_type) (m : map_type) : map_type :=
  match m with
  | [] => [(k, v)]
  | (k', v') :: r =>
    if key_lt k k' then (k, v) :: (k', v') :: r
    else if key_lt k' k then (k', v') :: map_assign k v r
    else (k', v) :: r
  end.

Record t := Build {
  mDimension : nat;
  mSeed : Z;
  mExtents : list Z;
  mSupport : list float64;
  mStrength : float64;
  mCorrelationLength : float64;
  mPotgenVersion : Z;
  mData : map_type
}.

(** The [double] -1: 0xBFF0000000000000. *)
Definition minus_one : float64 := F64 x00 x00 x00 x00 x00 x00 xf0 xbf.

(** [Potential(extents, support, strength)].  [mSeed] is left
    uninitialised by the C++ constructor; the model takes 0. *)
Definition create (extents : list Z) (support : list float64) (strength : float64) : t :=
  Build (length extents) 0 extents support strength minus_one 3 [].

Definition setCreationInfo (seed version : Z) (corrlength : float64) (p : t) : t :=
  Build (mDimension p) seed (mExtents p) (mSupport p) (mStrength p) corrlength version
        (mData p).

(** The potential with its map replaced. *)
Definition with_data (p : t) (m : map_type) : t :=
  Build (mDimension p) (mSeed p) (mExtents p) (mSupport p) (mStrength p)
        (mCorrelationLength p) (mPotgenVersion p) m.

(** [setDerivative(std::vector<int> deriv, grid_type data, name)] *)
Definition setDerivative (deriv : list Z) (data : grid_type) (name_ : list byte) (p : t)
  : result t :=
  if decide (length deriv <> mDimension p) then Throw runtime_error
  else if decide (getDimension data <> mDimension p) then Throw runtime_error
  else Ok (with_data p (map_assign (MkIndex name_ deriv) data (mData p))).

(** [setPotential] *)
Definition setPotential (data : grid_type) (name_ : list byte) (p : t) : result t :=
  setDerivative (replicate (mDimension p) 0) data name_ p.

(** A sequence of [setDerivative] calls on one potential, each given by
    its arguments (derivative index, grid, name); the first exception
    ends it. *)
Fixpoint setDerivatives (calls : list (list Z * grid_type * list byte)) (p : t)
  : result t :=
  match calls with
  | [] => Ok p
  | (deriv, data, name_) :: rest =>
    p' ← setDerivative deriv data name_ p;
    setDerivatives rest p'
  end.

(** [setDerivative(const MultiIndex& index, ...)] *)
Definition setDerivative_index (index : MultiIndex.t) (data : grid_type)
           (name_ : list byte) (p : t) : result t :=
  setDerivative (MultiIndex.getAsVector index) data name_ p.

(** [mData.at(key)], [mData.count(key)]: the entry whose key is
    equivalent to [k] (neither is less than the other). *)
Fixpoint map_find (k : IndexType) (m : map_type) : option grid_type :=
  match m with
  | [] => None
  | (k', v') :: r => if key_lt k k' || key_lt k' k then map_find k r else Some v'
  end.

(** [getDerivative(std::vector<int> deriv, name)] *)
Definition getDerivative (deriv : list Z) (name_ : list byte) (p : t) : result grid_type :=
  if decide (length deriv <> mDimension p) then Throw runtime_error
  else match map_find (MkIndex name_ deriv) (mData p) with
       | Some g => Ok g
       | None => Throw out_of_range
       end.

(** [getPotential]: the derivative of order 0. *)
Definition getPotential (name_ : list byte) (p : t) : result grid_type :=
  getDerivative (replicate (mDimension p) 0) name_ p.

(** [hasDerivative] *)
Definition hasDerivative (index : MultiIndex.t) (name_ : list byte) (p : t) : bool :=
  bool_decide (is_Some (map_find (MkIndex name_ (MultiIndex.getAsVector index)) (mData p))).

(** [getOrder]: [std::accumulate(index.begin(), index.end(), 0)], a sum
    of [int]s returned as [std::size_t]. *)
Definition getOrder (index : MultiIndex.t) : Z :=
  to_size_t (fold_left (fun acc v => wrap_int (acc + v)) (MultiIndex.getAsVector index) 0).

(** The default quantity name. *)
Definition potential_name : list byte := bytes "potential".

(** Potentials built by the constructor and successful calls of
    [setPotential] / [setDerivative]. *)
Inductive built : t -> Prop :=
| built_create extents support strength :
    built (create extents support strength)
| built_setDerivative deriv data name_ p p' :
    built p -> setDerivative deriv data name_ p = Ok p' -> built p'
| built_setPotential data name_ p p' :
    built p -> setPotential data name_ p = Ok p' -> built p'.

(** *** Serialisation *)

Definition header : list byte := bytes "bpot5".

(** Unchecked [operator[]] of a vector of doubles. *)
Definition getf (a : list float64) (i : nat) : float64 :=
  default float64_zero (a !! i).

(** [seekp(tellp() - 2)] followed by writing [s] (at least two bytes):
    the last two bytes of the buffer are overwritten. *)
Definition overwrite_tail2 (buf s : list byte) : list byte :=
  take (length buf - 2) buf ++ s.

Section Serialisation.
(** [stream << d] for a [double] (formatting of a floating-point number
    in the default notation). *)
Variable show_double : float64 -> list byte.

Definition human_info (p : t) : list byte :=
  let b := nl ++ bytes "potgen generated potential:" ++ nl in
  let b := b ++ bytes " seed    = " ++ show_size (mSeed p) ++ nl in
  let b := b ++ bytes " corlen  = " ++ show_double (mCorrelationLength p) ++ nl in
  let b := b ++ bytes " version = " ++ show_size (mPotgenVersion p) ++ nl in
  let b := b ++ bytes " extents = (" in
  let b := b ++ concat (map (fun e => show_size e ++ bytes ", ") (mExtents p)) in
  let b := overwrite_tail2 b (bytes ")" ++ nl) in
  let b := b ++ bytes " support = (" in
  let b := b ++ concat (map (fun e => show_double e ++ bytes ", ") (mSupport p)) in
  overwrite_tail2 b (bytes ")" ++ nl ++ nl).

(** One round of the loop over [mData] in [writeToFile]. *)
Definition write_record (dimension : nat) (data : IndexType * grid_type) : list byte :=
  writeInteger (Z.of_nat (length (name (fst data))))
  ++ name (fst data)
  ++ concat (map (fun i => writeInteger (get (derivations (fst data)) i)) (seq 0 dimension))
  ++ dump (snd data).

Definition writeToFile (p : t) : list byte :=
  let histr := human_info p in
  header
  ++ (bytes " " ++ show_size (Z.of_nat (length histr)))
  ++ histr
  ++ writeInteger (Z.of_nat (mDimension p))
  ++ concat (map (fun i => writeFloat (getf (mSupport p) i)) (seq 0 (mDimension p)))
  ++ concat (map (fun i => writeInteger (get (mExtents p) i)) (seq 0 (mDimension p)))
  ++ writeInteger (mSeed p)
  ++ writeInteger (mPotgenVersion p)
  ++ writeInteger (Z.of_nat (length (mData p)))
  ++ writeFloat (mCorrelationLength p)
  ++ writeFloat (mStrength p)
  ++ concat (map (write_record (mDimension p)) (mData p)).

End Serialisation.

(** [index[i] = readInteger(file)]: conversion of the 64-bit value to [int]. *)
Definition read_int : reader Z := v ← readInteger; mret (wrap_int v).

(** The loop over the grids in [readFromFile]. *)
Fixpoint read_grids (dimension : nat) (n : nat) (pot : t) : reader t :=
  match n with
  | O => mret pot
  | S k =>
    namelen ← readInteger;
    len ← unsigned_loop_count namelen;
    name_ ← read_n len read_byte;
    index ← read_n dimension read_int;
    grid ← load;
    pot ← rlift (setDerivative index grid name_ pot);
    read_grids dimension k pot
  end.

(** [readFromFile]; the stream is open. *)
Definition readFromFile : reader t :=
  cmp ← read_bytes 5;
  if decide (cmp = header) then
    hs ← read_unsigned;
    _ ← read_bytes (Z.to_nat hs);
    dimension ← readInteger;
    dim ← unsigned_loop_count dimension;
    support ← read_n dim readFloat;
    extents ← read_n dim readInteger;
    seed ← readInteger;
    potgen ← readInteger;
    gridcount ← readInteger;
    corrlength ← readFloat;
    strength ← readFloat;
    count ← unsigned_loop_count gridcount;
    read_grids dim count
               (setCreationInfo seed potgen corrlength (create extents support strength))
  else rthrow runtime_error.

(** *** Well-formed potentials *)

(** The order invariant of [std::map]. *)
Fixpoint sorted_keys (m : map_type) : Prop :=
  match m with
  | [] => True
  | x :: r => Forall (fun y => key_lt (fst x) (fst y) = true) r /\ sorted_keys r
  end.

Definition wf_entry (D : nat) (e : IndexType * grid_type) : Prop :=
  Z.of_nat (length (name (fst e))) < 2 ^ 32 /\
  length (derivations (fst e)) = D /\
  Forall int_range (derivations (fst e)) /\
  wf_grid (snd e) /\
  getDimension (snd e) = D.

Definition wf (p : t) : Prop :=
  (1 <= mDimension p <= 3)%nat /\
  length (mExtents p) = mDimension p /\
  length (mSupport p) = mDimension p /\
  Forall size_range (mExtents p) /\
  size_range (mSeed p) /\
  size_range (mPotgenVersion p) /\
  Z.of_nat (length (mData p)) < 2 ^ 32 /\
  Forall (wf_entry (mDimension p)) (mData p) /\
  sorted_keys (mData p).

(** The potential with every grid put in IDENTITY access mode. *)
Definition identity_mode (e : IndexType * grid_type) : IndexType * grid_type :=
  (fst e, MkGrid (getContainer (snd e)) (getDimension (snd e))
                 (getExtents (snd e)) IDENTITY).

Definition with_identity_grids (p : t) : t :=
  with_data p (map identity_mode (mData p)).

(** What [setDerivative] checks of a stored entry. *)
Definition entry_checked (D : nat) (e : IndexType * grid_type) : Prop :=
  getDimension (snd e) = D /\ length (derivations (fst e)) = D.

(** The accessors of the metadata. *)
Definition getExtents (p : t) := mExtents p.
Definition getSupport (p : t) := mSupport p.
Definition getSeed (p : t) := mSeed p.
Definition getPotgenVersion (p : t) := mPotgenVersion p.
Definition getDimension (p : t) := mDimension p.
Definition getCorrelationLength (p : t) := mCorrelationLength p.
Definition getStrength (p : t) := mStrength p.

End Potential.

(* ===================================================================== *)
(** ** Vectors and states of the tracer
       (common/vector.hpp, common/interpolation.hpp, tracer/state.hpp) *)
(* ===================================================================== *)

(** Comparisons of doubles. *)
#[export] Instance Rlt_decision (x y : R) : Decision (x < y)%R := Rlt_dec x y.
#[export] Instance Req_decision : EqDecision R := Req_dec_T.

(** [gen_vect]: a vector of doubles. *)
Abbreviation gen_vect := (list R).

(** Unchecked [operator[]] of a vector of doubles. *)
Definition getR (a : list R) (i : nat) : R := default 0%R (a !! i).

(** Elementwise operations of ublas vectors of equal size. *)
Fixpoint vsub (a b : gen_vect) : gen_vect :=
  match a, b with
  | x :: a', y :: b' => (x - y)%R :: vsub a' b'
  | _, _ => []
  end.

Fixpoint vadd (a b : gen_vect) : gen_vect :=
  match a, b with
  | x :: a', y :: b' => (x + y)%R :: vadd a' b'
  | _, _ => []
  end.

Definition vscale (a : gen_vect) (c : R) : gen_vect := map (fun x => (x * c)%R) a.

(** [interpolate_linear_1d(a, b, pos) = (b - a) * pos + a], on doubles and
    on vectors. *)
Definition interpolate_linear_1d (a b pos : R) : R := ((b - a) * pos + a)%R.

Definition interpolate_linear_1d_vec (a b : gen_vect) (pos : R) : gen_vect :=
  vadd (vscale (vsub b a) pos) a.

(** *** Doubles that are not numbers

    The doubles of the tracer are idealised as reals.  One computation
    leaves them: [CausticObserver::watch] divides by a difference of two
    areas that can be 0.  Its quotient, and what is interpolated with
    it, is a [double]: a number, an infinity or NaN. *)
Inductive double := Num (x : R) | Inf (negative : bool) | NaN.

(** [x / y] for numbers [x] and [y], where a zero [y] is the [+0] that
    the difference of two equal doubles is: [0 / 0] is NaN, another [x]
    gives the infinity of its sign. *)
Definition ddiv (x y : R) : double :=
  if decide (y = 0)%R
  then if decide (x = 0)%R then NaN else Inf (bool_decide (x < 0)%R)
  else Num (x / y).

(** [interpolate_linear_1d(a, b, pos)] for numbers [a], [b] and such a
    quotient [pos]: [0 * inf] and every operation on NaN give NaN. *)
Definition interpolate_linear_1d_at (a b : R) (pos : double) : double :=
  match pos with
  | Num p => Num (interpolate_linear_1d a b p)
  | Inf negative =>
    if decide (b - a = 0)%R then NaN
    else Inf (xorb negative (bool_decide (b - a < 0)%R))
  | NaN => NaN
  end.

(** The same on vectors, entry by entry; like [vsub] and [vadd] it
    stops at the end of the shorter vector (ublas in a release build
    takes the size of [b] and does not check [a], which in the observer
    is never the shorter one). *)
Fixpoint interpolate_linear_1d_vec_at (a b : gen_vect) (pos : double) : list double :=
  match a, b with
  | x :: a', y :: b' =>
    interpolate_linear_1d_at x y pos :: interpolate_linear_1d_vec_at a' b' pos
  | _, _ => []
  end.

(** [std::inner_product(a.begin(), a.end(), b.begin(), init)] *)
Fixpoint inner_product (a b : list R) (init : R) : R :=
  match a with
  | [] => init
  | x :: a' => inner_product a' (tl b) (init + x * getR b 0)%R
  end.

(** [gen_mat]: a matrix of doubles, as its rows. *)
Abbreviation gen_mat := (list (list R)).

(** [prod(m, v)]: the matrix-vector product of ublas. *)
Definition prod (m : gen_mat) (v : list R) : list R :=
  map (fun row => inner_product row v 0%R) m.

(** The unit matrix of size 4: the monodromy matrix of a 2-D trajectory
    at its start. *)
Definition unit_matrix4 : gen_mat :=
  [[1; 0; 0; 0]; [0; 1; 0; 0]; [0; 0; 1; 0]; [0; 0; 0; 1]]%R.

Record State := MkState {
  state_dimension : nat;
  mPosition : gen_vect;
  mVelocity : gen_vect;
  mMatrix : gen_mat
}.

Definition getPosition (s : State) : gen_vect := mPosition s.
Definition getVelocity (s : State) : gen_vect := mVelocity s.
Definition getMatrix (s : State) : gen_mat := mMatrix s.

(** [getPhaseSpaceVector]: the first [mDimension] entries of the position,
    then of the velocity. *)
Definition getPhaseSpaceVector (s : State) : list R :=
  map (getR (mPosition s)) (seq 0 (state_dimension s))
  ++ map (getR (mVelocity s)) (seq 0 (state_dimension s)).

(** [InitialCondition]: the current state and the deltas. *)
Record InitialCondition := MkIC {
  mCurrentState : State;
  mDeltas : list State
}.

Definition null_state : State := MkState 0 [] [] [].

Definition getState (ic : InitialCondition) : State := mCurrentState ic.
Definition getDelta (ic : InitialCondition) (idx : nat) : State :=
  default null_state (mDeltas ic !! idx).

(* ===================================================================== *)
(** ** Caustic observer (common/caustic.hpp, tracer/observers/caustic_observer.cpp) *)
(* ===================================================================== *)

Module CausticObserver.

Record Caustic := MkCaustic {
  mTrajectory : Z;
  mCausticPosition : list double;
  mInitialPosition : gen_vect;
  mCausticVelocity : list double;
  mInitialVelocity : gen_vect;
  mTime : double;
  mIndex : Z
}.

Record t := Build {
  mBreakOnFirst : bool;
  mDimension : nat;
  mCausticCount : Z;
  mParticleNumber : Z;
  mOldArea : R;
  mOldPosition : gen_vect;
  mOldVelocity : gen_vect;
  mOldTime : R;
  mCachedInitialCondition : InitialCondition;
  mCausticPositions : list Caustic
}.

(** What the constructor leaves uninitialised: [mOldPosition] and
    [mOldVelocity] are vectors of size 3 ([gen_vect] is
    [c_vector<double, 3>]) with indeterminate entries, and [mOldTime] is
    an indeterminate double. *)
Record Indeterminate := MkIndeterminate {
  old_position : R * R * R;
  old_velocity : R * R * R;
  old_time : R
}.

Definition vector3 (x : R * R * R) : gen_vect := [x.1.1; x.1.2; x.2].

(** The constructor; [junk] is what the uninitialised members hold
    (they are read by [watch] only together with a quotient that is
    NaN).  The pointer to the cached initial condition is uninitialised
    as well; the model takes an empty initial condition. *)
Definition create (dimension : nat) (breakOnFirst : bool) (junk : Indeterminate)
  : result t :=
  if decide (dimension < 2 \/ 3 < dimension)%nat then Throw invalid_argument
  else Ok (Build breakOnFirst dimension 0 0 0%R
                 (vector3 (old_position junk)) (vector3 (old_velocity junk))
                 (old_time junk) (MkIC null_state []) []).

Definition startTrajectory (start : InitialCondition) (trajectory : Z) (o : t) : t :=
  Build (mBreakOnFirst o) (mDimension o) 0 trajectory 0%R
        (mOldPosition o) (mOldVelocity o) (mOldTime o) start (mCausticPositions o).

Definition getSignedArea2D (particle : State) (IC : InitialCondition) : R :=
  let d := getMatrix particle in
  let delta := getPhaseSpaceVector (getDelta IC 0) in
  let result := prod d delta in
  (getR result 0 * getR (getVelocity particle) 1
   - getR result 1 * getR (getVelocity particle) 0)%R.

Definition getSignedArea3D (particle : State) (IC : InitialCondition) : R :=
  let d := getMatrix particle in
  let v1 := prod d (getPhaseSpaceVector (getDelta IC 0)) in
  let v2 := prod d (getPhaseSpaceVector (getDelta IC 1)) in
  let v1xv2 :=
      [ (getR v1 1 * getR v2 2 - getR v1 2 * getR v2 1)%R;
        (- getR v1 0 * getR v2 2 + getR v1 2 * getR v2 0)%R;
        (getR v1 0 * getR v2 1 - getR v1 1 * getR v2 0)%R ] in
  inner_product v1xv2 (getVelocity particle) 0%R.

(** The signed area computed at the start of [watch] ([assert(0)] for
    another dimension, which the constructor excludes). *)
Definition signed_area_of (o : t) (state : State) : R :=
  if decide (mDimension o = 2%nat) then getSignedArea2D state (mCachedInitialCondition o)
  else if decide (mDimension o = 3%nat) then getSignedArea3D state (mCachedInitialCondition o)
  else 0%R.

(** The test [t > 0 && (signed_area * mOldArea < 0 || signed_area == 0)]. *)
Definition sign_change (t signed_area old_area : R) : bool :=
  bool_decide (0 < t)%R &&
  (bool_decide (signed_area * old_area < 0)%R || bool_decide (signed_area = 0%R)).

(** The end of [watch]: the cache of the old state. *)
Definition update_cache (state : State) (time signed_area : R) (o : t) : t :=
  Build (mBreakOnFirst o) (mDimension o) (mCausticCount o) (mParticleNumber o)
        signed_area (getPosition state) (getVelocity state) time
        (mCachedInitialCondition o) (mCausticPositions o).

(** The record appended by [watch].  [p] is
    [- mOldArea / (signed_area - mOldArea)], which is NaN when both
    areas are 0; the last argument of the [Caustic] constructor is a
    [uint8_t]. *)
Definition new_caustic (state : State) (time signed_area : R) (o : t) : Caustic :=
  let p := ddiv (- mOldArea o) (signed_area - mOldArea o) in
  MkCaustic (mParticleNumber o)
            (interpolate_linear_1d_vec_at (mOldPosition o) (getPosition state) p)
            (getPosition (getState (mCachedInitialCondition o)))
            (interpolate_linear_1d_vec_at (mOldVelocity o) (getVelocity state) p)
            (getVelocity (getState (mCachedInitialCondition o)))
            (interpolate_linear_1d_at (mOldTime o) time p)
            ((mCausticCount o + 1) mod 256).

Definition watch (state : State) (time : R) (o : t) : t * bool :=
  let signed_area := signed_area_of o state in
  if sign_change time signed_area (mOldArea o) then
    let o' := Build (mBreakOnFirst o) (mDimension o)
                    (to_size_t (mCausticCount o + 1)) (mParticleNumber o)
                    (mOldArea o) (mOldPosition o) (mOldVelocity o) (mOldTime o)
                    (mCachedInitialCondition o)
                    (mCausticPositions o ++ [new_caustic state time signed_area o]) in
    if mBreakOnFirst o then (o', false)
    else (update_cache state time signed_area o', true)
  else (update_cache state time signed_area o, true).

(** The calls a worker makes for one trajectory: [startTrajectory], then
    [watch] after every step until it returns [false] (the master observer
    stops calling an observer that returned [false]). *)
Fixpoint watch_steps (steps : list (State * R)) (o : t) : t :=
  match steps with
  | [] => o
  | (state, time) :: rest =>
    let '(o', watching) := watch state time o in
    if watching then watch_steps rest o' else o'
  end.

Definition trajectory (start : InitialCondition) (id : Z)
           (steps : list (State * R)) (o : t) : t :=
  watch_steps steps (startTrajectory start id o).

(** The signed areas the observer has seen before each of a list of
    steps: 0 at the start, then the area of the step before. *)
Fixpoint previous_areas (o : t) (a_prev : R) (steps : list (State * R)) : list R :=
  match steps with
  | [] => []
  | (state, _) :: rest => a_prev :: previous_areas o (signed_area_of o state) rest
  end.

End CausticObserver.

(* ===================================================================== *)
(** ** Caustic records in files (common/caustic.cpp, common/fileIO.cpp) *)
(* ===================================================================== *)

(** [writeVec]: the entries of a vector, without its size. *)
Definition writeVec (value : list float64) : list byte := concat (map writeFloat value).

(** [readVec] into a vector of [n] entries. *)
Definition readVec (n : nat) : reader (list float64) := read_n n readFloat.

(** The class [Caustic] as it is stored: its doubles are kept as their
    eight bytes, [mIndex] is a [uint8_t]. *)
Module Caustic.

Record t := Build {
  mTrajectory : Z;
  mCausticPosition : list float64;
  mInitialPosition : list float64;
  mCausticVelocity : list float64;
  mInitialVelocity : list float64;
  mTime : float64;
  mIndex : Z
}.

(** [Caustic(int dimension)]: four vectors of [dimension] entries; the
    scalar members and the entries are left uninitialised by the C++
    code (the model takes 0). *)
Definition create (dimension : nat) : t :=
  Build 0 (replicate dimension float64_zero) (replicate dimension float64_zero)
        (replicate dimension float64_zero) (replicate dimension float64_zero)
        float64_zero 0.

Definition write (c : t) : list byte :=
  writeInteger (mTrajectory c)
  ++ writeVec (mCausticPosition c)
  ++ writeVec (mCausticVelocity c)
  ++ writeVec (mInitialPosition c)
  ++ writeVec (mInitialVelocity c)
  ++ writeFloat (mTime c)
  ++ [byte_of_Z (mIndex c)].

(** [read] fills the object it is called on: every vector keeps its size. *)
Definition read (c : t) : reader t :=
  trajectory ← readInteger;
  position ← readVec (length (mCausticPosition c));
  velocity ← readVec (length (mCausticVelocity c));
  origin ← readVec (length (mInitialPosition c));
  ivel ← readVec (length (mInitialVelocity c));
  time ← readFloat;
  index ← read_byte;
  mret (Build trajectory position origin velocity ivel time (Z_of_byte index)).

End Caustic.

(* ===================================================================== *)
(** ** Linear interpolation on a grid (common/interpolation.cpp) *)
(* ===================================================================== *)

#[export] Instance R_Zero : Zero R := 0%R.

(** [GetOffsetOf<D>::index_of]: the periodic index function, whatever
    the access mode of the grid. *)
Definition GetOffsetOf (D : nat) (index extends : list Z) : Z :=
  PeriodicIndexFn D index extends.

(** [arr[i] = std::floor(v[i])] with [arr[i]] an [int].  The conversion
    of a double outside the range of [int] is undefined in C++, and so
    is [base[N]++] at [INT_MAX]; the model wraps both, and
    [in_int_cells] names the positions at which they are defined. *)
Definition floor_int (x : R) : Z := wrap_int (Int_part x).

Definition in_int_cells (D : nat) (v : list R) : Prop :=
  forall i, (i < D)%nat -> (IZR INT_MIN <= getR v i < IZR INT_MAX)%R.

(** [dim_reduce_interpolate<DIMENSION, N>::inter] with [n = N + 1]. *)
Fixpoint inter (D n : nat) (grid : DynamicGrid R) (base : list Z) (v : list R) : R :=
  match n with
  | O => cell grid (GetOffsetOf D base (getExtents grid))
  | S N =>
    let v1 := inter D N grid base v in
    let v2 := inter D N grid (<[N := wrap_int (get base N + 1)]> base) v in
    interpolate_linear_1d v1 v2 (getR v N - IZR (get base N))
  end.

(** [linearInterpolateF<D>].  On a grid that is not in PERIODIC access
    mode its [assert] fails; the model returns 0 there, as it does for
    the [assert(false)] of [linearInterpolate] below (a build without
    assertions goes on with the periodic offsets). *)
Definition linearInterpolateF (D : nat) (grid : DynamicGrid R) (v : list R) : R :=
  if decide (getAccessMode grid = PERIODIC)
  then inter D D grid (map (fun i => floor_int (getR v i)) (seq 0 D)) v
  else 0%R.

(** [linearInterpolate]; a dimension other than 1, 2, 3 runs into
    [assert(false)] (the model returns 0). *)
Definition linearInterpolate (grid : DynamicGrid R) (v : list R) : R :=
  if decide (1 <= getDimension grid <= 3)%nat
  then linearInterpolateF (getDimension grid) grid v
  else 0%R.

(** *** Interpolated drawing *)

(** [AddDotRecurse<DIM, POS>::draw] with [n = POS + 1]; the recursion end
    ([n = 0]) multiplies [weight] by every [df[i]] and adds it to the cell
    [dens(offset)].  The second call of a round works on [offset] and
    [df] changed at axis [sub = DIM - POS - 1]; both are restored after
    it.  (The cells are [float]s, idealised as reals like the doubles.) *)
Fixpoint AddDotRecurse (DIM n : nat) (dens : DynamicGrid R) (df : list R)
         (offset : list Z) (weight : R) : DynamicGrid R :=
  match n with
  | O =>
    let weight := fold_left (fun w i => (w * getR df i)%R) (seq 0 DIM) weight in
    let o := getOffsetOf dens offset in
    set_cell dens o (cell dens o + weight)%R
  | S POS =>
    let sub := (DIM - POS - 1)%nat in
    let dens := AddDotRecurse DIM POS dens df offset weight in
    AddDotRecurse DIM POS dens (<[sub := (1 - getR df sub)%R]> df)
                  (<[sub := wrap_int (get offset sub + 1)]> offset) weight
  end.

(** [AddDot<DIM>::draw]: [offset[i] = std::floor(pos[i])] with
    [offset[i]] an [int] (see [floor_int]),
    [df[i] = 1.0 - (pos[i] - offset[i])]. *)
Definition AddDot (DIM : nat) (dens : DynamicGrid R) (pos : list R) (weight : R)
  : DynamicGrid R :=
  let offset := map (fun i => floor_int (getR pos i)) (seq 0 DIM) in
  let df := map (fun i => (1 - (getR pos i - IZR (floor_int (getR pos i))))%R) (seq 0 DIM) in
  AddDotRecurse DIM DIM dens df offset weight.

(** [drawInterpolatedDot]; a dimension other than 1, 2, 3 runs into
    [assert(false)] (the model leaves the grid as it is). *)
Definition drawInterpolatedDot (grid : DynamicGrid R) (pos : list R) (weight : R)
  : DynamicGrid R :=
  if decide (1 <= getDimension grid <= 3)%nat
  then AddDot (getDimension grid) grid pos weight
  else grid.

(** [DensityObserver::IPDot] and [drawTrajectory]
    (tracer/observers/density_worker.cpp): every dot of the trajectory is
    drawn, in order. *)
Record IPDot := MkIPDot { pos : list R; weight : R }.

Definition drawTrajectory (grid : DynamicGrid R) (trajectory : list IPDot)
  : DynamicGrid R :=
  fold_left (fun grid point => drawInterpolatedDot grid (pos point) (weight point))
            trajectory grid.

(** The sum of all cells of a grid. *)
Definition grid_total (grid : DynamicGrid R) : R :=
  foldr Rplus 0%R (getContainer grid).

(* ===================================================================== *)
(** ** Particle dynamics (tracer/dynamics/ParticleInPotentialDynamics.cpp) *)
(* ===================================================================== *)

Module ParticleInPotentialDynamics.

Record t := Build {
  mDimension : nat;
  mPeriodicBoundaries : bool;
  mTraceMonodromy : bool;
  mScalingFactor : gen_vect;
  mGridSize : list Z;
  mPotential : DynamicGrid R;
  mFirstDerGrid : list (DynamicGrid R);
  mSecondDerGrid : list (DynamicGrid R)
}.

(** The scaled position [p[i] = position[i] * mScalingFactor[i]]. *)
Definition scaled_position (d : t) (state : State) : list R :=
  map (fun i => (getR (getPosition state) i * getR (mScalingFactor d) i)%R)
      (seq 0 (mDimension d)).

(** The potential energy at the scaled position of a state. *)
Definition potential_energy (d : t) (state : State) : R :=
  linearInterpolate (mPotential d) (scaled_position d state).

(** The loop [len += v[i] * v[i]] over the axes of the dynamics. *)
Definition velocity_square (d : t) (state : State) : R :=
  fold_left (fun len i => (len + getR (getVelocity state) i * getR (getVelocity state) i)%R)
            (seq 0 (mDimension d)) 0%R.

(** [normalizeEnergy]: the state is changed only when no exception is
    thrown. *)
Definition normalizeEnergy (d : t) (state : State) (total_energy : R) : result State :=
  let epot := potential_energy d state in
  let diff := (total_energy - epot)%R in
  if bool_decide (diff < 0)%R then Throw runtime_error
  else
    let vi := sqrt (2 * diff) in
    let len := sqrt (velocity_square d state) in
    Ok (MkState (state_dimension state) (mPosition state)
                (vscale (mVelocity state) (vi / len)) (mMatrix state)).

(** [getEnergy] *)
Definition getEnergy (d : t) (state : State) : R :=
  let epot := potential_energy d state in
  let ekin := (0.5 * inner_product (getVelocity state) (getVelocity state) 0)%R in
  (epot + ekin)%R.

End ParticleInPotentialDynamics.

(* ===================================================================== *)
(** ** Radial initial condition (tracer/initial_conditions/radial_wave.cpp) *)
(* ===================================================================== *)

Module RadialWave2D.

Record t := Build {
  mWorldDimension : nat;
  mStartingPos : gen_vect
}.

(** The constructor: manifold dimension 1, origin at 0.5 on every axis. *)
Definition create (dim : nat) : result t :=
  if decide (dim < 2)%nat then Throw logic_error
  else Ok (Build dim (replicate dim 0.5%R)).

Definition setOrigin (origin : gen_vect) (w : t) : result t :=
  if decide (length origin <> mWorldDimension w) then Throw invalid_argument
  else Ok (Build (mWorldDimension w) origin).

Definition getOrigin (w : t) : gen_vect := mStartingPos w.

(** [generate]: the position and velocity references after the call. *)
Definition generate (w : t) (ray_position ray_velocity : gen_vect) (position : list R)
  : gen_vect * gen_vect :=
  let param := getR position 0 in
  (mStartingPos w,
   <[1%nat := cos (param * 2 * PI)]> (<[0%nat := sin (param * 2 * PI)]> ray_velocity)).

End RadialWave2D.

Module RadialWave3D.

Record t := Build {
  mStepSize : R;
  mStartingPos : gen_vect
}.

(** [generate]: the position and velocity references after the call. *)
Definition generate (w : t) (ray_position ray_velocity : gen_vect) (params : list R)
  : gen_vect * gen_vect :=
  let theta := ((2 * getR params 0 - 1) * PI / 2)%R in
  let phi := (getR params 1 * 2 * PI)%R in
  (mStartingPos w,
   <[2%nat := sin theta]>
     (<[1%nat := (cos theta * cos phi)%R]>
        (<[0%nat := (cos theta * sin phi)%R]> ray_velocity))).

End RadialWave3D.

(* ===================================================================== *)
(** ** Phase randomisation (potgen/randomize.cpp) *)
(* ===================================================================== *)

(** [complex_t = std::complex<double>] *)
Abbreviation complex_t := (R * R)%type.

Definition cmul (a b : complex_t) : complex_t :=
  (fst a * fst b - snd a * snd b, fst a * snd b + snd a * fst b)%R.

(** [std::conj] *)
Definition conj (a : complex_t) : complex_t := (fst a, - snd a)%R.

(** [complex *= real] *)
Definition cscale (a : complex_t) (c : R) : complex_t := (fst a * c, snd a * c)%R.

(** [std::norm]: the squared modulus. *)
Definition norm (a : complex_t) : R := (fst a * fst a + snd a * snd a)%R.

#[export] Instance complex_Zero : Zero complex_t := (0%R, 0%R).

Abbreviation complex_grid := (DynamicGrid complex_t).

(** The number of positions of the box of a multi-index (on its first
    [k] axes, and on all of them). *)
Definition box_count_upto (k : nat) (m : MultiIndex.t) : Z :=
  fold_left (fun p i => p * (get (MultiIndex.mUpperBound m) i
                             - get (MultiIndex.mLowerBound m) i))
            (seq 0 k) 1.

Definition box_count (m : MultiIndex.t) : Z := box_count_upto (MultiIndex.mDimension m) m.

(** The row-major rank of the current position in the box. *)
Definition box_rank_upto (k : nat) (m : MultiIndex.t) : Z :=
  fold_left (fun r i => r * (get (MultiIndex.mUpperBound m) i
                             - get (MultiIndex.mLowerBound m) i)
                        + (get (MultiIndex.mCurrentPos m) i
                           - get (MultiIndex.mLowerBound m) i))
            (seq 0 k) 0.

Definition box_rank (m : MultiIndex.t) : Z := box_rank_upto (MultiIndex.mDimension m) m.

(** The loop of [hasDerivativesOfOrder], at most [fuel] rounds. *)
Fixpoint hasDerivativesOfOrder_loop (fuel : nat) (order : Z) (name_ : list byte)
         (p : Potential.t) (index : MultiIndex.t) : bool :=
  match fuel with
  | O => true
  | S fuel' =>
    if MultiIndex.valid index then
      if (Potential.getOrder index =? order) && negb (Potential.hasDerivative index name_ p)
      then false
      else hasDerivativesOfOrder_loop fuel' order name_ p (MultiIndex.incr index)
    else true
  end.

(** [Potential::hasDerivativesOfOrder]; [order + 1] is a [std::size_t]
    converted to [int] by [setUpperBound].  The loop is run for the
    number of positions of the box of the index, after which the index is
    no longer valid (lemma [iter_incr_ends]). *)
Definition hasDerivativesOfOrder (order : Z) (name_ : list byte) (p : Potential.t)
  : result bool :=
  index ← MultiIndex.create (Potential.mDimension p);
  index ← MultiIndex.setLowerBound 0 index;
  index ← MultiIndex.setUpperBound (wrap_int (to_size_t (order + 1))) index;
  index ← MultiIndex.init index;
  Ok (hasDerivativesOfOrder_loop (Z.to_nat (box_count index)) order name_ p index).

Module Randomize.

(** The bounds of [std::uniform_real_distribution<double> distribution(0.0, 2 * pi)]
    from which the worker draws. *)
Definition draw_lower : R := 0%R.
Definition draw_upper : R := (2 * PI)%R.

(** [rnd() < 0.5 ? 1 : -1] *)
Definition self_conjugate_sign (draw : R) : R :=
  if bool_decide (draw < 0.5)%R then 1%R else (-1)%R.

(** [inverted[i] = -index[i]] for [i < DIM] *)
Definition inverted_index (DIM : nat) (index : MultiIndex.t) : list Z :=
  map (fun i => wrap_int (- get (MultiIndex.mCurrentPos index) i)) (seq 0 DIM).

(** The body of the loop of [randomize_over_index<DIM>].  The random
    source [rnd] is the sequence of its draws; the state carries the grid
    and the number of draws made so far. *)
Definition phase_step (DIM : nat) (rnd : nat -> R) (index : MultiIndex.t)
           (st : complex_grid * nat) : complex_grid * nat :=
  let '(grid, drawn) := st in
  let inverted := inverted_index DIM index in
  let offset := getOffsetOf grid (MultiIndex.mCurrentPos index) in
  let iffset := getOffsetOf grid inverted in
  if offset <? iffset then
    let phase := rnd drawn in
    let factor := (cos phase, sin phase) in
    let grid := set_cell grid offset (cmul (cell grid offset) factor) in
    let grid := set_cell grid iffset (cmul (cell grid iffset) (conj factor)) in
    (grid, S drawn)
  else if offset =? iffset then
    (set_cell grid offset (cscale (cell grid offset) (self_conjugate_sign (rnd drawn))),
     S drawn)
  else (grid, drawn).

(** The loop [for(; index.valid(); ++index)], at most [fuel] rounds. *)
Fixpoint phase_loop (fuel : nat) (DIM : nat) (rnd : nat -> R) (index : MultiIndex.t)
         (st : complex_grid * nat) : complex_grid * nat * MultiIndex.t :=
  match fuel with
  | O => (st, index)
  | S fuel' =>
    if MultiIndex.valid index
    then phase_loop fuel' DIM rnd (MultiIndex.incr index) (phase_step DIM rnd index st)
    else (st, index)
  end.

(** [randomize_over_index<DIM>]; the loop is run for the number of
    positions of the box of the index, after which the index is no longer
    valid (lemma [phase_loop_exits]). *)
Definition randomize_over_index (DIM : nat) (grid : complex_grid) (rnd : nat -> R)
           (index : MultiIndex.t) : result complex_grid :=
  if negb (MultiIndex.valid index) then Throw invalid_argument
  else Ok (fst (fst (phase_loop (Z.to_nat (box_count index)) DIM rnd index (grid, 0%nat)))).

Definition randomize_generic (grid : complex_grid) (rnd : nat -> R)
           (index : MultiIndex.t) : result complex_grid :=
  if decide (getDimension grid = 1%nat) then randomize_over_index 1 grid rnd index
  else if decide (getDimension grid = 2%nat) then randomize_over_index 2 grid rnd index
  else if decide (getDimension grid = 3%nat) then randomize_over_index 3 grid rnd index
  else Throw logic_error.

(** [std::max(1u, std::min(64u, static_cast<unsigned>(grid.size() / (128*128*128))))] *)
Definition thread_count (grid : complex_grid) : Z :=
  Z.max 1 (Z.min 64 ((size grid / (128 * 128 * 128)) mod 2 ^ 32)).

Section Workers.
(** The draws of the generator of each worker: [worker_rnd seed k] is
    the sequence drawn by the [k]-th worker, whose engine is seeded from
    the seed sequence made by the 64-bit Mersenne twister seeded with
    [seed]. *)
Variable worker_rnd : Z -> nat -> nat -> R.

(** One task [std::async(randomize_generic, std::ref(grid), rnd, sub)].
    An exception thrown inside a task stays in its future, which is
    never read. *)
Definition run_task (seed : Z) (grid : complex_grid) (task : nat * MultiIndex.t)
  : complex_grid :=
  match randomize_generic grid (worker_rnd seed (fst task)) (snd task) with
  | Ok grid' => grid'
  | Throw _ => grid
  end.

(** [randomizePhases].  The tasks run concurrently in C++; they write
    disjoint cells, and the model runs them one after the other in the
    order of the sub-indices. *)
Definition randomizePhases (grid : complex_grid) (seed : Z) : result complex_grid :=
  index ← fft_indexing grid;
  sub_indices ← MultiIndex.split (Z.to_nat (thread_count grid)) index;
  Ok (fold_left (run_task seed) (zip (seq 0 (length sub_indices)) sub_indices) grid).

End Workers.

(** The storage coordinate [FFTIndexFn] gives to an index component. *)
Definition fft_coord (e x : Z) : Z := if x <? 0 then to_size_t (e + x) else x.

(** The storage coordinate of the negated frequency. *)
Definition conj_coord (e s : Z) : Z := if s =? 0 then 0 else e - s.

(** The number of cells spanned by the first [k] axes. *)
Definition cells_upto (k : nat) (extents : list Z) : Z :=
  fold_left (fun p i => p * get extents i) (seq 0 k) 1.

(** Every coordinate of the first [k] axes lies inside its extent. *)
Definition coords_in_range (k : nat) (extents index : list Z) : Prop :=
  forall i, (i < k)%nat ->
    0 <= fft_coord (get extents i) (get index i) < get extents i.

(** FFT-centred indices of a grid: on every axis in [[-E/2, E/2)]. *)
Definition fft_centred (extents : list Z) (n : list Z) : Prop :=
  forall i, (i < length extents)%nat ->
    - (get extents i / 2) <= get n i < get extents i / 2.

(** Hermitian symmetry [G[n] = conj(G[-n])]. *)
Definition hermitian (grid : complex_grid) : Prop :=
  forall n, fft_centred (getExtents grid) n ->
    cell grid (getOffsetOf grid n) = conj (cell grid (getOffsetOf grid (map Z.opp n))).

(** Extents an FFT-centred [int] index can address: positive, even, and
    within [int]. *)
Definition fft_extent (e : Z) : Prop := 0 < e /\ e mod 2 = 0 /\ e <= INT_MAX.

(** The grids [randomizePhases] is meant for: built by the constructor,
    in FFT-centred access mode, of dimension 1 to 3, with such extents. *)
Definition fft_grid (grid : complex_grid) : Prop :=
  wf_grid grid /\ getAccessMode grid = FFT_INDEX /\
  (1 <= getDimension grid <= 3)%nat /\ Forall fft_extent (getExtents grid).

(** The products [int(i+1) * range] of [split] on [thread_count] parts
    stay within [int] (signed overflow is undefined in C++). *)
Definition split_in_int (grid : complex_grid) : Prop :=
  thread_count grid * get (getExtents grid) 0 <= INT_MAX.

(** Grids of the same shape whose cells have the same moduli. *)
Definition same_moduli (g g' : complex_grid) : Prop :=
  getExtents g' = getExtents g /\ getDimension g' = getDimension g /\
  getAccessMode g' = getAccessMode g /\
  length (mData g') = length (mData g) /\
  forall k : nat, norm (default zero (mData g' !! k)) = norm (default zero (mData g !! k)).

(** An iteration index over (a part of) the FFT-centred indices of a grid. *)
Definition index_within (grid : complex_grid) (index : MultiIndex.t) : Prop :=
  MultiIndex.inv index /\
  MultiIndex.mDimension index = getDimension grid /\
  forall i, (i < getDimension grid)%nat ->
    - (get (getExtents grid) i / 2) <= get (MultiIndex.mLowerBound index) i /\
    get (MultiIndex.mUpperBound index) i <= get (getExtents grid) i / 2.

End Randomize.

(* ===================================================================== *)
(** * Part II: properties *)
(* ===================================================================== *)

(** ** Machine integers *)

Lemma wrap_int_range z : int_range (wrap_int z).
Proof.
  unfold int_range, wrap_int, INT_MIN, INT_MAX.
  pose proof (Z.mod_pos_bound (z + 2 ^ 31) (2 ^ 32) ltac:(lia)). lia.
Qed.

Lemma wrap_int_id z : int_range z -> wrap_int z = z.
Proof.
  unfold int_range, wrap_int, INT_MIN, INT_MAX. intros H.
  rewrite Z.mod_small by lia. lia.
Qed.

Lemma to_size_t_id z : size_range z -> to_size_t z = z.
Proof.
  unfold size_range, to_size_t, SIZE_MAX. intros H.
  apply Z.mod_small. lia.
Qed.

Lemma to_size_t_range z : size_range (to_size_t z).
Proof.
  unfold size_range, to_size_t, SIZE_MAX.
  pose proof (Z.mod_pos_bound z (2 ^ 64) ltac:(lia)). lia.
Qed.

(** ** MultiIndex: the box invariant *)

Section MultiIndexFacts.
Import MultiIndex.

Lemma get_insert_eq (a : storage_type) i v :
  (i < length a)%nat -> get (<[i:=v]> a) i = v.
Proof. intros H. unfold get. by rewrite list_lookup_insert_eq. Qed.

Lemma get_insert_ne (a : storage_type) i j v :
  i <> j -> get (<[i:=v]> a) j = get a j.
Proof. intros H. unfold get. by rewrite list_lookup_insert_ne. Qed.

Lemma get_fill v i : (i < MAX_MULTIINDEX_DIMENSION)%nat -> get (fill v) i = v.
Proof.
  intros H. unfold get, fill. by rewrite lookup_replicate_2.
Qed.

Lemma get_range (a : storage_type) i : Forall int_range a -> int_range (get a i).
Proof.
  intros H. unfold get. destruct (a !! i) as [v|] eqn:E; simpl.
  - eapply Forall_lookup_1; eauto.
  - unfold int_range, INT_MIN, INT_MAX. lia.
Qed.

Lemma Forall_fill v : int_range v -> Forall int_range (fill v).
Proof. intros H. unfold fill. by apply Forall_replicate. Qed.

Lemma Forall_insert_range (a : storage_type) i v :
  Forall int_range a -> int_range v -> Forall int_range (<[i:=v]> a).
Proof. intros Ha Hv. by apply Forall_insert. Qed.

Lemma set_at_ok a i v a' :
  set_at a i v = Ok a' -> a' = <[i:=v]> a /\ (i < length a)%nat.
Proof. unfold set_at. case_decide; intros E; inversion E; auto. Qed.

Lemma setLowerBoundAt_ok d lb m :
  mIsValid m = false -> (d < length (mLowerBound m))%nat ->
  setLowerBoundAt d lb m
  = Ok (Build (<[d:=lb]> (mLowerBound m)) (mUpperBound m) (mCurrentPos m)
              (mDimension m) false).
Proof.
  intros Hv Hd. unfold setLowerBoundAt, checkNotValid, valid, set_at.
  rewrite Hv. simpl. by rewrite decide_True.
Qed.

Lemma setUpperBoundAt_ok d ub m :
  mIsValid m = false -> (d < length (mUpperBound m))%nat ->
  setUpperBoundAt d ub m
  = Ok (Build (mLowerBound m) (<[d:=ub]> (mUpperBound m)) (mCurrentPos m)
              (mDimension m) false).
Proof.
  intros Hv Hd. unfold setUpperBoundAt, checkNotValid, valid, set_at.
  rewrite Hv. simpl. by rewrite decide_True.
Qed.

Lemma bounds_ok_spec m :
  bounds_ok m = true <->
  forall i, (i < mDimension m)%nat -> get (mLowerBound m) i < get (mUpperBound m) i.
Proof.
  unfold bounds_ok. rewrite forallb_forall. split.
  - intros H i Hi. specialize (H i). rewrite Z.ltb_lt in H. apply H.
    apply in_seq. lia.
  - intros H i Hi. apply in_seq in Hi. apply Z.ltb_lt. apply H. lia.
Qed.

Lemma increment_from_shape k m :
  let m' := fst (increment_from k m) in
  mLowerBound m' = mLowerBound m /\ mUpperBound m' = mUpperBound m /\
  mDimension m' = mDimension m /\ length (mCurrentPos m') = length (mCurrentPos m).
Proof.
  revert m. induction k as [|k IH]; intros m; simpl; [done|].
  destruct (_ <? _); simpl.
  - by rewrite length_insert.
  - destruct (IH (Build (mLowerBound m) (mUpperBound m)
                    (<[k:=get (mLowerBound m) k]> (mCurrentPos m))
                    (mDimension m) (mIsValid m))) as (H1 & H2 & H3 & H4).
    simpl in *. rewrite length_insert in H4. done.
Qed.

Lemma increment_from_flag k m :
  mIsValid (fst (increment_from k m)) = true -> mIsValid m = true.
Proof.
  revert m. induction k as [|k IH]; intros m; simpl; [done|].
  destruct (_ <? _); simpl; [done|]. intros H. by apply IH in H.
Qed.

Lemma increment_from_ranges k m :
  Forall int_range (mLowerBound m) -> Forall int_range (mCurrentPos m) ->
  Forall int_range (mCurrentPos (fst (increment_from k m))).
Proof.
  revert m. induction k as [|k IH]; intros m Hlo Hc; simpl; [done|].
  destruct (_ <? _); simpl.
  - apply Forall_insert_range; [done | apply wrap_int_range].
  - apply IH; simpl; [done|]. apply Forall_insert_range; [done|]. by apply get_range.
Qed.

Lemma increment_from_wf k m : wf m -> wf (fst (increment_from k m)).
Proof.
  intros (H1 & H2 & H3 & H4 & H5 & H6 & H7).
  destruct (increment_from_shape k m) as (E1 & E2 & E3 & E4).
  unfold wf. rewrite E1, E2, E3, E4. repeat split; try done.
  by apply increment_from_ranges.
Qed.

Lemma increment_from_box k m :
  wf m -> (k <= mDimension m)%nat -> in_box m ->
  mIsValid (fst (increment_from k m)) = true -> in_box (fst (increment_from k m)).
Proof.
  revert m. induction k as [|k IH]; intros m Hwf Hk Hbox; simpl; [done|].
  destruct Hwf as (L1 & L2 & L3 & L4 & R1 & R2 & R3).
  assert (Hkl : (k < length (mCurrentPos m))%nat)
    by (rewrite L3; unfold MAX_MULTIINDEX_DIMENSION in *; lia).
  destruct (Hbox k ltac:(lia)) as [Hck Hlu].
  assert (Hup : int_range (get (mUpperBound m) k)) by by apply get_range.
  assert (Hlo : int_range (get (mLowerBound m) k)) by by apply get_range.
  assert (Hw : wrap_int (get (mCurrentPos m) k + 1) = get (mCurrentPos m) k + 1).
  { apply wrap_int_id. unfold int_range in *. lia. }
  rewrite Hw.
  destruct (_ <? _) eqn:E; simpl.
  - intros _ i Hi. simpl in *. apply Z.ltb_lt in E.
    destruct (decide (i = k)) as [->|Hne].
    + rewrite get_insert_eq by done. lia.
    + rewrite get_insert_ne by done. by apply Hbox.
  - apply IH; simpl; [ | lia | ].
    + repeat split; simpl; try done.
      * by rewrite length_insert.
      * by apply Forall_insert_range.
    + intros i Hi. simpl in *.
      destruct (decide (i = k)) as [->|Hne].
      * rewrite get_insert_eq by done. lia.
      * rewrite get_insert_ne by done. by apply Hbox.
Qed.

Lemma increment_inv m : inv m -> inv (incr m).
Proof.
  intros [Hwf Hb]. split.
  - by apply increment_from_wf.
  - intros Hv. unfold incr, increment in *.
    apply increment_from_box; [done | lia | | done].
    apply Hb. by eapply increment_from_flag.
Qed.

Lemma checkNotValid_ok m : checkNotValid m = Ok tt -> mIsValid m = false.
Proof. unfold checkNotValid, valid. by destruct (mIsValid m). Qed.

Lemma checkNotValid_cases m :
  (mIsValid m = true /\ checkNotValid m = Throw logic_error) \/
  (mIsValid m = false /\ checkNotValid m = Ok tt).
Proof. unfold checkNotValid, valid. destruct (mIsValid m); auto. Qed.

Lemma init_ok m m' :
  init m = Ok m' ->
  mIsValid m = false /\ bounds_ok m = true /\
  m' = Build (mLowerBound m) (mUpperBound m) (mLowerBound m) (mDimension m) true.
Proof.
  unfold init. destruct (checkNotValid_cases m) as [[Hv ->]|[Hv ->]]; simpl; [done|].
  destruct (bounds_ok m); [|done]. intros E. by inversion E.
Qed.

Lemma init_inv m m' : wf m -> init m = Ok m' -> wf m' /\ mIsValid m' = true /\ in_box m'.
Proof.
  intros (L1 & L2 & L3 & L4 & R1 & R2 & R3) E.
  apply init_ok in E as (Hv & Hb & ->).
  split; [by repeat split|]. split; [done|].
  intros i Hi. simpl in *. rewrite bounds_ok_spec in Hb. specialize (Hb i Hi). lia.
Qed.

Lemma init_rejects m :
  (exists i, (i < mDimension m)%nat /\ get (mUpperBound m) i <= get (mLowerBound m) i) ->
  init m = Throw logic_error.
Proof.
  intros (i & Hi & Hle). unfold init.
  destruct (checkNotValid_cases m) as [[Hv ->]|[Hv ->]]; simpl; [done|].
  destruct (bounds_ok m) eqn:E; [|done].
  rewrite bounds_ok_spec in E. specialize (E i Hi). lia.
Qed.

Lemma setUpperBoundDynamic_rejects d ub m :
  ub <= get (mLowerBound m) d \/ ub <= get (mCurrentPos m) d ->
  length (mLowerBound m) = length (mCurrentPos m) ->
  setUpperBoundDynamic d ub m =
    Throw (if decide (d < length (mLowerBound m))%nat then logic_error else out_of_range).
Proof.
  intros H L. unfold setUpperBoundDynamic, get in *.
  destruct (mLowerBound m !! d) as [lo|] eqn:E1.
  - pose proof (lookup_lt_Some _ _ _ E1) as Hlt.
    rewrite decide_True by done. simpl in H.
    destruct (ub <=? lo) eqn:E; [done|]. apply Z.leb_gt in E.
    destruct (mCurrentPos m !! d) as [c|] eqn:E2.
    + simpl in H. destruct (ub <=? c) eqn:E'; [done|]. apply Z.leb_gt in E'. lia.
    + apply lookup_ge_None in E2. lia.
  - apply lookup_ge_None in E1. rewrite decide_False by lia. done.
Qed.

Lemma setUpperBoundDynamic_inv d ub m m' :
  inv m -> int_range ub -> setUpperBoundDynamic d ub m = Ok m' -> inv m'.
Proof.
  intros [(L1 & L2 & L3 & L4 & R1 & R2 & R3) Hb] Hub.
  unfold setUpperBoundDynamic.
  destruct (mLowerBound m !! d) as [lo|] eqn:E1; [|done].
  destruct (ub <=? lo) eqn:Elo; [done|]. apply Z.leb_gt in Elo.
  destruct (mCurrentPos m !! d) as [c|] eqn:E2; [|done].
  destruct (ub <=? c) eqn:Ec; [done|]. apply Z.leb_gt in Ec.
  destruct (set_at (mUpperBound m) d ub) as [up|] eqn:E3; simpl; [|done].
  intros E. inversion E; subst m'; clear E.
  apply set_at_ok in E3 as [-> Hd].
  split.
  - repeat split; simpl; try done.
    + by rewrite length_insert.
    + by apply Forall_insert_range.
  - simpl. intros Hv i Hi. simpl in *.
    destruct (decide (i = d)) as [->|Hne].
    + rewrite get_insert_eq by done.
      destruct (Hb Hv d Hi) as [Hc Hl]. unfold get in *. rewrite E1, E2 in *.
      simpl in *. lia.
    + rewrite get_insert_ne by done. by apply Hb.
Qed.

Lemma reachable_inv m : reachable m -> inv m.
Proof.
  induction 1 as [dims m E | dims lo up m Hd Hlo Hup E
                 | lb m m' _ IH Hr E | ub m m' _ IH Hr E
                 | d lb m m' _ IH Hr E | d ub m m' _ IH Hr E
                 | d ub m m' _ IH Hr E | m m' _ IH E | m _ IH | m _ IH].
  - unfold create in E. case_decide; [done|]. inversion E; subst m; clear E.
    split; [|done]. repeat split; simpl; try done; try lia;
      apply Forall_fill; unfold int_range, INT_MIN, INT_MAX; lia.
  - unfold create_bounds in E. simpl in E.
    apply init_inv in E as (Hw & Hv & Hb); [by split|].
    repeat split; simpl; try done; apply Forall_fill; try done;
      unfold int_range, INT_MIN, INT_MAX; lia.
  - destruct IH as [(L1 & L2 & L3 & L4 & R1 & R2 & R3) Hb].
    unfold setLowerBound in E.
    destruct (checkNotValid_cases m) as [[Hv Hc]|[Hv Hc]]; rewrite Hc in E; [done|].
    simpl in E. inversion E; subst m'. split; [|simpl; congruence].
    repeat split; simpl; try done. by apply Forall_fill.
  - destruct IH as [(L1 & L2 & L3 & L4 & R1 & R2 & R3) Hb].
    unfold setUpperBound in E.
    destruct (checkNotValid_cases m) as [[Hv Hc]|[Hv Hc]]; rewrite Hc in E; [done|].
    simpl in E. inversion E; subst m'. split; [|simpl; congruence].
    repeat split; simpl; try done. by apply Forall_fill.
  - destruct IH as [(L1 & L2 & L3 & L4 & R1 & R2 & R3) Hb].
    unfold setLowerBoundAt in E.
    destruct (checkNotValid_cases m) as [[Hv Hc]|[Hv Hc]]; rewrite Hc in E; [done|].
    simpl in E. destruct (set_at _ _ _) as [lo|] eqn:E3; simpl in E; [|done].
    apply set_at_ok in E3 as [-> Hd].
    inversion E; subst m'. split; [|simpl; congruence].
    repeat split; simpl; try done.
    + by rewrite length_insert.
    + by apply Forall_insert_range.
  - destruct IH as [(L1 & L2 & L3 & L4 & R1 & R2 & R3) Hb].
    unfold setUpperBoundAt in E.
    destruct (checkNotValid_cases m) as [[Hv Hc]|[Hv Hc]]; rewrite Hc in E; [done|].
    simpl in E. destruct (set_at _ _ _) as [lo|] eqn:E3; simpl in E; [|done].
    apply set_at_ok in E3 as [-> Hd].
    inversion E; subst m'. split; [|simpl; congruence].
    repeat split; simpl; try done.
    + by rewrite length_insert.
    + by apply Forall_insert_range.
  - by eapply setUpperBoundDynamic_inv.
  - destruct IH as [Hw _]. apply init_inv in E as (? & ? & ?); [by split | done].
  - by apply increment_inv.
  - destruct IH as [Hw _]. split; [done | simpl; congruence].
Qed.

Lemma increment_from_last k m :
  (k <= mDimension m)%nat -> wf m ->
  (forall i, (i < k)%nat -> get (mCurrentPos m) i + 1 = get (mUpperBound m) i) ->
  mIsValid (fst (increment_from k m)) = false.
Proof.
  revert m. induction k as [|k IH]; intros m Hk Hwf Hlast; simpl; [done|].
  destruct Hwf as (L1 & L2 & L3 & L4 & R1 & R2 & R3).
  assert (Hup : int_range (get (mUpperBound m) k)) by by apply get_range.
  rewrite wrap_int_id by (rewrite Hlast by lia; done).
  rewrite Hlast by lia. rewrite Z.ltb_irrefl.
  apply IH; simpl; [lia | | ].
  - repeat split; simpl; try done.
    + by rewrite length_insert.
    + apply Forall_insert_range; [done | by apply get_range].
  - intros i Hi. rewrite get_insert_ne by lia. apply Hlast. lia.
Qed.

(** C10. Whenever a MultiIndex is valid, every axis [i] below its
    dimension satisfies [lower[i] <= current[i] < upper[i]] and
    [lower[i] < upper[i]].  The invariant holds in every state reachable
    through the public interface; [init] establishes it and throws
    [logic_error] when some axis has [lower >= upper]; [increment] keeps
    it, clearing the validity flag when the last position of the box is
    passed; [setUpperBoundDynamic] keeps it and throws when the new upper
    bound is at or below the current position or the lower bound. *)
Theorem multiindex_box_invariant (m : MultiIndex.t) (Hr : reachable m) :
  (mIsValid m = true -> in_box m)
  /\ (forall m', init m = Ok m' -> mIsValid m' = true /\ in_box m')
  /\ ((exists i, (i < mDimension m)%nat /\
                 get (mUpperBound m) i <= get (mLowerBound m) i) ->
      init m = Throw logic_error)
  /\ (mIsValid (incr m) = true -> in_box (incr m))
  /\ (mIsValid m = true ->
      (forall i, (i < mDimension m)%nat ->
                 get (mCurrentPos m) i + 1 = get (mUpperBound m) i) ->
      mIsValid (incr m) = false)
  /\ (forall d ub,
        ub <= get (mLowerBound m) d \/ ub <= get (mCurrentPos m) d ->
        exists e, setUpperBoundDynamic d ub m = Throw e)
  /\ (forall d ub m',
        int_range ub -> setUpperBoundDynamic d ub m = Ok m' ->
        mIsValid m' = true -> in_box m').
Proof.
  pose proof (reachable_inv m Hr) as [Hwf Hb].
  split; [done|]. split.
  { intros m' E. by apply init_inv in E as (? & ? & ?). }
  split; [apply init_rejects|]. split.
  { intros Hv. by apply (increment_inv m). }
  split.
  { intros _ Hlast. unfold incr, increment. by apply increment_from_last. }
  split.
  - intros d ub H. eexists. apply setUpperBoundDynamic_rejects; [done|].
    destruct Hwf as (L1 & L2 & L3 & _). congruence.
  - intros d ub m' Hub E Hv.
    assert (Hi : inv m) by (by split).
    destruct (setUpperBoundDynamic_inv d ub m m' Hi Hub E) as [_ Hb']. by apply Hb'.
Qed.

Lemma multiindex_box_invariant_witness :
  let m := Build [0; 0; 0; 0] [3; 3; 3; 3] [0; 0; 0; 0] 2 true in
  reachable m /\ in_box m.
Proof.
  intros m.
  assert (Hr : reachable m).
  { apply (r_create_bounds 2 0 3); unfold int_range, INT_MIN, INT_MAX,
      MAX_MULTIINDEX_DIMENSION; try lia. reflexivity. }
  split; [exact Hr|].
  exact (proj1 (multiindex_box_invariant m Hr) eq_refl).
Defined.

End MultiIndexFacts.

(* ===================================================================== *)
(** ** Bytes and streams *)
(* ===================================================================== *)

Lemma result_bind_ok {A B} (r : result A) (f : A -> result B) a :
  r = Ok a -> (r ≫= f) = f a.
Proof. by intros ->. Qed.

Lemma rbind_ok {A B} (r : reader A) (f : A -> reader B) s a s' :
  r s = Ok (a, s') -> (r ≫= f) s = f a s'.
Proof. intros E. unfold mbind, reader_bind, rbind. by rewrite E. Qed.

Lemma rbind_throw {A B} (r : reader A) (f : A -> reader B) s e :
  r s = Throw e -> (r ≫= f) s = Throw e.
Proof. intros E. unfold mbind, reader_bind, rbind. by rewrite E. Qed.

Lemma Z_of_byte_range b : 0 <= Z_of_byte b < 256.
Proof. unfold Z_of_byte. pose proof (Byte.to_N_bounded b). lia. Qed.

Lemma Z_of_byte_of_Z z : Z_of_byte (byte_of_Z z) = z mod 256.
Proof.
  unfold Z_of_byte, byte_of_Z.
  pose proof (Z.mod_pos_bound z 256 ltac:(lia)) as Hb.
  destruct (Byte.of_N (Z.to_N (z mod 256))) as [b|] eqn:E; simpl.
  - apply Byte.to_of_N in E. rewrite E. lia.
  - apply Byte.of_N_None_iff in E. lia.
Qed.

Lemma byte_of_Z_of_byte b : byte_of_Z (Z_of_byte b) = b.
Proof.
  unfold Z_of_byte, byte_of_Z. pose proof (Byte.to_N_bounded b) as Hb.
  rewrite Z.mod_small by lia. rewrite N2Z.id. by rewrite Byte.of_to_N.
Qed.

Lemma le_bytes_length n v : length (le_bytes n v) = n.
Proof. revert v. induction n as [|n IH]; intros v; simpl; [done|]. by rewrite IH. Qed.

Lemma le_value_bytes n v : le_value (le_bytes n v) = v mod 256 ^ Z.of_nat n.
Proof.
  revert v. induction n as [|n IH]; intros v.
  - simpl. by rewrite Z.mod_1_r.
  - cbn [le_bytes le_value]. rewrite IH, Z_of_byte_of_Z.
    rewrite Nat2Z.inj_succ, Z.pow_succ_r by lia.
    rewrite Z.rem_mul_r by lia. lia.
Qed.

Lemma read_bytes_app bs rest :
  read_bytes (length bs) (bs ++ rest) = Ok (bs, rest).
Proof.
  unfold read_bytes. rewrite decide_False by (rewrite length_app; lia).
  by rewrite take_app_length, drop_app_length.
Qed.

Lemma read_bytes_app' n bs rest :
  n = length bs -> read_bytes n (bs ++ rest) = Ok (bs, rest).
Proof. intros ->. apply read_bytes_app. Qed.

Lemma readInteger_write v rest :
  readInteger (writeInteger v ++ rest) = Ok (to_size_t v, rest).
Proof.
  unfold readInteger, writeInteger.
  erewrite rbind_ok by (apply read_bytes_app'; by rewrite le_bytes_length).
  unfold mret, reader_ret, rret. rewrite le_value_bytes.
  unfold to_size_t. change (256 ^ Z.of_nat 8) with (2 ^ 64).
  by rewrite Z.mod_mod by lia.
Qed.

Lemma readFloat_write d rest :
  readFloat (writeFloat d ++ rest) = Ok (d, rest).
Proof.
  unfold readFloat, writeFloat.
  erewrite rbind_ok by (apply read_bytes_app'; by destruct d).
  by destruct d.
Qed.

Lemma read_n_integers l rest :
  read_n (length l) readInteger (concat (map writeInteger l) ++ rest)
  = Ok (map to_size_t l, rest).
Proof.
  induction l as [|v l IH]; [done|].
  cbn [length read_n map concat]. rewrite <- app_assoc.
  erewrite rbind_ok by apply readInteger_write.
  erewrite rbind_ok by apply IH. done.
Qed.

Lemma read_n_floats l rest :
  read_n (length l) readFloat (concat (map writeFloat l) ++ rest) = Ok (l, rest).
Proof.
  induction l as [|v l IH]; [done|].
  cbn [length read_n map concat]. rewrite <- app_assoc.
  erewrite rbind_ok by apply readFloat_write.
  erewrite rbind_ok by apply IH. done.
Qed.

Lemma map_to_size_t_id l : Forall size_range l -> map to_size_t l = l.
Proof.
  induction 1 as [|x l Hx _ IH]; [done|]. simpl. by rewrite to_size_t_id, IH.
Qed.

Lemma getline_nul_app name rest :
  x00 ∉ name -> getline_nul (name ++ x00 :: rest) = Ok (name, rest).
Proof.
  induction name as [|b name IH]; intros Hn.
  - cbn [app getline_nul]. by rewrite decide_True.
  - rewrite <- app_comm_cons. cbn [getline_nul].
    rewrite decide_False by (intros ->; apply Hn; left).
    rewrite IH by (intros Hin; apply Hn; by right). done.
Qed.

(* ===================================================================== *)
(** ** DynamicGrid *)
(* ===================================================================== *)

Section GridFacts.
Context {V : Type} `{Zero V} `{Serial V}.

Lemma setAccessMode_ok (type : TransformationType) (g : DynamicGrid V) :
  (1 <= mDimension g <= 6)%nat ->
  setAccessMode type g = Ok (MkGrid (mData g) (mDimension g) (mExtents g) type).
Proof. intros Hd. unfold setAccessMode, getIndexFn. by rewrite decide_True. Qed.

Lemma setAccessMode_throw (type : TransformationType) (g : DynamicGrid V) :
  ~ (1 <= mDimension g <= 6)%nat -> setAccessMode type g = Throw logic_error.
Proof. intros Hd. unfold setAccessMode, getIndexFn. by rewrite decide_False. Qed.

Lemma create_alloc_always sizes indexing :
  create_alloc (fun _ => true) sizes indexing = create (V := V) sizes indexing.
Proof. reflexivity. Qed.

Lemma create_ok sizes indexing n :
  safe_product sizes = Ok n -> (1 <= length sizes <= 6)%nat ->
  create sizes indexing
  = Ok (MkGrid (replicate (Z.to_nat n) (zero : V)) (length sizes) sizes indexing).
Proof.
  intros Hp Hd. unfold create. rewrite Hp. simpl.
  by rewrite setAccessMode_ok.
Qed.

Lemma safe_product_step_throw l e :
  fold_left safe_product_step l (Throw e) = Throw e.
Proof. induction l as [|f l IH]; [done|]. simpl. apply IH. Qed.

Lemma safe_product_range_from l p n :
  size_range p -> fold_left safe_product_step l (Ok p) = Ok n -> size_range n.
Proof.
  revert p. induction l as [|f l IH]; intros p Hp E; simpl in E.
  - by inversion E; subst.
  - destruct (f <? 0); [by rewrite safe_product_step_throw in E|].
    destruct (negb (f =? 0) && (SIZE_MAX / f <=? p));
      [by rewrite safe_product_step_throw in E|].
    eapply IH; [|exact E]. apply to_size_t_range.
Qed.

Lemma safe_product_range l n : safe_product l = Ok n -> size_range n.
Proof.
  apply safe_product_range_from. unfold size_range, SIZE_MAX. lia.
Qed.

Lemma create_wf sizes indexing (g : DynamicGrid V) :
  Forall size_range sizes -> create sizes indexing = Ok g -> wf_grid g.
Proof.
  intros Hs E. unfold create in E.
  destruct (safe_product sizes) as [n|] eqn:Hp; [|done]. simpl in E.
  unfold setAccessMode, getIndexFn in E. simpl in E.
  case_decide; [|done]. simpl in E. inversion E; subst g; clear E.
  repeat split; simpl; try done; try lia.
  rewrite length_replicate, Z2Nat.id; [done|].
  apply safe_product_range in Hp. unfold size_range in Hp. lia.
Qed.

Lemma cells_of_bytes_concat (d : list V) :
  cells_of_bytes (length d) (concat (map to_bytes d)) = d.
Proof.
  induction d as [|v d IH]; [done|].
  cbn [length cells_of_bytes map concat].
  rewrite <- (to_bytes_length v) at 1 2.
  rewrite take_app_length, drop_app_length, of_to_bytes. by rewrite IH.
Qed.

Lemma concat_to_bytes_length (d : list V) :
  length (concat (map to_bytes d)) = (stride * length d)%nat.
Proof.
  induction d as [|v d IH]; simpl; [lia|].
  rewrite length_app, IH, to_bytes_length. lia.
Qed.

Lemma read_into_app buffer bs rest :
  length buffer = length bs -> read_into buffer (bs ++ rest) = Ok (bs, rest).
Proof.
  intros L. unfold read_into. cbv zeta. rewrite L.
  rewrite take_app_length, drop_app_length, <- L, drop_all. by rewrite app_nil_r.
Qed.

Lemma storage_load_dump (d0 d : list V) rest :
  size_range (Z.of_nat (length d)) -> length d0 = length d ->
  storage_load d0 (storage_dump d ++ rest) = Ok (d, rest).
Proof.
  intros Hr L. unfold storage_load, storage_dump.
  rewrite <- !app_assoc. simpl.
  erewrite rbind_ok by (apply getline_nul_app, type_name_c_string).
  erewrite rbind_ok by apply readInteger_write.
  rewrite decide_True by done.
  rewrite decide_True by (rewrite L; by apply to_size_t_id).
  erewrite rbind_ok by (apply read_into_app; by rewrite !concat_to_bytes_length, L).
  unfold mret, reader_ret, rret. by rewrite L, cells_of_bytes_concat.
Qed.

Lemma load_info_dump (g : DynamicGrid V) rest :
  mDimension g = length (mExtents g) -> (mDimension g <= 6)%nat ->
  Forall size_range (mExtents g) ->
  load_info (["g"%byte] ++ writeInteger (Z.of_nat (mDimension g))
               ++ concat (map writeInteger (mExtents g)) ++ rest)
  = Ok (mExtents g, rest).
Proof.
  intros Hd H6 Hr. unfold load_info. simpl.
  unfold mbind at 1, reader_bind, rbind. simpl.
  erewrite rbind_ok by apply readInteger_write.
  rewrite to_size_t_id by (unfold size_range, SIZE_MAX; lia).
  rewrite Nat2Z.id, Hd, read_n_integers. by rewrite map_to_size_t_id.
Qed.

Lemma load_dump (g : DynamicGrid V) rest :
  wf_grid g ->
  load (dump g ++ rest)
  = Ok (MkGrid (mData g) (mDimension g) (mExtents g) IDENTITY, rest).
Proof.
  intros (Hd & H6 & Hr & Hp). unfold load, dump.
  rewrite <- !app_assoc.
  erewrite rbind_ok by (apply load_info_dump; [done | lia | done]).
  rewrite (create_ok _ _ _ Hp) by lia.
  unfold mbind at 1, reader_bind, rbind, rlift. simpl.
  erewrite rbind_ok.
  2:{ apply storage_load_dump; [by apply safe_product_range in Hp|].
      by rewrite length_replicate, Nat2Z.id. }
  unfold mret, reader_ret, rret. by rewrite Hd.
Qed.

End GridFacts.

(** C9. [DynamicGrid::load] always builds the grid with IDENTITY access
    mode: the dump has no access-mode field (it is the same for every
    mode), and loading the dump of a grid [g] gives back the extents and
    the cells (hence the cell bytes) of [g] with access mode IDENTITY,
    whatever the mode of [g] was. *)
Theorem load_dump_identity_mode {V : Type} `{Zero V} `{Serial V}
        (g : DynamicGrid V) (Hwf : wf_grid g) :
  (forall mode, dump (MkGrid (mData g) (mDimension g) (mExtents g) mode) = dump g)
  /\ (forall rest, exists g',
        load (dump g ++ rest) = Ok (g', rest) /\
        getExtents g' = getExtents g /\
        mData g' = mData g /\
        concat (map to_bytes (mData g')) = concat (map to_bytes (mData g)) /\
        getAccessMode g' = IDENTITY).
Proof.
  split; [done|]. intros rest. eexists. split; [by apply load_dump|]. done.
Qed.

Lemma load_dump_identity_mode_witness :
  let g := MkGrid [F64 x01 x02 x03 x04 x05 x06 x07 x08; float64_zero] 1 [2] FFT_INDEX in
  wf_grid g /\
  exists g', load (dump g ++ []) = Ok (g', []) /\
             mData g' = mData g /\ getAccessMode g' = IDENTITY /\
             getAccessMode g' <> getAccessMode g.
Proof.
  intros g.
  assert (Hwf : wf_grid g).
  { unfold wf_grid, g; simpl. split; [reflexivity|]. split; [lia|].
    split; [|reflexivity].
    constructor; [|constructor]. unfold size_range, SIZE_MAX. lia. }
  split; [exact Hwf|].
  destruct (proj2 (load_dump_identity_mode g Hwf) []) as (g' & E & _ & Hd & _ & Hm).
  exists g'. repeat split; try done. rewrite Hm. discriminate.
Defined.

Section FftIndexingFacts.
Context {V : Type}.
Import MultiIndex.

Lemma fft_indexing_step_throw (grid : DynamicGrid V) l e :
  fold_left (fft_indexing_step grid) l (Throw e) = Throw e.
Proof. induction l as [|i l IH]; [done|]. simpl. apply IH. Qed.

Lemma fft_indexing_loop_odd (grid : DynamicGrid V) n a idx i :
  mIsValid idx = false ->
  length (mLowerBound idx) = MAX_MULTIINDEX_DIMENSION ->
  length (mUpperBound idx) = MAX_MULTIINDEX_DIMENSION ->
  (a + n <= MAX_MULTIINDEX_DIMENSION)%nat ->
  (a <= i < a + n)%nat ->
  get (getExtents grid) i mod 2 <> 0 ->
  fold_left (fft_indexing_step grid) (seq a n) (Ok idx) = Throw logic_error.
Proof.
  revert a idx. induction n as [|n IH]; intros a idx Hv Ll Lu Ha Hi Hodd; [lia|].
  cbn [seq fold_left]. unfold fft_indexing_step at 2.
  rewrite (result_bind_ok (Ok idx) _ idx) by done.
  destruct (get (getExtents grid) a mod 2 =? 0) eqn:E; cbn [negb].
  - apply Z.eqb_eq in E.
    assert (a <> i) by (intros ->; done).
    erewrite result_bind_ok by (apply setLowerBoundAt_ok; [done | lia]).
    rewrite setUpperBoundAt_ok; [|done|simpl; lia].
    apply IH; simpl; try done; try lia; by rewrite length_insert.
  - apply fft_indexing_step_throw.
Qed.

Lemma fft_indexing_odd (grid : DynamicGrid V) i :
  (i < getDimension grid)%nat -> get (getExtents grid) i mod 2 <> 0 ->
  fft_indexing grid = Throw logic_error.
Proof.
  intros Hi Hodd. unfold fft_indexing, create.
  case_decide; [done|]. erewrite result_bind_ok by done.
  erewrite fft_indexing_loop_odd; [done | done | done | done | | | exact Hodd].
  - unfold MAX_MULTIINDEX_DIMENSION in *. lia.
  - lia.
Qed.

End FftIndexingFacts.




(* ===================================================================== *)
(** ** Potential: what setDerivative keeps *)
(* ===================================================================== *)

Section PotentialFacts.
Import Potential.

Lemma lexicographical_compare_irrefl {A} (lt : A -> A -> bool) a :
  (forall x, lt x x = false) -> lexicographical_compare lt a a = false.
Proof.
  intros Hirr. induction a as [|x a IH]; [done|]. simpl. by rewrite Hirr.
Qed.

Lemma lexicographical_compare_asym {A} (lt : A -> A -> bool) a b :
  (forall x y, lt x y = true -> lt y x = false) ->
  lexicographical_compare lt a b = true -> lexicographical_compare lt b a = false.
Proof.
  intros Hasym. revert b. induction a as [|x a IH]; intros [|y b]; simpl; try done.
  destruct (lt x y) eqn:Exy.
  - intros _. by rewrite (Hasym _ _ Exy).
  - destruct (lt y x) eqn:Eyx; [done|]. apply IH.
Qed.

Lemma byte_lt_asym x y : byte_lt x y = true -> byte_lt y x = false.
Proof. unfold byte_lt. rewrite Z.ltb_lt, Z.ltb_ge. lia. Qed.

Lemma byte_lt_irrefl x : byte_lt x x = false.
Proof. unfold byte_lt. apply Z.ltb_irrefl. Qed.

Lemma Zltb_asym x y : (x <? y) = true -> (y <? x) = false.
Proof. rewrite Z.ltb_lt, Z.ltb_ge. lia. Qed.

Lemma key_lt_asym a b : key_lt a b = true -> key_lt b a = false.
Proof.
  unfold key_lt.
  destruct (lexicographical_compare byte_lt (name a) (name b)) eqn:E1.
  - intros _. rewrite (lexicographical_compare_asym _ _ _ byte_lt_asym E1).
    case_decide as En; [|done].
    rewrite En, lexicographical_compare_irrefl in E1; [done | apply byte_lt_irrefl].
  - case_decide as En; [|done]. intros E2.
    rewrite <- En, lexicographical_compare_irrefl by apply byte_lt_irrefl.
    rewrite decide_True by done.
    by apply lexicographical_compare_asym; [apply Zltb_asym|].
Qed.

Lemma map_assign_snoc k v (m : map_type) :
  Forall (fun x => key_lt (fst x) k = true) m -> map_assign k v m = m ++ [(k, v)].
Proof.
  induction 1 as [|[k' v'] m Hk _ IH]; [done|]. simpl in *.
  rewrite (key_lt_asym _ _ Hk), Hk. by rewrite IH.
Qed.

Lemma map_assign_checked D k v (m : map_type) :
  entry_checked D (k, v) -> Forall (entry_checked D) m ->
  Forall (entry_checked D) (map_assign k v m).
Proof.
  intros Hkv. induction 1 as [|[k' v'] m Hk Hm IH]; simpl.
  - by constructor.
  - destruct (key_lt k k'); [constructor; [done | by constructor]|].
    destruct (key_lt k' k); [by constructor|].
    constructor; [|done]. destruct Hkv, Hk. by split.
Qed.

Lemma setDerivative_ok deriv data name_ p :
  length deriv = mDimension p -> Grid.getDimension data = mDimension p ->
  setDerivative deriv data name_ p
  = Ok (with_data p (map_assign (MkIndex name_ deriv) data (mData p))).
Proof.
  intros H1 H2. unfold setDerivative.
  rewrite decide_False by (by intros ?). by rewrite decide_False by (by intros ?).
Qed.

Lemma setDerivative_rejects deriv data name_ p :
  length deriv <> mDimension p \/ Grid.getDimension data <> mDimension p ->
  setDerivative deriv data name_ p = Throw runtime_error.
Proof.
  intros H. unfold setDerivative. case_decide; [done|]. case_decide; [done|].
  by destruct H.
Qed.

Lemma setDerivative_inv deriv data name_ p p' :
  setDerivative deriv data name_ p = Ok p' ->
  length deriv = mDimension p /\ Grid.getDimension data = mDimension p /\
  p' = with_data p (map_assign (MkIndex name_ deriv) data (mData p)).
Proof.
  unfold setDerivative. case_decide as H1; [done|]. case_decide as H2; [done|].
  intros E. inversion E. repeat split; [|].
  - by destruct (decide (length deriv = mDimension p)).
  - by destruct (decide (Grid.getDimension data = mDimension p)).
Qed.

Lemma built_checked p :
  built p -> Forall (entry_checked (mDimension p)) (mData p).
Proof.
  induction 1 as [extents support strength | deriv data name_ p p' _ IH E
                 | data name_ p p' _ IH E].
  - constructor.
  - apply setDerivative_inv in E as (H1 & H2 & ->). simpl.
    by apply map_assign_checked.
  - apply setDerivative_inv in E as (H1 & H2 & ->). simpl.
    by apply map_assign_checked.
Qed.

(** C7 (as the code has it). After any sequence of successful
    [setPotential] / [setDerivative] calls on a potential of dimension D,
    every stored grid has dimension D and every stored derivative index
    vector has length D.  [setDerivative] throws [runtime_error] exactly
    when its index vector has another length or its grid another
    dimension; it accepts every other argument, so neither the extents of
    the grid nor the sign of the index entries are compared. *)
Theorem setDerivative_keeps_dimension (p : Potential.t) (Hb : built p) :
  Forall (fun e => Grid.getDimension (snd e) = mDimension p /\
                   length (derivations (fst e)) = mDimension p) (mData p)
  /\ (forall deriv data name_,
        length deriv <> mDimension p \/ Grid.getDimension data <> mDimension p ->
        setDerivative deriv data name_ p = Throw runtime_error)
  /\ (forall deriv data name_,
        length deriv = mDimension p -> Grid.getDimension data = mDimension p ->
        exists p', setDerivative deriv data name_ p = Ok p' /\ built p').
Proof.
  split; [by apply built_checked|].
  split; [intros deriv data name_ Hr; by apply setDerivative_rejects|].
  intros deriv data name_ H1 H2. eexists. split; [by apply setDerivative_ok|].
  eapply built_setDerivative; [done|]. by apply setDerivative_ok.
Qed.

Lemma setDerivative_keeps_dimension_witness :
  let p := create [2; 2] [minus_one; minus_one] minus_one in
  built p /\
  setDerivative [0] (MkGrid [] 2 [0; 0] IDENTITY) potential_name p = Throw runtime_error.
Proof.
  intros p. assert (Hb : built p) by constructor.
  split; [exact Hb|].
  apply (proj1 (proj2 (setDerivative_keeps_dimension p Hb))).
  left. simpl. lia.
Defined.

(** C7, counterexample: on a potential of extents (2, 2), [setDerivative]
    accepts the index vector (-1, 0) together with a grid of extents
    (3, 3); the stored grid then has other extents than the potential and
    the stored index vector a negative entry. *)
Lemma setDerivative_accepts_other_extents :
  exists g p',
    Grid.create (V:=float64) [3; 3] IDENTITY = Ok g /\
    setDerivative [-1; 0] g potential_name
                  (Potential.create [2; 2] [minus_one; minus_one] minus_one) = Ok p' /\
    built p' /\
    mExtents p' = [2; 2] /\
    mData p' = [(MkIndex potential_name [-1; 0], g)] /\
    Grid.getExtents g = [3; 3] /\
    Grid.getExtents g <> mExtents p' /\
    ~ Forall (fun d => 0 <= d) [-1; 0].
Proof.
  set (g := MkGrid (replicate 9 float64_zero) 2 [3; 3] IDENTITY).
  exists g.
  exists (with_data (create [2; 2] [minus_one; minus_one] minus_one)
                    [(MkIndex potential_name [-1; 0], g)]).
  split; [reflexivity|]. split; [reflexivity|].
  split.
  { apply (built_setDerivative [-1; 0] g potential_name
             (create [2; 2] [minus_one; minus_one] minus_one));
      [apply built_create | reflexivity]. }
  repeat split; [discriminate|].
  intros Hf. inversion Hf; lia.
Qed.

End PotentialFacts.

(* ===================================================================== *)
(** ** Potential: the file round trip *)
(* ===================================================================== *)

Lemma digit_of_byte_nl : digit_of_byte x0a = None.
Proof. reflexivity. Qed.

Lemma read_digits_uint d rest :
  match rest with [] => True | b :: _ => digit_of_byte b = None end ->
  read_digits (uint_bytes d ++ rest) = (d, rest).
Proof.
  intros Hrest. induction d as [|d IH|d IH|d IH|d IH|d IH|d IH|d IH|d IH|d IH|d IH];
    cbn [uint_bytes app read_digits];
    try (change (digit_of_byte "0") with (Some Decimal.D0);
         change (digit_of_byte "1") with (Some Decimal.D1);
         change (digit_of_byte "2") with (Some Decimal.D2);
         change (digit_of_byte "3") with (Some Decimal.D3);
         change (digit_of_byte "4") with (Some Decimal.D4);
         change (digit_of_byte "5") with (Some Decimal.D5);
         change (digit_of_byte "6") with (Some Decimal.D6);
         change (digit_of_byte "7") with (Some Decimal.D7);
         change (digit_of_byte "8") with (Some Decimal.D8);
         change (digit_of_byte "9") with (Some Decimal.D9);
         cbv beta iota; by rewrite IH).
  destruct rest as [|b r]; [done|]. cbn [read_digits]. by rewrite Hrest.
Qed.

Lemma skip_ws_uint d rest :
  d <> Decimal.Nil -> skip_ws (uint_bytes d ++ rest) = uint_bytes d ++ rest.
Proof. intros Hd. by destruct d. Qed.

Lemma to_uint_nonnil n : N.to_uint n <> Decimal.Nil.
Proof.
  destruct n as [|p]; [done|]. apply DecimalPos.Unsigned.to_uint_nonnil.
Qed.

Lemma read_unsigned_show n tl :
  size_range n ->
  read_unsigned (bytes " " ++ show_size n ++ x0a :: tl) = Ok (n, x0a :: tl).
Proof.
  intros Hn. unfold read_unsigned, show_size.
  change (bytes " " ++ ?x) with (" "%byte :: x). cbn [skip_ws].
  change (is_space " ") with true. cbv iota.
  rewrite skip_ws_uint by apply to_uint_nonnil.
  rewrite read_digits_uint by apply digit_of_byte_nl.
  rewrite DecimalN.Unsigned.of_to.
  unfold size_range in Hn. rewrite Z2N.id by lia.
  destruct (N.to_uint (Z.to_N n)) eqn:E;
    try (destruct (n <=? SIZE_MAX) eqn:E'; [done | apply Z.leb_gt in E'; lia]).
  by apply to_uint_nonnil in E.
Qed.

Lemma map_get_seq {A} (f : Z -> A) (l : list Z) :
  map (fun i => f (get l i)) (seq 0 (length l)) = map f l.
Proof.
  induction l as [|x l IH]; [done|].
  cbn [length seq map]. rewrite <- seq_shift, map_map. f_equal. exact IH.
Qed.

Lemma wrap_int_to_size_t v : int_range v -> wrap_int (to_size_t v) = v.
Proof.
  unfold int_range, INT_MIN, INT_MAX, wrap_int, to_size_t. intros Hv.
  destruct (Z_lt_le_dec v 0) as [Hneg|Hpos].
  - replace (v mod 2 ^ 64) with (v + 2 ^ 64)
      by (apply (Z.mod_unique v (2 ^ 64) (-1)); lia).
    replace ((v + 2 ^ 64 + 2 ^ 31) mod 2 ^ 32) with (v + 2 ^ 31); [lia|].
    apply (Z.mod_unique _ _ (2 ^ 32)); lia.
  - rewrite (Z.mod_small v) by lia. rewrite Z.mod_small by lia. lia.
Qed.

Lemma read_n_bytes (l : list byte) rest :
  read_n (length l) read_byte (l ++ rest) = Ok (l, rest).
Proof.
  induction l as [|b l IH]; [done|].
  cbn [length read_n app]. unfold mbind at 1, reader_bind, rbind. cbn [read_byte].
  erewrite rbind_ok by apply IH. done.
Qed.

Lemma read_n_written {A} (P : A -> Prop) (r : reader A) (w : A -> list byte) l rest :
  (forall a s, P a -> r (w a ++ s) = Ok (a, s)) -> Forall P l ->
  read_n (length l) r (concat (map w l) ++ rest) = Ok (l, rest).
Proof.
  intros Hr. induction 1 as [|v l Hv _ IH]; [done|].
  cbn [length read_n map concat]. rewrite <- app_assoc.
  erewrite rbind_ok by (by apply Hr).
  erewrite rbind_ok by apply IH. done.
Qed.

Lemma read_int_write v rest :
  int_range v -> Potential.read_int (writeInteger v ++ rest) = Ok (v, rest).
Proof.
  intros Hv. unfold Potential.read_int.
  erewrite rbind_ok by apply readInteger_write.
  unfold mret, reader_ret, rret. by rewrite wrap_int_to_size_t.
Qed.

Lemma read_n_ints l rest :
  Forall int_range l ->
  read_n (length l) Potential.read_int (concat (map writeInteger l) ++ rest)
  = Ok (l, rest).
Proof. apply read_n_written. intros a s. apply read_int_write. Qed.

Lemma unsigned_loop_count_ok n s :
  0 <= n < 2 ^ 32 -> unsigned_loop_count n s = Ok (Z.to_nat n, s).
Proof.
  intros Hn. unfold unsigned_loop_count.
  destruct (n <? 2 ^ 32) eqn:E; [done|]. apply Z.ltb_ge in E. lia.
Qed.

Section PotentialRoundTrip.
Import Potential.
Variable show_double : float64 -> list byte.

Lemma overwrite_tail2_cons x b s :
  (2 <= length b)%nat -> overwrite_tail2 (x :: b) s = x :: overwrite_tail2 b s.
Proof.
  intros Hb. unfold overwrite_tail2. cbn [length].
  replace (S (length b) - 2)%nat with (S (length b - 2)) by lia. done.
Qed.

Lemma human_info_head p : exists tl, human_info show_double p = x0a :: tl.
Proof.
  unfold human_info, nl. rewrite <- !app_assoc.
  change ([x0a] ++ ?x) with (x0a :: x).
  rewrite overwrite_tail2_cons by (rewrite length_app; simpl; lia).
  rewrite <- !app_comm_cons.
  rewrite overwrite_tail2_cons.
  - by eexists.
  - unfold overwrite_tail2. rewrite !length_app. simpl. lia.
Qed.

Lemma with_data_id p : with_data p (mData p) = p.
Proof. by destruct p. Qed.

Lemma read_grids_written D todo :
  forall pot rest,
    mDimension pot = D ->
    Forall (wf_entry D) todo -> sorted_keys todo ->
    Forall (fun a => Forall (fun t => key_lt (fst a) (fst t) = true) todo) (mData pot) ->
    read_grids D (length todo) pot (concat (map (write_record D) todo) ++ rest)
    = Ok (with_data pot (mData pot ++ map identity_mode todo), rest).
Proof.
  induction todo as [|[[kn kd] g] todo IH]; intros pot rest HD Hwf Hs Hacc.
  - simpl. by rewrite app_nil_r, with_data_id.
  - apply Forall_cons in Hwf as [(Hn & Hl & Hr & Hg & Hgd) Hwf].
    destruct Hs as [Hk Hs]. simpl in Hn, Hl, Hr, Hg, Hgd, Hk.
    cbn [length read_grids map concat]. unfold write_record at 1.
    cbn [fst snd name derivations]. rewrite <- !app_assoc.
    erewrite rbind_ok by apply readInteger_write.
    rewrite to_size_t_id by (unfold size_range, SIZE_MAX; lia).
    erewrite rbind_ok by (apply unsigned_loop_count_ok; lia).
    rewrite Nat2Z.id. erewrite rbind_ok by apply read_n_bytes.
    rewrite <- Hl at 1 2. rewrite map_get_seq.
    erewrite rbind_ok by (by apply read_n_ints).
    erewrite rbind_ok by (by apply load_dump).
    unfold Grid.getDimension in Hgd.
    rewrite setDerivative_ok by (unfold Grid.getDimension; simpl; congruence).
    unfold mbind at 1, reader_bind, rbind, rlift.
    rewrite map_assign_snoc.
    2:{ eapply Forall_impl; [exact Hacc|]. intros a Ha.
        by apply Forall_cons in Ha as [Ha _]. }
    rewrite IH; simpl; try done.
    + unfold with_data, identity_mode. simpl. by rewrite <- app_assoc.
    + apply Forall_app. split.
      * eapply Forall_impl; [exact Hacc|]. intros a Ha.
        by apply Forall_cons in Ha as [_ Ha].
      * constructor; [|constructor]. done.
Qed.

Lemma map_getf_seq (l : list float64) :
  map (fun i => writeFloat (getf l i)) (seq 0 (length l)) = map writeFloat l.
Proof.
  induction l as [|x l IH]; [done|].
  cbn [length seq map]. rewrite <- seq_shift, map_map. f_equal. exact IH.
Qed.

Lemma readFromFile_writeToFile p rest :
  wf p ->
  size_range (Z.of_nat (length (human_info show_double p))) ->
  readFromFile (writeToFile show_double p ++ rest) = Ok (with_identity_grids p, rest).
Proof.
  intros (HD & Le & Ls & He & Hseed & Hver & Hcount & Hent & Hsorted) Htext.
  unfold readFromFile, writeToFile. cbv zeta.
  destruct (human_info_head p) as [tl Htl].
  rewrite <- !app_assoc.
  erewrite rbind_ok by (by apply read_bytes_app').
  rewrite decide_True by done.
  rewrite Htl at 2. rewrite <- app_comm_cons.
  erewrite rbind_ok by (by apply read_unsigned_show).
  rewrite app_comm_cons, <- Htl.
  rewrite Nat2Z.id. erewrite rbind_ok by apply read_bytes_app.
  erewrite rbind_ok by apply readInteger_write.
  rewrite to_size_t_id by (unfold size_range, SIZE_MAX; lia).
  erewrite rbind_ok by (apply unsigned_loop_count_ok; lia).
  rewrite Nat2Z.id.
  rewrite <- Ls at 1 2. rewrite map_getf_seq.
  erewrite rbind_ok by apply read_n_floats.
  rewrite <- Le at 1 2. rewrite map_get_seq.
  erewrite rbind_ok by apply read_n_integers.
  rewrite map_to_size_t_id by done.
  do 3 (erewrite rbind_ok by apply readInteger_write).
  do 2 (erewrite rbind_ok by apply readFloat_write).
  rewrite !to_size_t_id by (done || (unfold size_range, SIZE_MAX; lia)).
  erewrite rbind_ok by (apply unsigned_loop_count_ok; lia).
  rewrite Nat2Z.id.
  rewrite read_grids_written; try done.
  unfold with_identity_grids, with_data, setCreationInfo, create. simpl.
  by rewrite Le.
Qed.

End PotentialRoundTrip.



(* ===================================================================== *)
(** ** Caustic observer *)
(* ===================================================================== *)

Section CausticFacts.
Import CausticObserver.

Lemma sign_change_spec time a a_prev :
  sign_change time a a_prev = true <->
  (0 < time)%R /\ ((a * a_prev < 0)%R \/ a = 0%R).
Proof.
  unfold sign_change.
  rewrite andb_true_iff, orb_true_iff, !bool_decide_eq_true. tauto.
Qed.

Lemma watch_emits state time o :
  sign_change time (signed_area_of o state) (mOldArea o) = true ->
  mCausticPositions (fst (watch state time o))
  = mCausticPositions o ++ [new_caustic state time (signed_area_of o state) o].
Proof. intros E. unfold watch. rewrite E. by destruct (mBreakOnFirst o). Qed.

Lemma watch_silent state time o :
  sign_change time (signed_area_of o state) (mOldArea o) = false ->
  watch state time o = (update_cache state time (signed_area_of o state) o, true).
Proof. intros E. unfold watch. by rewrite E. Qed.

Lemma watch_continues state time o :
  snd (watch state time o) = true ->
  let o' := fst (watch state time o) in
  mOldArea o' = signed_area_of o state /\
  mOldPosition o' = getPosition state /\
  mOldVelocity o' = getVelocity state /\
  mOldTime o' = time /\
  mDimension o' = mDimension o /\
  mCachedInitialCondition o' = mCachedInitialCondition o /\
  mBreakOnFirst o' = mBreakOnFirst o.
Proof.
  unfold watch. destruct (sign_change _ _ _); [|done].
  by destruct (mBreakOnFirst o).
Qed.

Lemma watch_stops state time o :
  snd (watch state time o) = false ->
  mBreakOnFirst o = true /\
  sign_change time (signed_area_of o state) (mOldArea o) = true.
Proof.
  unfold watch. destruct (sign_change _ _ _); [|done].
  by destruct (mBreakOnFirst o).
Qed.

(** The caustics of a trajectory watched to its end: one for every step
    whose test succeeds against the area of the step before (0 for the
    first step). *)
Lemma watch_steps_count steps :
  forall o,
    mBreakOnFirst o = false ->
    length (mCausticPositions (watch_steps steps o))
    = (length (mCausticPositions o)
       + length (filter (fun sa => sign_change (snd (fst sa))
                                               (signed_area_of o (fst (fst sa)))
                                               (snd sa) = true)
                        (zip steps (previous_areas o (mOldArea o) steps))))%nat.
Proof.
  induction steps as [|[state time] steps IH]; intros o Hb; [simpl; lia|].
  cbn [watch_steps previous_areas zip zip_with].
  pose proof (watch_continues state time o) as Hc.
  destruct (watch state time o) as [o' w] eqn:Ew. cbn [fst snd] in Hc.
  destruct w.
  - destruct (Hc eq_refl) as (Ha & _ & _ & _ & Hd & Hi & Hbo).
    rewrite IH by congruence. rewrite Ha.
    assert (Hsame : forall s, signed_area_of o' s = signed_area_of o s).
    { intros s. unfold signed_area_of. by rewrite Hd, Hi. }
    assert (Hprev : forall a l, previous_areas o' a l = previous_areas o a l).
    { intros a l. revert a. induction l as [|[s ?] l IHl]; intros a; [done|].
      simpl. by rewrite Hsame, IHl. }
    rewrite Hprev.
    assert (Hf : forall l : list (State * R * R),
               filter (fun sa => sign_change (snd (fst sa))
                                   (signed_area_of o' (fst (fst sa))) (snd sa) = true) l
               = filter (fun sa => sign_change (snd (fst sa))
                                   (signed_area_of o (fst (fst sa))) (snd sa) = true) l).
    { intros l. apply list_filter_iff. intros x. by rewrite Hsame. }
    rewrite Hf. rewrite filter_cons. cbn [fst snd].
    destruct (sign_change time (signed_area_of o state) (mOldArea o)) eqn:E.
    + pose proof (watch_emits state time o E) as He. rewrite Ew in He. simpl in He.
      rewrite He, length_app.
      destruct (decide (true = true)) as [_|Hn]; [|done]. simpl. lia.
    + rewrite watch_silent in Ew by done. inversion Ew; subst o'. simpl.
      destruct (decide (false = true)) as [Hn|_]; [done|]. lia.
  - pose proof (watch_stops state time o) as Hs. rewrite Ew in Hs.
    destruct (Hs eq_refl) as [Hs' _]. congruence.
Qed.

Lemma interpolate_vec_at_Num (a b : gen_vect) (p : R) :
  interpolate_linear_1d_vec_at a b (Num p) = map Num (interpolate_linear_1d_vec a b p).
Proof.
  unfold interpolate_linear_1d_vec. revert b.
  induction a as [|x a IH]; intros [|y b]; try done.
  cbn. by rewrite IH.
Qed.

Lemma interpolate_vec_at_NaN (a b : gen_vect) :
  Forall (fun x => x = NaN) (interpolate_linear_1d_vec_at a b NaN).
Proof.
  revert b. induction a as [|x a IH]; intros [|y b]; cbn; try constructor; [done|].
  apply IH.
Qed.

(** C2 (as the code has it). With [A_prev] the area cached from the step
    before (0 after [startTrajectory]) and [A_cur] the area of the
    current step, [watch] appends a caustic record exactly when [t > 0]
    and ([A_cur * A_prev < 0] or [A_cur = 0]).  When the two areas
    differ, the record's position, velocity and time are
    [interpolate_linear_1d] between the cached and the current values at
    [alpha = - A_prev / (A_cur - A_prev)]; when they are equal, both are
    0, [alpha] is [0 / 0], and the time and every entry of the position
    and the velocity of the record are NaN.  A call that returns [true]
    caches the area, position, velocity and time of its step. *)
Theorem caustic_watch_sign_change (o : CausticObserver.t) (state : State) (time : R) :
  let A_cur := signed_area_of o state in
  let A_prev := mOldArea o in
  let alpha := (- A_prev / (A_cur - A_prev))%R in
  let o' := fst (watch state time o) in
  ((0 < time)%R /\ ((A_cur * A_prev < 0)%R \/ A_cur = 0%R) ->
     exists c, mCausticPositions o' = mCausticPositions o ++ [c] /\
       (A_cur <> A_prev ->
          mCausticPosition c
          = map Num (interpolate_linear_1d_vec (mOldPosition o) (getPosition state) alpha) /\
          mCausticVelocity c
          = map Num (interpolate_linear_1d_vec (mOldVelocity o) (getVelocity state) alpha) /\
          mTime c = Num (interpolate_linear_1d (mOldTime o) time alpha)) /\
       (A_cur = A_prev ->
          A_cur = 0%R /\ A_prev = 0%R /\
          Forall (fun x => x = NaN) (mCausticPosition c) /\
          Forall (fun x => x = NaN) (mCausticVelocity c) /\
          mTime c = NaN))
  /\ (~ ((0 < time)%R /\ ((A_cur * A_prev < 0)%R \/ A_cur = 0%R)) ->
      mCausticPositions o' = mCausticPositions o)
  /\ (snd (watch state time o) = true ->
      mOldArea o' = A_cur /\ mOldPosition o' = getPosition state /\
      mOldVelocity o' = getVelocity state /\ mOldTime o' = time)
  /\ (forall start id, mOldArea (startTrajectory start id o) = 0%R).
Proof.
  cbv zeta. split; [|split; [|split]].
  - intros Hc. pose proof Hc as [Ht Ha]. apply sign_change_spec in Hc.
    eexists. split; [by apply watch_emits|]. split.
    + intros Hne. unfold new_caustic. cbn [mCausticPosition mCausticVelocity mTime].
      unfold ddiv. rewrite decide_False by lra.
      by rewrite !interpolate_vec_at_Num.
    + intros He.
      assert (H0 : signed_area_of o state = 0%R).
      { destruct Ha as [Ha|Ha]; [|done]. rewrite He in Ha. nra. }
      assert (H1 : mOldArea o = 0%R) by congruence.
      split; [done|]. split; [done|].
      unfold new_caustic. cbn [mCausticPosition mCausticVelocity mTime].
      unfold ddiv. rewrite decide_True by lra. rewrite decide_True by lra.
      split; [apply interpolate_vec_at_NaN|]. split; [apply interpolate_vec_at_NaN|done].
  - intros Hc. rewrite <- sign_change_spec in Hc.
    apply not_true_is_false in Hc. by rewrite watch_silent.
  - intros Hw. by destruct (watch_continues state time o Hw) as (? & ? & ? & ? & _).
  - done.
Qed.

(** C2, counterexample: area 0 at the step before (here: the start of the
    trajectory), area 1 at time 1.  [t > 0] and [A_cur * A_prev <= 0]
    hold, and no caustic is recorded. *)
Lemma caustic_not_emitted_after_zero_area :
  let ic := (MkIC (MkState 2 [0; 0] [0; 1] unit_matrix4)
                  [MkState 2 [1; 0] [0; 0] unit_matrix4])%R in
  let state := (MkState 2 [0; 1] [0; 1] unit_matrix4)%R in
  let junk := (MkIndeterminate (1, 2, 3) (4, 5, 6) 7)%R in
  exists o,
    create 2 false junk = Ok o /\
    let o1 := startTrajectory ic 1 o in
    (0 < 1)%R /\
    (signed_area_of o1 state * mOldArea o1 <= 0)%R /\
    mCausticPositions (fst (watch state 1%R o1)) = [].
Proof.
  intros ic state junk. eexists. split; [reflexivity|].
  cbv zeta.
  assert (Ha : signed_area_of
                 (startTrajectory ic 1
                    (Build false 2 0 0 0%R (vector3 (old_position junk))
                           (vector3 (old_velocity junk)) (old_time junk)
                           (MkIC null_state []) [])) state = 1%R).
  { unfold signed_area_of, getSignedArea2D. simpl.
    repeat (unfold getR; simpl). lra. }
  split; [lra|]. split.
  - rewrite Ha. simpl. lra.
  - rewrite watch_silent; [done|].
    rewrite Ha. simpl. unfold sign_change.
    rewrite (bool_decide_eq_false_2 (1 * 0 < 0)%R) by lra.
    rewrite (bool_decide_eq_false_2 (1 = 0)%R) by lra.
    by rewrite andb_false_r.
Qed.

End CausticFacts.

Lemma caustic_watch_sign_change_witness :
  let ic := (MkIC (MkState 2 [0; 0] [0; 1] unit_matrix4)
                  [MkState 2 [1; 0] [0; 0] unit_matrix4])%R in
  let o := (CausticObserver.Build false 2 0 1 1 [0; 1] [0; 1] 1 ic [])%R in
  let state := (MkState 2 [0; 2] [0; -1] unit_matrix4)%R in
  exists c,
    CausticObserver.mCausticPositions (fst (CausticObserver.watch state 2%R o)) = [c] /\
    CausticObserver.mCausticPosition c = [Num 0; Num (3 / 2)] /\
    CausticObserver.mCausticVelocity c = [Num 0; Num 0] /\
    CausticObserver.mTime c = Num (3 / 2).
Proof.
  intros ic o state.
  assert (Ha : CausticObserver.signed_area_of o state = (-1)%R).
  { unfold CausticObserver.signed_area_of, CausticObserver.getSignedArea2D. simpl.
    repeat (unfold getR; simpl). lra. }
  destruct (proj1 (caustic_watch_sign_change o state 2%R)) as (c & Hc & Hne & _).
  { split; [lra|]. left. rewrite Ha. cbn. lra. }
  destruct Hne as (Hp & Hv & Ht).
  { rewrite Ha. cbn. lra. }
  exists c. split; [exact Hc|].
  rewrite Hp, Hv, Ht, Ha. cbn.
  unfold interpolate_linear_1d.
  repeat split; repeat f_equal; lra.
Defined.

(* ===================================================================== *)
(** ** Particle dynamics: energy normalisation *)
(* ===================================================================== *)

Section DynamicsFacts.
Import ParticleInPotentialDynamics.
Local Open Scope R_scope.

Lemma getR_cons_0 x (a : list R) : getR (x :: a) 0 = x.
Proof. reflexivity. Qed.

Lemma getR_cons_S x (a : list R) i : getR (x :: a) (S i) = getR a i.
Proof. reflexivity. Qed.

Lemma inner_product_vscale (a : list R) c init :
  inner_product (vscale a c) (vscale a c) (c * c * init)
  = c * c * inner_product a a init.
Proof.
  revert init. induction a as [|x a IH]; intros init; [done|].
  cbn [vscale map inner_product tl]. rewrite !getR_cons_0.
  fold (vscale a c). rewrite <- IH. f_equal. ring.
Qed.

Lemma fold_left_seq_shift {A} (f : A -> nat -> A) n init :
  fold_left f (seq 1 n) init = fold_left (fun a i => f a (S i)) (seq 0 n) init.
Proof.
  rewrite <- seq_shift. revert init.
  induction (seq 0 n) as [|i l IH]; intros init; [done|]. simpl. apply IH.
Qed.

Lemma velocity_square_inner (v : list R) init :
  fold_left (fun len i => len + getR v i * getR v i) (seq 0 (length v)) init
  = inner_product v v init.
Proof.
  revert init. induction v as [|x v IH]; intros init; [done|].
  cbn [length seq fold_left inner_product tl]. rewrite fold_left_seq_shift.
  rewrite !getR_cons_0, <- IH. done.
Qed.

Lemma inner_product_scaled_energy (v : list R) vi len :
  0 < len * len -> len * len = inner_product v v 0 ->
  inner_product (vscale v (vi / len)) (vscale v (vi / len)) 0 = vi * vi.
Proof.
  intros Hpos Hlen.
  replace 0 with ((vi / len) * (vi / len) * 0) at 1 by ring.
  rewrite inner_product_vscale, <- Hlen. field. intros ->. lra.
Qed.

Lemma zero_grid_inter D n (grid : DynamicGrid R) base v :
  Forall (fun x => x = 0) (mData grid) -> inter D n grid base v = 0.
Proof.
  intros Hz. revert base. induction n as [|n IH]; intros base.
  - cbn [inter]. unfold cell.
    destruct (mData grid !! _) as [x|] eqn:E; simpl; [|done].
    by eapply (Forall_lookup_1 _ _ _ _ Hz) in E.
  - cbn [inter]. rewrite !IH. unfold interpolate_linear_1d. ring.
Qed.

Lemma zero_grid_interpolate (grid : DynamicGrid R) v :
  Forall (fun x => x = 0) (mData grid) -> linearInterpolate grid v = 0.
Proof.
  intros Hz. unfold linearInterpolate, linearInterpolateF. case_decide; [|done].
  case_decide; [|done]. by apply zero_grid_inter.
Qed.

Lemma normalizeEnergy_throws d state total_energy :
  normalizeEnergy d state total_energy = Throw runtime_error
  <-> total_energy < potential_energy d state.
Proof.
  unfold normalizeEnergy. case_bool_decide as Hd; split; try done; lra.
Qed.

Lemma normalizeEnergy_returns d state total_energy :
  potential_energy d state <= total_energy ->
  normalizeEnergy d state total_energy
  = Ok (MkState (state_dimension state) (mPosition state)
          (vscale (mVelocity state)
             (sqrt (2 * (total_energy - potential_energy d state))
              / sqrt (velocity_square d state)))
          (mMatrix state)).
Proof.
  intros Hle. unfold normalizeEnergy. by rewrite bool_decide_eq_false_2 by lra.
Qed.

(** C4 (as the code has it). [normalizeEnergy] throws exactly when the
    interpolated potential energy at the scaled position is strictly
    above the total energy (the state is then untouched: nothing is
    written before the test).  Otherwise it returns, and when the
    velocity has one entry per axis and is not the zero vector, the
    position is unchanged and the kinetic plus potential energy of the
    new state is the total energy. *)
Theorem normalizeEnergy_threshold (d : ParticleInPotentialDynamics.t)
        (state : State) (total_energy : R) :
  (normalizeEnergy d state total_energy = Throw runtime_error
   <-> total_energy < potential_energy d state)
  /\ (potential_energy d state <= total_energy ->
      exists state', normalizeEnergy d state total_energy = Ok state' /\
                     getPosition state' = getPosition state)
  /\ (potential_energy d state <= total_energy ->
      length (getVelocity state) = mDimension d ->
      0 < velocity_square d state ->
      forall state', normalizeEnergy d state total_energy = Ok state' ->
        0.5 * inner_product (getVelocity state') (getVelocity state') 0
        + potential_energy d state' = total_energy
        /\ getEnergy d state' = total_energy).
Proof.
  split; [apply normalizeEnergy_throws|]. split.
  - intros Hle. eexists. split; [by apply normalizeEnergy_returns|]. done.
  - intros Hle Hlen Hpos state' E.
    rewrite normalizeEnergy_returns in E by done. inversion E; subst state'; clear E.
    unfold getEnergy, potential_energy, scaled_position, getVelocity, getPosition.
    cbn [mVelocity mPosition].
    fold (getPosition state). fold (scaled_position d state).
    fold (potential_energy d state).
    assert (Hsq : velocity_square d state
                  = inner_product (mVelocity state) (mVelocity state) 0).
    { unfold velocity_square, getVelocity in *. rewrite <- Hlen.
      apply velocity_square_inner. }
    rewrite inner_product_scaled_energy.
    + rewrite sqrt_sqrt by lra. split; lra.
    + rewrite sqrt_sqrt by lra. done.
    + rewrite sqrt_sqrt by lra. done.
Qed.

(** A dynamics over an all-zero potential on a periodic grid of 2 cells. *)
Lemma zero_dynamics_energy state :
  potential_energy
    (Build 1 true false [2] [2%Z] (MkGrid [0; 0] 1 [2%Z] PERIODIC) [] []) state = 0.
Proof.
  unfold potential_energy. apply zero_grid_interpolate. simpl.
  by repeat constructor.
Qed.

Lemma normalizeEnergy_threshold_witness :
  let d := Build 1 true false [2] [2%Z] (MkGrid [0; 0] 1 [2%Z] PERIODIC) [] [] in
  let state := MkState 1 [0] [3] [] in
  exists state', normalizeEnergy d state 2 = Ok state' /\ getEnergy d state' = 2.
Proof.
  intros d state.
  assert (Hle : potential_energy d state <= 2) by (unfold d; rewrite zero_dynamics_energy; lra).
  destruct (proj1 (proj2 (normalizeEnergy_threshold d state 2)) Hle) as (state' & E & _).
  exists state'. split; [exact E|].
  apply (proj2 (proj2 (normalizeEnergy_threshold d state 2))); try done.
  unfold velocity_square. simpl. rewrite !getR_cons_0. lra.
Defined.

(** C4, counterexample.  (1) With potential energy equal to the total
    energy (both 0) the claim [Phi(p) >= E_tot] holds and [normalizeEnergy]
    returns.  (2) For a state at rest it returns a state whose energy is
    not the total energy. *)
Lemma normalizeEnergy_returns_at_equal_energy :
  let d := Build 1 true false [2] [2%Z] (MkGrid [0; 0] 1 [2%Z] PERIODIC) [] [] in
  (potential_energy d (MkState 1 [0] [1] []) >= 0 /\
   exists state', normalizeEnergy d (MkState 1 [0] [1] []) 0 = Ok state')
  /\ (exists state', normalizeEnergy d (MkState 1 [0] [0] []) 2 = Ok state' /\
                     getEnergy d state' <> 2).
Proof.
  intros d. split.
  - unfold d. rewrite zero_dynamics_energy. split; [lra|].
    eexists. apply normalizeEnergy_returns. rewrite zero_dynamics_energy. lra.
  - eexists. split.
    + apply normalizeEnergy_returns. unfold d. rewrite zero_dynamics_energy. lra.
    + unfold getEnergy, d. rewrite zero_dynamics_energy.
      unfold getVelocity. cbn [mVelocity vscale map inner_product tl].
      rewrite !getR_cons_0. lra.
Qed.

End DynamicsFacts.

(* ===================================================================== *)
(** ** Radial initial condition *)
(* ===================================================================== *)

Section RadialFacts.
Import RadialWave2D.
Local Open Scope R_scope.

(** C8 (as the code has it). For every manifold coordinate [u] the
    radial-2D generator (manifold dimension 1) sets the position to the
    fixed origin and the first two velocity components to
    [(sin(2 pi u), cos(2 pi u))]; further components are left as they
    were. *)
Theorem radial2d_generate (w : RadialWave2D.t) (ray_position ray_velocity : gen_vect)
        (u : R) (Hdim : (2 <= length ray_velocity)%nat) :
  let out := generate w ray_position ray_velocity [u] in
  fst out = getOrigin w
  /\ getR (snd out) 0 = sin (2 * PI * u)
  /\ getR (snd out) 1 = cos (2 * PI * u)
  /\ length (snd out) = length ray_velocity
  /\ (forall i, (2 <= i)%nat -> getR (snd out) i = getR ray_velocity i).
Proof.
  cbv zeta. unfold generate. cbn [fst snd]. rewrite getR_cons_0.
  replace (u * 2 * PI) with (2 * PI * u) by ring.
  split; [done|]. unfold getR.
  split.
  { rewrite list_lookup_insert_ne by done.
    rewrite list_lookup_insert_eq by lia. done. }
  split.
  { rewrite list_lookup_insert_eq by (rewrite length_insert; lia). done. }
  split; [by rewrite !length_insert|].
  intros i Hi. by rewrite !list_lookup_insert_ne by lia.
Qed.

Lemma radial2d_generate_witness :
  exists w, create 2 = Ok w /\
    let out := generate w [0; 0] [0; 0] [/ 4] in
    fst out = [0.5; 0.5] /\
    getR (snd out) 0 = sin (2 * PI * / 4) /\
    getR (snd out) 1 = cos (2 * PI * / 4).
Proof.
  eexists. split; [reflexivity|].
  destruct (radial2d_generate (Build 2 [0.5; 0.5]) [0; 0] [0; 0] (/ 4))
    as (Hp & H0 & H1 & _); [simpl; lia|].
  cbv zeta. split; [exact Hp|]. split; [exact H0 | exact H1].
Defined.

(** C8, counterexample: at [u = 0] the generated velocity is (0, 1), not
    (cos 0, sin 0) = (1, 0). *)
Lemma radial2d_velocity_is_sin_cos :
  snd (generate (Build 2 [0.5; 0.5]) [0; 0] [0; 0] [0]) = [0; 1]
  /\ [cos (2 * PI * 0); sin (2 * PI * 0)] = [1; 0]
  /\ snd (generate (Build 2 [0.5; 0.5]) [0; 0] [0; 0] [0])
     <> [cos (2 * PI * 0); sin (2 * PI * 0)].
Proof.
  assert (H1 : snd (generate (Build 2 [0.5; 0.5]) [0; 0] [0; 0] [0]) = [0; 1]).
  { unfold generate. cbn [snd]. rewrite getR_cons_0.
    replace (0 * 2 * PI) with 0 by ring. rewrite sin_0, cos_0. reflexivity. }
  assert (H2 : [cos (2 * PI * 0); sin (2 * PI * 0)] = [1; 0]).
  { replace (2 * PI * 0) with 0 by ring. by rewrite sin_0, cos_0. }
  split; [exact H1|]. split; [exact H2|].
  rewrite H1, H2. intros E. inversion E. lra.
Qed.

End RadialFacts.

(* ===================================================================== *)
(** ** Phase randomisation *)
(* ===================================================================== *)

Section RandomizeFacts.
Import Randomize.

(** C5: what the code does at a self-conjugate index.  The cell is
    multiplied by [self_conjugate_sign] of the next draw; the draw is
    uniform on [[draw_lower, draw_upper) = [0, 2 pi)] and the sign is +1
    exactly for the draws below 1/2.  The draws giving +1 fill the share
    (1/2) / (2 pi) of the range, which is below 1/12 and not 1/2: for
    instance the draws 1 and 4, one in each half of the range, both give
    -1. *)
Theorem self_conjugate_sign_threshold :
  (forall DIM rnd index grid drawn,
      getOffsetOf grid (MultiIndex.mCurrentPos index)
      = getOffsetOf grid (inverted_index DIM index) ->
      phase_step DIM rnd index (grid, drawn)
      = (set_cell grid (getOffsetOf grid (MultiIndex.mCurrentPos index))
                  (cscale (cell grid (getOffsetOf grid (MultiIndex.mCurrentPos index)))
                          (self_conjugate_sign (rnd drawn))),
         S drawn))
  /\ (forall draw, (draw_lower <= draw < draw_upper)%R ->
        (self_conjugate_sign draw = 1%R <-> (draw < 1 / 2)%R) /\
        (self_conjugate_sign draw = (-1)%R <-> (1 / 2 <= draw)%R))
  /\ (draw_lower < 1 / 2 < draw_upper)%R
  /\ ((1 / 2 - draw_lower) / (draw_upper - draw_lower) < 1 / 12)%R
  /\ (draw_lower <= 1 < draw_upper / 2)%R /\ self_conjugate_sign 1 = (-1)%R
  /\ (draw_upper / 2 <= 4 < draw_upper)%R /\ self_conjugate_sign 4 = (-1)%R.
Proof.
  assert (Hpi : (3 < PI)%R) by (pose proof PI2_3_2; lra).
  pose proof PI_4 as Hpi4.
  unfold draw_lower, draw_upper.
  split.
  { intros DIM rnd index grid drawn E. unfold phase_step. rewrite <- E.
    rewrite Z.ltb_irrefl, Z.eqb_refl. done. }
  split.
  { intros draw Hd. unfold self_conjugate_sign.
    case_bool_decide; split; split; intros; try lra. }
  split; [lra|]. split.
  { replace ((1 / 2 - 0) / (2 * PI - 0))%R with (/ (4 * PI))%R by (field; lra).
    replace (1 / 12)%R with (/ 12)%R by lra.
    apply Rinv_lt_contravar; lra. }
  split; [lra|]. split.
  { unfold self_conjugate_sign. rewrite bool_decide_eq_false_2 by lra. done. }
  split; [lra|].
  unfold self_conjugate_sign. rewrite bool_decide_eq_false_2 by lra. done.
Qed.

(** *** Offsets of FFT-centred indices *)

Lemma FFTIndexFn_S k index extends :
  FFTIndexFn (S k) index extends
  = to_size_t (FFTIndexFn k index extends * get extends k
               + fft_coord (get extends k) (get index k)).
Proof.
  unfold FFTIndexFn. rewrite seq_S, fold_left_app. reflexivity.
Qed.

Lemma cells_upto_S k extents :
  cells_upto (S k) extents = cells_upto k extents * get extents k.
Proof.
  unfold cells_upto. rewrite seq_S, fold_left_app. reflexivity.
Qed.

Lemma cells_upto_pos k extents index :
  coords_in_range k extents index -> 0 < cells_upto k extents.
Proof.
  induction k as [|k IH]; intros Hc; [done|].
  rewrite cells_upto_S. specialize (Hc k ltac:(lia)) as Hk.
  assert (0 < cells_upto k extents) by (apply IH; intros i Hi; apply Hc; lia).
  nia.
Qed.

Lemma cells_upto_mono k extents index :
  coords_in_range (S k) extents index -> cells_upto k extents <= cells_upto (S k) extents.
Proof.
  intros Hc. rewrite cells_upto_S. specialize (Hc k ltac:(lia)) as Hk.
  assert (0 < cells_upto k extents)
    by (apply (cells_upto_pos k extents index); intros i Hi; apply Hc; lia).
  nia.
Qed.

Lemma FFTIndexFn_bound k extents index :
  coords_in_range k extents index -> cells_upto k extents <= SIZE_MAX ->
  0 <= FFTIndexFn k index extents < cells_upto k extents.
Proof.
  induction k as [|k IH]; intros Hc Hmax; [done|].
  pose proof (cells_upto_mono k extents index Hc) as Hmono.
  specialize (Hc k ltac:(lia)) as Hk.
  assert (IHk : 0 <= FFTIndexFn k index extents < cells_upto k extents).
  { apply IH; [intros i Hi; apply Hc; lia | lia]. }
  rewrite FFTIndexFn_S, cells_upto_S in *.
  rewrite to_size_t_id; [nia|]. unfold size_range. nia.
Qed.

Lemma FFTIndexFn_inj k extents index index' :
  coords_in_range k extents index -> coords_in_range k extents index' ->
  cells_upto k extents <= SIZE_MAX ->
  FFTIndexFn k index extents = FFTIndexFn k index' extents ->
  forall i, (i < k)%nat ->
    fft_coord (get extents i) (get index i) = fft_coord (get extents i) (get index' i).
Proof.
  induction k as [|k IH]; intros Hc Hc' Hmax E i Hi; [lia|].
  pose proof (cells_upto_mono k extents index Hc) as Hmono.
  assert (Hck : coords_in_range k extents index) by (intros j Hj; apply Hc; lia).
  assert (Hck' : coords_in_range k extents index') by (intros j Hj; apply Hc'; lia).
  pose proof (FFTIndexFn_bound k extents index Hck ltac:(lia)) as Hb.
  pose proof (FFTIndexFn_bound k extents index' Hck' ltac:(lia)) as Hb'.
  specialize (Hc k ltac:(lia)) as Hk. specialize (Hc' k ltac:(lia)) as Hk'.
  rewrite !FFTIndexFn_S in E. rewrite cells_upto_S in Hmax, Hmono.
  rewrite !to_size_t_id in E by (unfold size_range; nia).
  assert (Hoff : FFTIndexFn k index extents = FFTIndexFn k index' extents) by nia.
  destruct (decide (i = k)) as [->|Hne]; [rewrite Hoff in E; lia|].
  apply IH; try done; lia.
Qed.

Lemma FFTIndexFn_congr k extents index index' :
  (forall i, (i < k)%nat ->
     fft_coord (get extents i) (get index i) = fft_coord (get extents i) (get index' i)) ->
  FFTIndexFn k index extents = FFTIndexFn k index' extents.
Proof.
  induction k as [|k IH]; intros Hc; [done|].
  rewrite !FFTIndexFn_S, IH, Hc by (try lia; intros; apply Hc; lia). done.
Qed.

(** *** Coordinates of the negated index *)

Lemma fft_coord_range e x :
  0 < e -> e mod 2 = 0 -> e <= SIZE_MAX -> - (e / 2) <= x < e / 2 ->
  0 <= fft_coord e x < e.
Proof.
  intros He Hev Hmax Hx. unfold fft_coord.
  assert (e = 2 * (e / 2)) by (rewrite (Z.div_mod e 2) at 1 by lia; lia).
  destruct (x <? 0) eqn:E.
  - apply Z.ltb_lt in E. rewrite to_size_t_id by (unfold size_range; lia). lia.
  - apply Z.ltb_ge in E. lia.
Qed.

Lemma fft_coord_neg e x :
  0 < e -> e mod 2 = 0 -> e <= SIZE_MAX -> - (e / 2) <= x < e / 2 ->
  fft_coord e (- x) = conj_coord e (fft_coord e x).
Proof.
  intros He Hev Hmax Hx. unfold fft_coord, conj_coord.
  assert (e = 2 * (e / 2)) by (rewrite (Z.div_mod e 2) at 1 by lia; lia).
  destruct (x <? 0) eqn:E; destruct (- x <? 0) eqn:E';
    try apply Z.ltb_lt in E; try apply Z.ltb_ge in E;
    try apply Z.ltb_lt in E'; try apply Z.ltb_ge in E'; try lia.
  - rewrite to_size_t_id by (unfold size_range; lia).
    destruct (e + x =? 0) eqn:E0; [apply Z.eqb_eq in E0; lia | lia].
  - rewrite to_size_t_id by (unfold size_range; lia).
    destruct (x =? 0) eqn:E0; [apply Z.eqb_eq in E0; lia | lia].
  - destruct (x =? 0) eqn:E0; [apply Z.eqb_eq in E0; lia | apply Z.eqb_neq in E0; lia].
Qed.

Lemma conj_coord_range e s : 0 <= s < e -> 0 <= conj_coord e s < e.
Proof.
  intros Hs. unfold conj_coord.
  destruct (s =? 0) eqn:E; [lia | apply Z.eqb_neq in E; lia].
Qed.

Lemma conj_coord_involutive e s : 0 <= s < e -> conj_coord e (conj_coord e s) = s.
Proof.
  intros Hs. unfold conj_coord.
  destruct (s =? 0) eqn:E; [apply Z.eqb_eq in E; by subst|].
  apply Z.eqb_neq in E.
  destruct (e - s =? 0) eqn:E'; [apply Z.eqb_eq in E'; lia | lia].
Qed.

Lemma get_map_opp (n : list Z) i : get (map Z.opp n) i = - get n i.
Proof.
  unfold get. change (map Z.opp n) with (Z.opp <$> n). rewrite list_lookup_fmap.
  by destruct (n !! i).
Qed.

(** *** The cells of a grid built by the constructor *)

Lemma safe_product_exact_from l p n :
  0 <= p <= SIZE_MAX -> Forall (fun f => 0 <= f) l ->
  fold_left safe_product_step l (Ok p) = Ok n -> n = fold_left Z.mul l p.
Proof.
  intros Hp Hl. revert p Hp. induction Hl as [|f l Hf _ IH]; intros p Hp E.
  - simpl in E. by inversion E.
  - simpl in E. destruct (f <? 0) eqn:Ef; [by rewrite safe_product_step_throw in E|].
    destruct (negb (f =? 0) && (SIZE_MAX / f <=? p)) eqn:Eo;
      [by rewrite safe_product_step_throw in E|].
    assert (Hpf : 0 <= p * f <= SIZE_MAX).
    { split; [nia|].
      destruct (f =? 0) eqn:E0; [apply Z.eqb_eq in E0; subst; unfold SIZE_MAX; lia|].
      apply Z.eqb_neq in E0. simpl in Eo. apply Z.leb_gt in Eo.
      pose proof (Z.mul_div_le SIZE_MAX f ltac:(lia)). nia. }
    rewrite to_size_t_id in E by done. simpl. by apply IH.
Qed.

Lemma cells_upto_product_from (pre l : list Z) p :
  fold_left (fun q i => q * get (pre ++ l) i) (seq (length pre) (length l)) p
  = fold_left Z.mul l p.
Proof.
  revert pre p. induction l as [|x l IH]; intros pre p; [done|].
  cbn [length seq fold_left].
  assert (Hx : get (pre ++ x :: l) (length pre) = x).
  { unfold get. by rewrite list_lookup_middle. }
  rewrite Hx. specialize (IH (pre ++ [x]) (p * x)).
  rewrite <- app_assoc, length_app in IH. simpl in IH.
  by rewrite Nat.add_1_r in IH.
Qed.

Lemma cells_upto_product l : cells_upto (length l) l = fold_left Z.mul l 1.
Proof. apply (cells_upto_product_from [] l 1). Qed.

Lemma fft_extent_facts e :
  fft_extent e -> 0 < e /\ e mod 2 = 0 /\ e <= SIZE_MAX /\ 2 <= e /\ e <= INT_MAX.
Proof.
  intros (Hp & He & Hs). unfold INT_MAX, SIZE_MAX in *.
  assert (e = 2 * (e / 2)) by (rewrite (Z.div_mod e 2) at 1 by lia; lia).
  repeat split; lia.
Qed.

Lemma fft_grid_extent grid i :
  fft_grid grid -> (i < getDimension grid)%nat -> fft_extent (get (getExtents grid) i).
Proof.
  intros ((Hd & _) & _ & _ & He) Hi.
  unfold getDimension, getExtents, get in *.
  destruct (mExtents grid !! i) as [e|] eqn:E.
  - simpl. eapply Forall_lookup_1; eauto.
  - apply lookup_ge_None in E. lia.
Qed.

Lemma fft_grid_cells grid :
  fft_grid grid ->
  cells_upto (getDimension grid) (getExtents grid) = Z.of_nat (length (mData grid))
  /\ cells_upto (getDimension grid) (getExtents grid) <= SIZE_MAX.
Proof.
  intros ((Hd & H6 & Hr & Hp) & _ & _ & He).
  unfold getDimension, getExtents in *. rewrite Hd.
  pose proof (safe_product_range _ _ Hp) as Hn.
  apply safe_product_exact_from in Hp.
  - rewrite cells_upto_product, <- Hp. unfold size_range in Hn. lia.
  - unfold SIZE_MAX. lia.
  - eapply Forall_impl; [exact He|]. intros e (? & _). lia.
Qed.

Lemma fft_centred_coords grid n :
  fft_grid grid -> fft_centred (getExtents grid) n ->
  coords_in_range (getDimension grid) (getExtents grid) n.
Proof.
  intros Hg Hn i Hi.
  destruct (fft_extent_facts _ (fft_grid_extent grid i Hg Hi)) as (? & ? & ? & _).
  apply fft_coord_range; try done. apply Hn.
  destruct Hg as ((Hd & _) & _). unfold getDimension, getExtents in *. lia.
Qed.

Lemma fft_centred_neg_coord grid n i :
  fft_grid grid -> fft_centred (getExtents grid) n -> (i < getDimension grid)%nat ->
  fft_coord (get (getExtents grid) i) (get (map Z.opp n) i)
  = conj_coord (get (getExtents grid) i) (fft_coord (get (getExtents grid) i) (get n i)).
Proof.
  intros Hg Hn Hi.
  destruct (fft_extent_facts _ (fft_grid_extent grid i Hg Hi)) as (? & ? & ? & _).
  rewrite get_map_opp. apply fft_coord_neg; try done. apply Hn.
  destruct Hg as ((Hd & _) & _). unfold getDimension, getExtents in *. lia.
Qed.

Lemma fft_centred_neg_coords grid n :
  fft_grid grid -> fft_centred (getExtents grid) n ->
  coords_in_range (getDimension grid) (getExtents grid) (map Z.opp n).
Proof.
  intros Hg Hn i Hi. rewrite fft_centred_neg_coord by done.
  apply conj_coord_range. by apply fft_centred_coords.
Qed.

Lemma getOffsetOf_fft (grid : complex_grid) n :
  fft_grid grid ->
  getOffsetOf grid n = FFTIndexFn (getDimension grid) n (getExtents grid).
Proof.
  intros (_ & Hm & _). unfold getOffsetOf, getAccessMode in *. by rewrite Hm.
Qed.

Lemma offset_in_grid grid n :
  fft_grid grid -> coords_in_range (getDimension grid) (getExtents grid) n ->
  0 <= getOffsetOf grid n < Z.of_nat (length (mData grid)).
Proof.
  intros Hg Hc. rewrite getOffsetOf_fft by done.
  destruct (fft_grid_cells grid Hg) as [<- Hmax]. by apply FFTIndexFn_bound.
Qed.

(** The offsets of [n] and [-n] determine each other. *)
Lemma offsets_pairing grid m n :
  fft_grid grid ->
  fft_centred (getExtents grid) m -> fft_centred (getExtents grid) n ->
  (getOffsetOf grid m = getOffsetOf grid n ->
   getOffsetOf grid (map Z.opp m) = getOffsetOf grid (map Z.opp n))
  /\ (getOffsetOf grid m = getOffsetOf grid (map Z.opp n) ->
      getOffsetOf grid (map Z.opp m) = getOffsetOf grid n)
  /\ (getOffsetOf grid (map Z.opp m) = getOffsetOf grid (map Z.opp n) ->
      getOffsetOf grid m = getOffsetOf grid n).
Proof.
  intros Hg Hm Hn.
  destruct (fft_grid_cells grid Hg) as [_ Hmax].
  pose proof (fft_centred_coords grid m Hg Hm) as Cm.
  pose proof (fft_centred_coords grid n Hg Hn) as Cn.
  pose proof (fft_centred_neg_coords grid m Hg Hm) as Cm'.
  pose proof (fft_centred_neg_coords grid n Hg Hn) as Cn'.
  rewrite !getOffsetOf_fft by done.
  split; [|split]; intros E; apply FFTIndexFn_congr; intros i Hi.
  - rewrite !fft_centred_neg_coord by done. f_equal.
    by apply (FFTIndexFn_inj _ _ _ _ Cm Cn Hmax E).
  - rewrite fft_centred_neg_coord by done.
    rewrite (FFTIndexFn_inj _ _ _ _ Cm Cn' Hmax E i Hi).
    rewrite fft_centred_neg_coord by done.
    apply conj_coord_involutive. by apply Cn.
  - pose proof (FFTIndexFn_inj _ _ _ _ Cm' Cn' Hmax E i Hi) as Ei.
    rewrite !fft_centred_neg_coord in Ei by done.
    rewrite <- (conj_coord_involutive _ _ (Cm i Hi)).
    rewrite <- (conj_coord_involutive _ _ (Cn i Hi)). by rewrite Ei.
Qed.

(** *** Cells *)

Lemma cell_set_eq (grid : complex_grid) offset v :
  0 <= offset < Z.of_nat (length (mData grid)) -> cell (set_cell grid offset v) offset = v.
Proof.
  intros Ho. unfold cell, set_cell. cbn [mData].
  rewrite list_lookup_insert_eq by lia. done.
Qed.

Lemma cell_set_ne (grid : complex_grid) offset offset' v :
  0 <= offset -> 0 <= offset' -> offset <> offset' ->
  cell (set_cell grid offset v) offset' = cell grid offset'.
Proof.
  intros Ho Ho' Hne. unfold cell, set_cell. cbn [mData].
  rewrite list_lookup_insert_ne by lia. done.
Qed.

Lemma set_cell_fft_grid grid offset v : fft_grid grid -> fft_grid (set_cell grid offset v).
Proof.
  intros ((Hd & H6 & Hr & Hp) & Hm & H3 & He).
  unfold getDimension in *.
  repeat split; try done; try (cbn; lia).
  cbn. by rewrite length_insert.
Qed.

Lemma getOffsetOf_set_cell (grid : complex_grid) offset v n :
  getOffsetOf (set_cell grid offset v) n = getOffsetOf grid n.
Proof. reflexivity. Qed.

Lemma conj_cmul a b : conj (cmul a b) = cmul (conj a) (conj b).
Proof. unfold conj, cmul. simpl. f_equal; ring. Qed.

Lemma conj_involutive a : conj (conj a) = a.
Proof. destruct a. unfold conj. simpl. f_equal. ring. Qed.

Lemma conj_cscale a c : conj (cscale a c) = cscale (conj a) c.
Proof. unfold conj, cscale. simpl. f_equal. ring. Qed.

(** *** One round of the loop keeps the symmetry *)

Lemma get_map_seq (f : nat -> Z) k i : (i < k)%nat -> get (map f (seq 0 k)) i = f i.
Proof.
  intros Hi. unfold get. change (map f (seq 0 k)) with (f <$> seq 0 k).
  rewrite list_lookup_fmap, lookup_seq_lt by done. done.
Qed.

Lemma inverted_offset grid index :
  fft_grid grid -> fft_centred (getExtents grid) (MultiIndex.mCurrentPos index) ->
  getOffsetOf grid (inverted_index (getDimension grid) index)
  = getOffsetOf grid (map Z.opp (MultiIndex.mCurrentPos index)).
Proof.
  intros Hg Hc. rewrite !getOffsetOf_fft by done.
  apply FFTIndexFn_congr. intros i Hi.
  unfold inverted_index. rewrite get_map_seq by done. rewrite get_map_opp.
  rewrite wrap_int_id; [done|].
  destruct (fft_extent_facts _ (fft_grid_extent grid i Hg Hi)) as (? & ? & ? & ? & ?).
  assert (Hi' : (i < length (getExtents grid))%nat).
  { destruct Hg as ((Hd & _) & _). unfold getDimension, getExtents in *. lia. }
  specialize (Hc i Hi').
  pose proof (Z.div_le_upper_bound (get (getExtents grid) i) 2 (get (getExtents grid) i)
                ltac:(lia) ltac:(lia)).
  unfold int_range, INT_MIN, INT_MAX in *. lia.
Qed.

Lemma phase_step_hermitian rnd index grid drawn :
  fft_grid grid -> fft_centred (getExtents grid) (MultiIndex.mCurrentPos index) ->
  hermitian grid ->
  let grid' := fst (phase_step (getDimension grid) rnd index (grid, drawn)) in
  fft_grid grid' /\ hermitian grid' /\
  getExtents grid' = getExtents grid /\ getDimension grid' = getDimension grid.
Proof.
  intros Hg Hc Hh. cbv zeta. unfold phase_step.
  rewrite inverted_offset by done.
  set (cur := MultiIndex.mCurrentPos index) in *.
  set (o := getOffsetOf grid cur). set (i := getOffsetOf grid (map Z.opp cur)).
  pose proof (offset_in_grid grid cur Hg (fft_centred_coords grid cur Hg Hc)) as Ho.
  pose proof (offset_in_grid grid _ Hg (fft_centred_neg_coords grid cur Hg Hc)) as Hi.
  fold o in Ho. fold i in Hi.
  pose proof (Hh cur Hc) as Hcur. fold o i in Hcur.
  destruct (o <? i) eqn:Elt; [|destruct (o =? i) eqn:Eeq].
  - (* a pair of distinct cells *)
    apply Z.ltb_lt in Elt. cbn [fst].
    set (f := (cos (rnd drawn), sin (rnd drawn))).
    set (grid1 := set_cell grid o (cmul (cell grid o) f)).
    assert (H1i : cell grid1 i = cell grid i) by (apply cell_set_ne; lia).
    rewrite H1i.
    set (grid2 := set_cell grid1 i (cmul (cell grid i) (conj f))).
    assert (Hlen1 : length (mData grid1) = length (mData grid))
      by (cbn; by rewrite length_insert).
    assert (H2i : cell grid2 i = cmul (cell grid i) (conj f))
      by (apply cell_set_eq; lia).
    assert (H2o : cell grid2 o = cmul (cell grid o) f).
    { unfold grid2. rewrite cell_set_ne by lia. apply cell_set_eq. lia. }
    assert (H2x : forall x, 0 <= x -> x <> o -> x <> i -> cell grid2 x = cell grid x).
    { intros x Hx Hxo Hxi. unfold grid2. rewrite cell_set_ne by lia.
      apply cell_set_ne; lia. }
    split; [by repeat apply set_cell_fft_grid|]. split; [|done].
    intros m Hm. change (getExtents grid2) with (getExtents grid) in Hm.
    change (getOffsetOf grid2 ?x) with (getOffsetOf grid x).
    destruct (offsets_pairing grid m cur Hg Hm Hc) as (P1 & P2 & P3).
    destruct (offsets_pairing grid cur m Hg Hc Hm) as (_ & Q2 & _).
    pose proof (offset_in_grid grid m Hg (fft_centred_coords grid m Hg Hm)) as Ha.
    pose proof (offset_in_grid grid _ Hg (fft_centred_neg_coords grid m Hg Hm)) as Hb.
    fold o in P1, P2, P3, Q2. fold i in P1, P2, P3, Q2.
    destruct (decide (getOffsetOf grid m = o)) as [Eo|No].
    + rewrite Eo, (P1 Eo), H2o, H2i, conj_cmul, conj_involutive. by rewrite Hcur.
    + destruct (decide (getOffsetOf grid m = i)) as [Ei|Ni].
      * rewrite Ei, (P2 Ei), H2o, H2i, conj_cmul. by rewrite Hcur, conj_involutive.
      * assert (getOffsetOf grid (map Z.opp m) <> o)
          by (intros Eb; apply Ni; symmetry; apply Q2; by symmetry).
        assert (getOffsetOf grid (map Z.opp m) <> i) by (intros Eb; by apply No, P3).
        rewrite !H2x by lia. by apply Hh.
  - (* a self-conjugate cell *)
    apply Z.eqb_eq in Eeq. cbn [fst].
    set (grid1 := set_cell grid o _).
    assert (H1o : cell grid1 o
                  = cscale (cell grid o) (self_conjugate_sign (rnd drawn)))
      by (apply cell_set_eq; lia).
    assert (H1x : forall x, 0 <= x -> x <> o -> cell grid1 x = cell grid x)
      by (intros x Hx Hxo; apply cell_set_ne; lia).
    split; [by apply set_cell_fft_grid|]. split; [|done].
    intros m Hm. change (getExtents grid1) with (getExtents grid) in Hm.
    change (getOffsetOf grid1 ?x) with (getOffsetOf grid x).
    destruct (offsets_pairing grid m cur Hg Hm Hc) as (P1 & P2 & P3).
    pose proof (offset_in_grid grid m Hg (fft_centred_coords grid m Hg Hm)) as Ha.
    pose proof (offset_in_grid grid _ Hg (fft_centred_neg_coords grid m Hg Hm)) as Hb.
    fold o in P1, P2, P3. fold i in P1, P2, P3.
    destruct (decide (getOffsetOf grid m = o)) as [Eo|No].
    + rewrite Eo, (P1 Eo), <- Eeq, H1o, conj_cscale. f_equal.
      rewrite Hcur at 1. by rewrite <- Eeq.
    + assert (getOffsetOf grid (map Z.opp m) <> o)
        by (intros Eb; apply No, P3; by rewrite Eb, Eeq).
      rewrite !H1x by lia. by apply Hh.
  - (* handled from the other index of the pair *)
    cbn [fst]. done.
Qed.

(** *** The loop keeps the symmetry *)

Lemma index_within_centred grid index :
  fft_grid grid -> index_within grid index -> MultiIndex.valid index = true ->
  fft_centred (getExtents grid) (MultiIndex.mCurrentPos index).
Proof.
  intros ((Hd & _) & _) ([_ Hb] & HD & Hw) Hv i Hi.
  unfold getDimension, getExtents in *.
  destruct (Hb Hv i ltac:(lia)) as [Hc _]. specialize (Hw i ltac:(lia)). lia.
Qed.

Lemma index_within_incr grid index :
  index_within grid index -> index_within grid (MultiIndex.incr index).
Proof.
  intros (Hinv & HD & Hw).
  destruct (increment_from_shape (MultiIndex.mDimension index) index) as (E1 & E2 & E3 & _).
  split; [by apply increment_inv|].
  unfold MultiIndex.incr, MultiIndex.increment. rewrite E1, E2, E3. by split.
Qed.

Lemma index_within_same grid grid' index :
  getExtents grid' = getExtents grid -> getDimension grid' = getDimension grid ->
  index_within grid index -> index_within grid' index.
Proof. intros He Hd (Hinv & HD & Hw). unfold index_within. rewrite He, Hd. by split. Qed.

Lemma phase_loop_hermitian rnd fuel :
  forall index grid drawn,
    fft_grid grid -> index_within grid index -> hermitian grid ->
    let grid' := fst (fst (phase_loop fuel (getDimension grid) rnd index (grid, drawn))) in
    fft_grid grid' /\ hermitian grid' /\
    getExtents grid' = getExtents grid /\ getDimension grid' = getDimension grid.
Proof.
  induction fuel as [|fuel IH]; intros index grid drawn Hg Hw Hh; [done|].
  cbn [phase_loop]. destruct (MultiIndex.valid index) eqn:Hv; [|done].
  pose proof (index_within_centred grid index Hg Hw Hv) as Hc.
  destruct (phase_step_hermitian rnd index grid drawn Hg Hc Hh) as (Hg1 & Hh1 & He1 & Hd1).
  destruct (phase_step (getDimension grid) rnd index (grid, drawn)) as [grid1 drawn1].
  cbn [fst] in *. rewrite <- Hd1.
  destruct (IH (MultiIndex.incr index) grid1 drawn1 Hg1) as (Hg2 & Hh2 & He2 & Hd2);
    [ | done | ].
  - apply (index_within_same grid); [done | done |]. by apply index_within_incr.
  - split; [done|]. split; [done|]. split; congruence.
Qed.

(** *** The loop ends *)

Lemma box_rank_upto_S k m :
  box_rank_upto (S k) m
  = box_rank_upto k m * (get (MultiIndex.mUpperBound m) k - get (MultiIndex.mLowerBound m) k)
    + (get (MultiIndex.mCurrentPos m) k - get (MultiIndex.mLowerBound m) k).
Proof. unfold box_rank_upto. rewrite seq_S, fold_left_app. reflexivity. Qed.

Lemma box_count_upto_S k m :
  box_count_upto (S k) m
  = box_count_upto k m * (get (MultiIndex.mUpperBound m) k - get (MultiIndex.mLowerBound m) k).
Proof. unfold box_count_upto. rewrite seq_S, fold_left_app. reflexivity. Qed.

Lemma box_rank_upto_ext k m m' :
  MultiIndex.mLowerBound m' = MultiIndex.mLowerBound m ->
  MultiIndex.mUpperBound m' = MultiIndex.mUpperBound m ->
  (forall i, (i < k)%nat ->
     get (MultiIndex.mCurrentPos m') i = get (MultiIndex.mCurrentPos m) i) ->
  box_rank_upto k m' = box_rank_upto k m.
Proof.
  intros El Eu. induction k as [|k IH]; intros Ec; [done|].
  rewrite !box_rank_upto_S, IH, El, Eu, Ec by (try lia; intros; apply Ec; lia). done.
Qed.

Lemma box_count_upto_ext k m m' :
  MultiIndex.mLowerBound m' = MultiIndex.mLowerBound m ->
  MultiIndex.mUpperBound m' = MultiIndex.mUpperBound m ->
  box_count_upto k m' = box_count_upto k m.
Proof. intros El Eu. unfold box_count_upto. by rewrite El, Eu. Qed.

Lemma box_rank_upto_bound k m :
  (k <= MultiIndex.mDimension m)%nat -> MultiIndex.in_box m ->
  0 <= box_rank_upto k m < box_count_upto k m.
Proof.
  intros Hk Hb. induction k as [|k IH]; [done|].
  rewrite box_rank_upto_S, box_count_upto_S.
  destruct (Hb k ltac:(lia)) as [Hc Hl]. specialize (IH ltac:(lia)). nia.
Qed.

Lemma increment_from_rank k m :
  MultiIndex.wf m -> (k <= MultiIndex.mDimension m)%nat -> MultiIndex.in_box m ->
  MultiIndex.mIsValid (fst (MultiIndex.increment_from k m)) = true ->
  box_rank_upto k (fst (MultiIndex.increment_from k m)) = box_rank_upto k m + 1
  /\ (forall i, (k <= i)%nat ->
        get (MultiIndex.mCurrentPos (fst (MultiIndex.increment_from k m))) i
        = get (MultiIndex.mCurrentPos m) i).
Proof.
  revert m. induction k as [|k IH]; intros m Hwf Hk Hbox; [done|].
  cbn [MultiIndex.increment_from].
  destruct Hwf as (L1 & L2 & L3 & L4 & R1 & R2 & R3).
  assert (Hkl : (k < length (MultiIndex.mCurrentPos m))%nat)
    by (rewrite L3; unfold MultiIndex.MAX_MULTIINDEX_DIMENSION in *; lia).
  destruct (Hbox k ltac:(lia)) as [Hck Hlu].
  assert (Hup : int_range (get (MultiIndex.mUpperBound m) k)) by by apply get_range.
  assert (Hlo : int_range (get (MultiIndex.mLowerBound m) k)) by by apply get_range.
  rewrite wrap_int_id by (unfold int_range in *; lia).
  destruct (_ <? _) eqn:E.
  - intros _. cbn [fst]. split.
    + rewrite !box_rank_upto_S. cbn [MultiIndex.mCurrentPos MultiIndex.mLowerBound
                                      MultiIndex.mUpperBound].
      rewrite get_insert_eq by done.
      rewrite (box_rank_upto_ext k m); [lia | done | done |].
      intros i Hi. cbn. apply get_insert_ne. lia.
    + intros i Hi. cbn. apply get_insert_ne. lia.
  - apply Z.ltb_ge in E.
    set (m1 := MultiIndex.Build _ _ _ _ _).
    assert (Hwf1 : MultiIndex.wf m1).
    { repeat split; cbn; try done.
      - by rewrite length_insert.
      - by apply Forall_insert_range. }
    assert (Hbox1 : MultiIndex.in_box m1).
    { intros i Hi. cbn in *. destruct (decide (i = k)) as [->|Hne].
      - rewrite get_insert_eq by done. lia.
      - rewrite get_insert_ne by done. by apply Hbox. }
    intros Hv. destruct (IH m1 Hwf1 ltac:(cbn; lia) Hbox1 Hv) as [Hr Hc].
    destruct (increment_from_shape k m1) as (E1 & E2 & _).
    split.
    + rewrite !box_rank_upto_S, Hr, E1, E2, Hc by lia.
      cbn [m1 MultiIndex.mCurrentPos MultiIndex.mLowerBound MultiIndex.mUpperBound].
      rewrite get_insert_eq by done.
      rewrite (box_rank_upto_ext k m m1); [lia | done | done |].
      intros i Hi. cbn. apply get_insert_ne. lia.
    + intros i Hi. rewrite Hc by lia. cbn. apply get_insert_ne. lia.
Qed.

Lemma incr_rank m :
  MultiIndex.inv m -> MultiIndex.valid m = true ->
  MultiIndex.valid (MultiIndex.incr m) = true ->
  box_rank (MultiIndex.incr m) = box_rank m + 1
  /\ box_count (MultiIndex.incr m) = box_count m.
Proof.
  intros [Hwf Hb] Hv Hv'. unfold box_rank, box_count, MultiIndex.incr, MultiIndex.increment in *.
  destruct (increment_from_shape (MultiIndex.mDimension m) m) as (E1 & E2 & E3 & _).
  rewrite E3. split.
  - by apply increment_from_rank; [ | lia | apply Hb | ].
  - by apply box_count_upto_ext.
Qed.

(** After as many rounds as the box has positions the index is not
    valid any more: the bound given to [phase_loop] by
    [randomize_over_index] never cuts the C++ loop short. *)
Lemma phase_loop_exits DIM rnd fuel :
  forall index st,
    MultiIndex.inv index ->
    (MultiIndex.valid index = true -> box_count index - box_rank index <= Z.of_nat fuel) ->
    MultiIndex.valid (snd (phase_loop fuel DIM rnd index st)) = false.
Proof.
  induction fuel as [|fuel IH]; intros index st Hinv Hfuel.
  - cbn. destruct (MultiIndex.valid index) eqn:Hv; [|done].
    destruct Hinv as [Hwf Hb].
    pose proof (box_rank_upto_bound (MultiIndex.mDimension index) index
                  ltac:(lia) (Hb Hv)) as Hr.
    specialize (Hfuel eq_refl). unfold box_rank, box_count in *. lia.
  - cbn [phase_loop]. destruct (MultiIndex.valid index) eqn:Hv; [|done].
    apply IH; [by apply increment_inv|].
    intros Hv'. destruct (incr_rank index Hinv Hv Hv') as [Er Ec].
    specialize (Hfuel eq_refl). lia.
Qed.

Lemma randomize_over_index_exits DIM rnd grid index :
  MultiIndex.inv index ->
  MultiIndex.valid
    (snd (phase_loop (Z.to_nat (box_count index)) DIM rnd index (grid, 0%nat))) = false.
Proof.
  intros Hinv. apply phase_loop_exits; [done|]. intros Hv.
  destruct Hinv as [Hwf Hb].
  pose proof (box_rank_upto_bound (MultiIndex.mDimension index) index
                ltac:(lia) (Hb Hv)) as Hr.
  unfold box_rank, box_count in *. lia.
Qed.

(** *** The iteration index of a grid and its parts *)

Lemma fft_indexing_loop_ok (grid : complex_grid) k :
  fft_grid grid -> (k <= getDimension grid)%nat ->
  forall idx,
    MultiIndex.mIsValid idx = false ->
    length (MultiIndex.mLowerBound idx) = MultiIndex.MAX_MULTIINDEX_DIMENSION ->
    length (MultiIndex.mUpperBound idx) = MultiIndex.MAX_MULTIINDEX_DIMENSION ->
    Forall int_range (MultiIndex.mLowerBound idx) ->
    Forall int_range (MultiIndex.mUpperBound idx) ->
    exists idx',
      fold_left (fft_indexing_step grid) (seq 0 k) (Ok idx) = Ok idx' /\
      MultiIndex.mIsValid idx' = false /\
      length (MultiIndex.mLowerBound idx') = MultiIndex.MAX_MULTIINDEX_DIMENSION /\
      length (MultiIndex.mUpperBound idx') = MultiIndex.MAX_MULTIINDEX_DIMENSION /\
      Forall int_range (MultiIndex.mLowerBound idx') /\
      Forall int_range (MultiIndex.mUpperBound idx') /\
      MultiIndex.mCurrentPos idx' = MultiIndex.mCurrentPos idx /\
      MultiIndex.mDimension idx' = MultiIndex.mDimension idx /\
      forall i, (i < k)%nat ->
        get (MultiIndex.mLowerBound idx') i = - (get (getExtents grid) i / 2) /\
        get (MultiIndex.mUpperBound idx') i = get (getExtents grid) i / 2.
Proof.
  intros Hg. induction k as [|k IH]; intros Hk idx Hv Ll Lu Rl Ru.
  - exists idx. cbn. repeat split; try done; lia.
  - destruct (IH ltac:(lia) idx Hv Ll Lu Rl Ru)
      as (idx1 & E1 & Hv1 & Ll1 & Lu1 & Rl1 & Ru1 & Ec1 & Ed1 & Hb1).
    rewrite seq_S, fold_left_app, E1. cbn [fold_left Nat.add].
    unfold fft_indexing_step. rewrite (result_bind_ok (Ok idx1) _ idx1) by done.
    destruct (fft_extent_facts _ (fft_grid_extent grid k Hg ltac:(lia)))
      as (Hp & He & Hs & H2 & Hi).
    set (e := get (getExtents grid) k) in *.
    assert (Hh : 0 < e / 2 <= e)
      by (split; [apply Z.div_str_pos; lia | apply Z.div_le_upper_bound; lia]).
    assert (Hkm : (k < MultiIndex.MAX_MULTIINDEX_DIMENSION)%nat).
    { destruct Hg as (_ & _ & H3 & _). unfold MultiIndex.MAX_MULTIINDEX_DIMENSION. lia. }
    rewrite He. cbn [Z.eqb negb].
    rewrite (wrap_int_id (e / 2)) by (unfold int_range, INT_MIN, INT_MAX in *; lia).
    rewrite (wrap_int_id (- (e / 2))) by (unfold int_range, INT_MIN, INT_MAX in *; lia).
    rewrite (wrap_int_id e) by (unfold int_range, INT_MIN, INT_MAX in *; lia).
    rewrite Z.quot_div_nonneg by lia.
    erewrite result_bind_ok by (apply setLowerBoundAt_ok; [done | lia]).
    rewrite setUpperBoundAt_ok; [|done|cbn; lia].
    eexists. split; [reflexivity|]. cbn.
    split; [done|]. split; [by rewrite length_insert|]. split; [by rewrite length_insert|].
    split; [apply Forall_insert_range;
            [done | unfold int_range, INT_MIN, INT_MAX in *; lia]|].
    split; [apply Forall_insert_range;
            [done | unfold int_range, INT_MIN, INT_MAX in *; lia]|].
    split; [done|]. split; [done|].
    intros i Hi'. destruct (decide (i = k)) as [->|Hne].
    + rewrite !get_insert_eq by lia. done.
    + rewrite !get_insert_ne by done. apply Hb1. lia.
Qed.

Lemma fft_indexing_ok (grid : complex_grid) :
  fft_grid grid ->
  exists index,
    fft_indexing grid = Ok index /\
    MultiIndex.inv index /\ MultiIndex.mIsValid index = true /\
    MultiIndex.mDimension index = getDimension grid /\
    forall i, (i < getDimension grid)%nat ->
      get (MultiIndex.mLowerBound index) i = - (get (getExtents grid) i / 2) /\
      get (MultiIndex.mUpperBound index) i = get (getExtents grid) i / 2.
Proof.
  intros Hg. unfold fft_indexing, MultiIndex.create.
  pose proof Hg as (_ & _ & H3 & _).
  rewrite decide_False by (unfold MultiIndex.MAX_MULTIINDEX_DIMENSION; lia).
  erewrite result_bind_ok by done.
  assert (H0 : int_range 0) by (unfold int_range, INT_MIN, INT_MAX; lia).
  destruct (fft_indexing_loop_ok grid (getDimension grid) Hg ltac:(lia)
              (MultiIndex.Build (MultiIndex.fill 0) (MultiIndex.fill 0) (MultiIndex.fill 0)
                 (getDimension grid) false))
    as (idx & E & Hv & Ll & Lu & Rl & Ru & Ec & Ed & Hb);
    [done | done | done | by apply Forall_fill | by apply Forall_fill |].
  rewrite E. erewrite result_bind_ok by done.
  cbn in Ed.
  assert (Hok : MultiIndex.bounds_ok idx = true).
  { apply bounds_ok_spec. intros i Hi. rewrite Ed in Hi.
    destruct (Hb i Hi) as [-> ->].
    destruct (fft_extent_facts _ (fft_grid_extent grid i Hg Hi)) as (Hp & He & Hs & H2 & _).
    assert (0 < get (getExtents grid) i / 2) by (apply Z.div_str_pos; lia). lia. }
  unfold MultiIndex.init, MultiIndex.checkNotValid, MultiIndex.valid.
  rewrite Hv, Hok. cbn.
  eexists. split; [reflexivity|]. cbn.
  split.
  - split.
    + repeat split; try done. cbn. unfold MultiIndex.MAX_MULTIINDEX_DIMENSION. lia.
    + intros _ i Hi. pose proof (proj1 (bounds_ok_spec idx) Hok i Hi). cbn. lia.
  - split; [done|]. split; [done|]. exact Hb.
Qed.

Lemma split_loop_ok m (n k : nat) :
  let lo0 := get (MultiIndex.mLowerBound m) 0 in
  let range := get (MultiIndex.mUpperBound m) 0 - lo0 in
  MultiIndex.wf m -> MultiIndex.in_box m -> (0 < MultiIndex.mDimension m)%nat ->
  (0 < n)%nat -> Z.of_nat n * range <= INT_MAX -> (k <= n)%nat ->
  exists acc,
    fold_left (MultiIndex.split_step m (Z.of_nat n) range) (seq 0 k) (Ok ([], lo0))
    = Ok (acc, Z.of_nat k * range / Z.of_nat n + lo0)
    /\ Forall (MultiIndex.sub_box m) acc.
Proof.
  intros lo0 range Hwf Hbox HD Hn Hmax.
  pose proof Hwf as (L1 & L2 & L3 & L4 & R1 & R2 & R3).
  destruct (Hbox 0%nat HD) as [Hc0 Hlu0]. fold lo0 in Hc0, Hlu0.
  assert (Hr : 0 < range) by (unfold range; lia).
  assert (Hlo : int_range lo0) by by apply get_range.
  assert (Hup : int_range (get (MultiIndex.mUpperBound m) 0)) by by apply get_range.
  induction k as [|k IH]; intros Hk.
  - exists []. cbn [seq fold_left]. split; [|done].
    by rewrite Z.mul_0_l, Zdiv_0_l.
  - destruct (IH ltac:(lia)) as (acc & E & Hacc).
    rewrite seq_S, fold_left_app, E. cbn [fold_left Nat.add].
    set (last := Z.of_nat k * range / Z.of_nat n + lo0).
    set (next := Z.of_nat (S k) * range / Z.of_nat n + lo0).
    assert (Hq0 : 0 <= Z.of_nat k * range / Z.of_nat n) by (apply Z.div_pos; nia).
    assert (Hq1 : Z.of_nat k * range / Z.of_nat n <= Z.of_nat (S k) * range / Z.of_nat n)
      by (apply Z.div_le_mono; nia).
    assert (Hq2 : Z.of_nat (S k) * range / Z.of_nat n <= range)
      by (apply Z.div_le_upper_bound; nia).
    assert (Hnext : wrap_int (Z.quot (wrap_int (wrap_int (Z.of_nat k + 1) * range))
                                     (wrap_int (Z.of_nat n)) + lo0) = next).
    { rewrite (wrap_int_id (Z.of_nat k + 1))
        by (unfold int_range, INT_MIN, INT_MAX in *; nia).
      rewrite (wrap_int_id ((Z.of_nat k + 1) * range))
        by (unfold int_range, INT_MIN, INT_MAX in *; nia).
      rewrite (wrap_int_id (Z.of_nat n))
        by (unfold int_range, INT_MIN, INT_MAX in *; nia).
      rewrite Z.quot_div_nonneg by nia.
      replace (Z.of_nat k + 1) with (Z.of_nat (S k)) by lia.
      apply wrap_int_id. unfold int_range, INT_MIN, INT_MAX, range in *. lia. }
    unfold MultiIndex.split_step.
    rewrite (result_bind_ok (Ok (acc, last)) _ (acc, last)) by done.
    erewrite result_bind_ok
      by (apply setLowerBoundAt_ok;
          [done | cbn; rewrite L1; unfold MultiIndex.MAX_MULTIINDEX_DIMENSION; lia]).
    erewrite result_bind_ok
      by (apply setUpperBoundAt_ok;
          [done | cbn; rewrite L2; unfold MultiIndex.MAX_MULTIINDEX_DIMENSION; lia]).
    cbn [MultiIndex.mLowerBound MultiIndex.mUpperBound MultiIndex.mCurrentPos
         MultiIndex.mDimension MultiIndex.mIsValid].
    fold lo0. rewrite Hnext.
    destruct (last =? next) eqn:Eq.
    + apply Z.eqb_eq in Eq. exists acc. by rewrite Eq.
    + apply Z.eqb_neq in Eq.
      set (copy := MultiIndex.Build _ _ _ _ false).
      assert (Hg0 : forall (a : MultiIndex.storage_type) v i,
                 length a = MultiIndex.MAX_MULTIINDEX_DIMENSION ->
                 get (<[0%nat:=v]> a) i = if decide (i = 0%nat) then v else get a i).
      { intros a v i La. case_decide as Hi.
        - subst i. apply get_insert_eq. rewrite La.
          unfold MultiIndex.MAX_MULTIINDEX_DIMENSION. lia.
        - apply get_insert_ne. done. }
      assert (Hok : MultiIndex.bounds_ok copy = true).
      { apply bounds_ok_spec. intros i Hi. cbn in *. rewrite !Hg0 by done.
        case_decide; [unfold last, next in *; lia|]. by apply Hbox. }
      unfold MultiIndex.init, MultiIndex.checkNotValid, MultiIndex.valid.
      cbn [MultiIndex.mIsValid copy]. rewrite Hok.
      eexists. split; [reflexivity|].
      apply Forall_app. split; [done|]. apply Forall_cons. split; [|done].
      assert (Hl : int_range last)
        by (unfold int_range, INT_MIN, INT_MAX, last, range in *; lia).
      assert (Hx : int_range next)
        by (unfold int_range, INT_MIN, INT_MAX, next, range in *; lia).
      split; [split|split; [done|split; [done|]]].
      * unfold MultiIndex.wf.
        cbn [copy MultiIndex.mLowerBound MultiIndex.mUpperBound MultiIndex.mCurrentPos
             MultiIndex.mDimension].
        rewrite !length_insert. do 4 (split; [done|]).
        split; [by apply Forall_insert_range|].
        split; by apply Forall_insert_range.
      * intros _ i Hi. pose proof (proj1 (bounds_ok_spec copy) Hok i Hi) as Hlt.
        cbn in *. lia.
      * intros i Hi. cbn. rewrite !Hg0 by done.
        case_decide as Hi0; [subst i; unfold last, next, range in *; fold lo0; lia|lia].
Qed.

Lemma split_ok m (n : nat) :
  MultiIndex.wf m -> MultiIndex.in_box m -> (0 < MultiIndex.mDimension m)%nat ->
  (0 < n)%nat ->
  Z.of_nat n * (get (MultiIndex.mUpperBound m) 0 - get (MultiIndex.mLowerBound m) 0)
    <= INT_MAX ->
  exists subs, MultiIndex.split n m = Ok subs /\ Forall (MultiIndex.sub_box m) subs.
Proof.
  intros Hwf Hbox HD Hn Hmax. unfold MultiIndex.split.
  rewrite decide_False by lia.
  destruct (Hbox 0%nat HD) as [_ Hlu0].
  rewrite wrap_int_id by (unfold int_range, INT_MIN, INT_MAX in *; nia).
  destruct (split_loop_ok m n n Hwf Hbox HD Hn Hmax ltac:(lia)) as (acc & E & Hacc).
  rewrite E. by exists acc.
Qed.

(** *** The tasks *)

Lemma randomize_over_index_hermitian DIM rnd (grid : complex_grid) index :
  DIM = getDimension grid ->
  fft_grid grid -> hermitian grid -> index_within grid index ->
  let grid' := match randomize_over_index DIM grid rnd index with
               | Ok grid' => grid'
               | Throw _ => grid
               end in
  fft_grid grid' /\ hermitian grid' /\
  getExtents grid' = getExtents grid /\ getDimension grid' = getDimension grid.
Proof.
  intros -> Hg Hh Hw. unfold randomize_over_index.
  destruct (MultiIndex.valid index); cbn [negb]; [|done].
  by apply phase_loop_hermitian.
Qed.

Lemma run_task_hermitian worker_rnd seed (grid : complex_grid) task :
  fft_grid grid -> hermitian grid -> index_within grid (snd task) ->
  let grid' := run_task worker_rnd seed grid task in
  fft_grid grid' /\ hermitian grid' /\
  getExtents grid' = getExtents grid /\ getDimension grid' = getDimension grid.
Proof.
  intros Hg Hh Hw. unfold run_task, randomize_generic.
  repeat case_decide; try by apply randomize_over_index_hermitian.
  done.
Qed.

Lemma run_tasks_hermitian worker_rnd seed tasks :
  forall grid : complex_grid,
    fft_grid grid -> hermitian grid ->
    Forall (fun task => index_within grid (snd task)) tasks ->
    let grid' := fold_left (run_task worker_rnd seed) tasks grid in
    fft_grid grid' /\ hermitian grid' /\
    getExtents grid' = getExtents grid /\ getDimension grid' = getDimension grid.
Proof.
  induction tasks as [|task tasks IH]; intros grid Hg Hh Hw; [done|].
  apply Forall_cons in Hw as [Hw1 Hw].
  destruct (run_task_hermitian worker_rnd seed grid task Hg Hh Hw1) as (Hg1 & Hh1 & He1 & Hd1).
  cbn [fold_left].
  destruct (IH (run_task worker_rnd seed grid task) Hg1 Hh1) as (Hg2 & Hh2 & He2 & Hd2).
  - eapply Forall_impl; [exact Hw|]. intros t Ht. by apply (index_within_same grid).
  - split; [done|]. split; [done|]. split; congruence.
Qed.

Lemma Forall_zip_snd {A B} (P : B -> Prop) (l : list A) (k : list B) :
  Forall P k -> Forall (fun t => P (snd t)) (zip l k).
Proof.
  intros Hk. revert l. induction Hk as [|b k Hb _ IH]; intros [|a l]; cbn; try done.
  apply Forall_cons. split; [done | apply IH].
Qed.

Lemma thread_count_range (grid : complex_grid) : 1 <= thread_count grid <= 64.
Proof. unfold thread_count. lia. Qed.

Lemma sub_box_within (grid : complex_grid) index sub :
  MultiIndex.mDimension index = getDimension grid ->
  (forall i, (i < getDimension grid)%nat ->
     get (MultiIndex.mLowerBound index) i = - (get (getExtents grid) i / 2) /\
     get (MultiIndex.mUpperBound index) i = get (getExtents grid) i / 2) ->
  MultiIndex.sub_box index sub -> index_within grid sub.
Proof.
  intros Hd Hb (Hinv & Hv & Hds & Hsub). split; [done|]. split; [congruence|].
  intros i Hi. destruct (Hb i Hi) as [El Eu].
  destruct (Hsub i ltac:(lia)) as [Hl Hu]. lia.
Qed.

Lemma randomizePhases_ok worker_rnd (grid : complex_grid) (seed : Z) :
  fft_grid grid -> split_in_int grid -> hermitian grid ->
  exists grid',
    randomizePhases worker_rnd grid seed = Ok grid' /\
    fft_grid grid' /\ hermitian grid' /\
    getExtents grid' = getExtents grid /\ getDimension grid' = getDimension grid.
Proof.
  intros Hg Hs Hh. unfold randomizePhases.
  destruct (fft_indexing_ok grid Hg) as (index & E & [Hwf Hbox] & Hv & Hd & Hb).
  rewrite E. erewrite result_bind_ok by done.
  pose proof Hg as (_ & _ & H3 & _).
  pose proof (thread_count_range grid) as Ht.
  destruct (Hb 0%nat ltac:(lia)) as [El Eu].
  destruct (fft_extent_facts _ (fft_grid_extent grid 0 Hg ltac:(lia)))
    as (Hp & He & _ & _ & _).
  assert (Hr : get (MultiIndex.mUpperBound index) 0 - get (MultiIndex.mLowerBound index) 0
               = get (getExtents grid) 0).
  { rewrite El, Eu. rewrite (Z.div_mod (get (getExtents grid) 0) 2) at 3 by lia. lia. }
  destruct (split_ok index (Z.to_nat (thread_count grid)) Hwf (Hbox Hv))
    as (subs & Es & Hsubs); [lia | lia | |].
  { rewrite Hr, Z2Nat.id by lia. exact Hs. }
  rewrite Es. erewrite result_bind_ok by done.
  eexists. split; [reflexivity|].
  apply run_tasks_hermitian; [done | done |].
  apply (Forall_zip_snd (index_within grid)).
  eapply Forall_impl; [exact Hsubs|]. intros sub. by apply sub_box_within.
Qed.

End RandomizeFacts.

(** C3. For every complex grid in FFT-centred access mode, of dimension
    1 to 3 with even extents (within the [int] arithmetic of the
    iteration index), that satisfies the Hermitian symmetry
    [G[n] = conj(G[-n])] for every FFT-centred index [n], and for every
    seed and every sequence of draws of the workers, [randomizePhases]
    returns, and the grid it leaves satisfies [G[n] = conj(G[-n])] for
    every FFT-centred index [n] of the same extents. *)
Theorem randomizePhases_keeps_hermitian
        (worker_rnd : Z -> nat -> nat -> R) (grid : complex_grid) (seed : Z) :
  Randomize.fft_grid grid -> Randomize.split_in_int grid -> Randomize.hermitian grid ->
  exists grid',
    Randomize.randomizePhases worker_rnd grid seed = Ok grid' /\
    getExtents grid' = getExtents grid /\
    Randomize.hermitian grid'.
Proof.
  intros Hg Hs Hh.
  destruct (randomizePhases_ok worker_rnd grid seed Hg Hs Hh) as (grid' & E & _ & Hh' & He & _).
  by exists grid'.
Qed.

Lemma real_pair_grid_hermitian :
  Randomize.fft_grid (MkGrid [(1, 0); (2, 0)]%R 1 [2] FFT_INDEX)
  /\ Randomize.split_in_int (MkGrid [(1, 0); (2, 0)]%R 1 [2] FFT_INDEX)
  /\ Randomize.hermitian (MkGrid [(1, 0); (2, 0)]%R 1 [2] FFT_INDEX).
Proof.
  split; [|split].
  - split; [|split; [done|split; [cbn; lia|]]].
    + split; [done|]. split; [cbn; lia|]. split; [|done].
      repeat constructor; unfold SIZE_MAX; lia.
    + repeat constructor; unfold INT_MAX; lia.
  - unfold Randomize.split_in_int, Randomize.thread_count, INT_MAX. cbn. lia.
  - intros n Hn. specialize (Hn 0%nat ltac:(cbn; lia)). cbn in Hn.
    unfold getOffsetOf. cbn [mDimension mTrafoType mExtents getIndexFnTemplate].
    unfold FFTIndexFn. cbn [seq fold_left]. rewrite get_map_opp.
    change (get [2] 0) with 2 in *. change (2 `div` 2) with 1 in Hn.
    assert (Hc : get n 0 = -1 \/ get n 0 = 0) by lia.
    set (g := MkGrid _ _ _ _).
    destruct Hc as [-> | ->].
    + change (cell g 1 = conj (cell g 1)). unfold cell, conj.
      change (Z.to_nat 1) with 1%nat. cbn. f_equal. lra.
    + change (cell g 0 = conj (cell g 0)). unfold cell, conj.
      change (Z.to_nat 0) with 0%nat. cbn. f_equal. lra.
Qed.

Lemma randomizePhases_keeps_hermitian_witness :
  let grid := MkGrid [(1, 0); (2, 0)]%R 1 [2] FFT_INDEX in
  exists grid',
    Randomize.randomizePhases (fun _ _ _ => PI) grid 7 = Ok grid' /\
    getExtents grid' = getExtents grid /\
    Randomize.hermitian grid'.
Proof.
  intros grid.
  apply (randomizePhases_keeps_hermitian (fun _ _ _ => PI) grid 7).
  - apply real_pair_grid_hermitian.
  - apply real_pair_grid_hermitian.
  - apply real_pair_grid_hermitian.
Defined.

(* ===================================================================== *)
(** ** MultiIndex: setters, iteration order, splitting *)
(* ===================================================================== *)

Section MultiIndexIteration.
Import MultiIndex.

Lemma fold_mod_sum (M : Z) l :
  forall a, fold_left (fun acc v => (acc + v) mod M) l (a mod M) = fold_left Z.add l a mod M.
Proof.
  induction l as [|v l IH]; intros a; cbn [fold_left]; [done|].
  rewrite Zplus_mod_idemp_l. apply IH.
Qed.

(** X1. [getAccumulated] returns the sum of the first [size()] entries of
    the current position reduced modulo 2^32 (the sum is accumulated in
    [unsigned int]): it is never negative, and a position with negative
    entries does not give the signed sum. *)
Theorem getAccumulated_wraps m :
  getAccumulated m = fold_left Z.add (getAsVector m) 0 mod 2 ^ 32
  /\ 0 <= getAccumulated m < 2 ^ 32.
Proof.
  assert (E : getAccumulated m = fold_left Z.add (getAsVector m) 0 mod 2 ^ 32).
  { unfold getAccumulated, to_unsigned. by rewrite <- fold_mod_sum. }
  split; [done|]. rewrite E. apply Z.mod_pos_bound. lia.
Qed.

(** X2. The bound setters and [init] first check that the index is not
    started: on a started index all five throw [logic_error], whatever
    the axis.  On an index that is not started, [setLowerBoundAt] and
    [setUpperBoundAt] check the axis against the capacity of the arrays
    (4), not against [size()]: they write the bound for every axis below
    4 and throw [out_of_range] from 4 on. *)
Theorem bound_setters_checks m d v :
  wf m ->
  (mIsValid m = true ->
     setLowerBound v m = Throw logic_error /\ setUpperBound v m = Throw logic_error /\
     setLowerBoundAt d v m = Throw logic_error /\ setUpperBoundAt d v m = Throw logic_error /\
     init m = Throw logic_error)
  /\ (mIsValid m = false -> (d < MAX_MULTIINDEX_DIMENSION)%nat ->
      setLowerBoundAt d v m
      = Ok (Build (<[d:=v]> (mLowerBound m)) (mUpperBound m) (mCurrentPos m)
                  (mDimension m) false)
      /\ setUpperBoundAt d v m
         = Ok (Build (mLowerBound m) (<[d:=v]> (mUpperBound m)) (mCurrentPos m)
                     (mDimension m) false))
  /\ (mIsValid m = false -> (MAX_MULTIINDEX_DIMENSION <= d)%nat ->
      setLowerBoundAt d v m = Throw out_of_range
      /\ setUpperBoundAt d v m = Throw out_of_range).
Proof.
  intros (L1 & L2 & _). split; [|split].
  - intros Hv.
    unfold setLowerBound, setUpperBound, setLowerBoundAt, setUpperBoundAt, init,
      checkNotValid, valid.
    by rewrite Hv.
  - intros Hv Hd. split.
    + apply setLowerBoundAt_ok; [done | lia].
    + apply setUpperBoundAt_ok; [done | lia].
  - intros Hv Hd.
    unfold setLowerBoundAt, setUpperBoundAt, checkNotValid, valid, set_at.
    rewrite Hv. cbn. rewrite !decide_False by lia. done.
Qed.

Lemma bound_setters_checks_witness :
  let m := Build [0; 0; 0; 0] [3; 3; 3; 3] [0; 0; 0; 0] 2 false in
  wf m /\
  setLowerBoundAt 3 (-1) m
  = Ok (Build [0; 0; 0; -1] [3; 3; 3; 3] [0; 0; 0; 0] 2 false)
  /\ setUpperBoundAt 4 7 m = Throw out_of_range.
Proof.
  intros m.
  assert (Hwf : wf m).
  { unfold wf, m, MAX_MULTIINDEX_DIMENSION. cbn.
    repeat split; try lia; repeat constructor; unfold INT_MIN, INT_MAX; lia. }
  split; [exact Hwf|].
  destruct (bound_setters_checks m 3 (-1) Hwf) as (_ & H3 & _).
  destruct (bound_setters_checks m 4 7 Hwf) as (_ & _ & H4).
  split.
  - apply H3; [reflexivity | unfold MAX_MULTIINDEX_DIMENSION; lia].
  - apply H4; [reflexivity | unfold MAX_MULTIINDEX_DIMENSION; lia].
Defined.

(** *** What one increment changes *)

Lemma increment_from_carry k m :
  wf m -> in_box m -> (k <= mDimension m)%nat -> mIsValid m = true ->
  let m' := fst (increment_from k m) in
  let i := snd (increment_from k m) in
  (mIsValid m' = true ->
     (i < k)%nat /\
     get (mCurrentPos m') i = get (mCurrentPos m) i + 1 /\
     (forall j, (j < i)%nat -> get (mCurrentPos m') j = get (mCurrentPos m) j) /\
     (forall j, (i < j < k)%nat ->
        get (mCurrentPos m') j = get (mLowerBound m) j /\
        get (mCurrentPos m) j + 1 = get (mUpperBound m) j))
  /\ (mIsValid m' = false ->
      i = 0%nat /\
      forall j, (j < k)%nat ->
        get (mCurrentPos m') j = get (mLowerBound m) j /\
        get (mCurrentPos m) j + 1 = get (mUpperBound m) j)
  /\ (forall j, (k <= j)%nat -> get (mCurrentPos m') j = get (mCurrentPos m) j).
Proof.
  revert m. induction k as [|k IH]; intros m Hwf Hbox Hk Hv.
  { cbn. split; [done|]. split; [|done]. intros _. split; [done|]. intros j Hj. lia. }
  cbn [increment_from].
  pose proof Hwf as (L1 & L2 & L3 & L4 & R1 & R2 & R3).
  assert (Hkl : (k < length (mCurrentPos m))%nat)
    by (rewrite L3; unfold MAX_MULTIINDEX_DIMENSION in *; lia).
  destruct (Hbox k ltac:(lia)) as [Hck Hlu].
  assert (Hup : int_range (get (mUpperBound m) k)) by by apply get_range.
  assert (Hlo : int_range (get (mLowerBound m) k)) by by apply get_range.
  rewrite wrap_int_id by (unfold int_range in *; lia).
  destruct (_ <? _) eqn:E.
  - apply Z.ltb_lt in E. cbn [fst snd mIsValid mCurrentPos].
    split; [|split].
    + intros _. split; [lia|]. split; [by apply get_insert_eq|].
      split; [intros j Hj; apply get_insert_ne; lia | intros j Hj; lia].
    + intros Hf. congruence.
    + intros j Hj. apply get_insert_ne. lia.
  - apply Z.ltb_ge in E.
    set (m1 := Build _ _ _ _ _).
    assert (Hwf1 : wf m1).
    { repeat split; cbn; try done.
      - by rewrite length_insert.
      - by apply Forall_insert_range. }
    assert (Hbox1 : in_box m1).
    { intros i Hi. cbn in *. destruct (decide (i = k)) as [->|Hne].
      - rewrite get_insert_eq by done. lia.
      - rewrite get_insert_ne by done. by apply Hbox. }
    destruct (IH m1 Hwf1 Hbox1 ltac:(cbn; lia) Hv) as (Hval & Hinv & Hrest).
    assert (Hc1 : forall j, j <> k -> get (mCurrentPos m1) j = get (mCurrentPos m) j)
      by (intros j Hj; cbn; apply get_insert_ne; lia).
    assert (Hck1 : get (mCurrentPos m1) k = get (mLowerBound m) k)
      by (cbn; by apply get_insert_eq).
    split; [|split].
    + intros Hv'. destruct (Hval Hv') as (Hi & Hinc & Hlow & Hhigh).
      split; [lia|]. split; [rewrite Hinc; rewrite Hc1 by lia; done|].
      split; [intros j Hj; rewrite Hlow by done; apply Hc1; lia|].
      intros j Hj. destruct (decide (j = k)) as [->|Hne].
      * rewrite Hrest by lia. rewrite Hck1. split; [done | lia].
      * destruct (Hhigh j ltac:(lia)) as [H1 H2]. rewrite Hc1 in H2 by done. done.
    + intros Hv'. destruct (Hinv Hv') as (Hi & Hall). split; [done|].
      intros j Hj. destruct (decide (j = k)) as [->|Hne].
      * rewrite Hrest by lia. rewrite Hck1. split; [done | lia].
      * destruct (Hall j ltac:(lia)) as [H1 H2]. rewrite Hc1 in H2 by done. done.
    + intros j Hj. rewrite Hrest by lia. apply Hc1. lia.
Qed.

(** X3. [increment] on a started index inside its box: when the index
    stays valid, the returned axis [i] is below [size()], position [i] has
    grown by one, the axes before [i] are unchanged and every axis after
    [i] was at its last position and is back at its lower bound (the last
    axis varies fastest).  When the index becomes invalid, 0 is returned
    and every axis was at its last position and is back at its lower
    bound. *)
Theorem increment_carries m :
  inv m -> mIsValid m = true ->
  let m' := fst (increment m) in
  let i := snd (increment m) in
  (mIsValid m' = true ->
     (i < size m)%nat /\
     get (mCurrentPos m') i = get (mCurrentPos m) i + 1 /\
     (forall j, (j < i)%nat -> get (mCurrentPos m') j = get (mCurrentPos m) j) /\
     (forall j, (i < j < size m)%nat ->
        get (mCurrentPos m') j = get (mLowerBound m) j /\
        get (mCurrentPos m) j + 1 = get (mUpperBound m) j))
  /\ (mIsValid m' = false ->
      i = 0%nat /\
      forall j, (j < size m)%nat ->
        get (mCurrentPos m') j = get (mLowerBound m) j /\
        get (mCurrentPos m) j + 1 = get (mUpperBound m) j).
Proof.
  intros [Hwf Hb] Hv. unfold increment, size.
  destruct (increment_from_carry (mDimension m) m Hwf (Hb Hv) ltac:(lia) Hv) as (H1 & H2 & _).
  by split.
Qed.

Lemma increment_carries_witness :
  let m := Build [0; 0; 0; 0] [2; 3; 0; 0] [0; 2; 0; 0] 2 true in
  (snd (increment m) < size m)%nat /\
  get (mCurrentPos (fst (increment m))) (snd (increment m))
  = get (mCurrentPos m) (snd (increment m)) + 1.
Proof.
  intros m.
  assert (Hinv : inv m).
  { split.
    - unfold wf, m, MAX_MULTIINDEX_DIMENSION. cbn.
      repeat split; try lia; repeat constructor; unfold INT_MIN, INT_MAX; lia.
    - intros _ i Hi. unfold m in *. cbn in Hi.
      destruct i as [|[|i]]; cbn; lia. }
  destruct (increment_carries m Hinv eq_refl) as [H _].
  destruct (H eq_refl) as (H1 & H2 & _). by split.
Defined.

(** *** The loop [for(index.init(); index.valid(); ++index)] *)

Lemma box_rank_upto_last k m :
  (forall j, (j < k)%nat -> get (mCurrentPos m) j + 1 = get (mUpperBound m) j) ->
  box_rank_upto k m = box_count_upto k m - 1.
Proof.
  induction k as [|k IH]; intros Hl; [done|].
  rewrite box_rank_upto_S, box_count_upto_S, IH by (intros; apply Hl; lia).
  specialize (Hl k ltac:(lia)). lia.
Qed.

Lemma incr_stays_valid m :
  inv m -> mIsValid m = true -> box_rank m + 1 < box_count m ->
  mIsValid (incr m) = true.
Proof.
  intros [Hwf Hb] Hv Hr. destruct (mIsValid (incr m)) eqn:E; [done|].
  unfold incr, increment in E.
  destruct (increment_from_carry (mDimension m) m Hwf (Hb Hv) ltac:(lia) Hv) as (_ & H & _).
  destruct (H E) as [_ Hl].
  assert (Hlast : box_rank m = box_count m - 1).
  { apply box_rank_upto_last. intros j Hj. by apply Hl. }
  lia.
Qed.

Lemma iter_incr_invalid k m :
  mIsValid m = false -> mIsValid (Nat.iter k incr m) = false.
Proof.
  intros Hv. induction k as [|k IH]; [done|]. change (Nat.iter (S k) incr m) with (incr (Nat.iter k incr m)).
  destruct (mIsValid (incr (Nat.iter k incr m))) eqn:E; [|done].
  apply increment_from_flag in E. congruence.
Qed.

Lemma iter_incr_facts k m :
  inv m -> mIsValid m = true -> Z.of_nat k < box_count m - box_rank m ->
  let mk := Nat.iter k incr m in
  inv mk /\ mIsValid mk = true /\ box_rank mk = box_rank m + Z.of_nat k /\
  box_count mk = box_count m /\
  mLowerBound mk = mLowerBound m /\ mUpperBound mk = mUpperBound m /\
  mDimension mk = mDimension m.
Proof.
  intros Hinv Hv. induction k as [|k IH]; intros Hk.
  - cbv zeta. change (Nat.iter 0 incr m) with m. split; [done|]. split; [done|].
    split; [rewrite Nat2Z.inj_0; lia|]. done.
  - destruct (IH ltac:(lia)) as (Hi & Hvk & Hr & Hc & El & Eu & Ed).
    change (Nat.iter (S k) incr m) with (incr (Nat.iter k incr m)). set (mk := Nat.iter k incr m) in *.
    assert (Hv' : mIsValid (incr mk) = true) by (apply incr_stays_valid; [done | done | lia]).
    destruct (incr_rank mk Hi Hvk Hv') as [Hr' Hc'].
    destruct (increment_from_shape (mDimension mk) mk) as (E1 & E2 & E3 & _).
    split; [by apply increment_inv|]. split; [done|]. split; [lia|]. split; [lia|].
    unfold incr, increment. rewrite E1, E2, E3. done.
Qed.

Lemma iter_incr_ends k m :
  inv m -> mIsValid m = true -> box_count m - box_rank m <= Z.of_nat k ->
  mIsValid (Nat.iter k incr m) = false.
Proof.
  intros Hinv Hv. induction k as [|k IH]; intros Hk.
  - destruct Hinv as [Hwf Hb].
    pose proof (box_rank_upto_bound (mDimension m) m ltac:(lia) (Hb Hv)) as Hr.
    unfold box_rank, box_count in *. cbn in Hk. lia.
  - change (Nat.iter (S k) incr m) with (incr (Nat.iter k incr m)).
    destruct (decide (box_count m - box_rank m <= Z.of_nat k)) as [Hle|Hgt].
    + specialize (IH Hle).
      destruct (mIsValid (incr (Nat.iter k incr m))) eqn:E; [|done].
      apply increment_from_flag in E. congruence.
    + destruct (iter_incr_facts k m Hinv Hv ltac:(lia)) as (Hi & Hvk & Hr & Hc & _).
      set (mk := Nat.iter k incr m) in *.
      destruct (mIsValid (incr mk)) eqn:E; [|done].
      destruct (incr_rank mk Hi Hvk E) as [Hr' Hc'].
      destruct (increment_inv mk Hi) as [Hwf' Hb'].
      pose proof (box_rank_upto_bound (mDimension (incr mk)) (incr mk)
                    ltac:(lia) (Hb' E)) as Hbound.
      unfold box_rank, box_count in *. lia.
Qed.

Lemma init_rank_upto k m :
  mCurrentPos m = mLowerBound m -> box_rank_upto k m = 0.
Proof.
  intros E. induction k as [|k IH]; [done|].
  rewrite box_rank_upto_S, IH, E. lia.
Qed.

Lemma init_started m0 m :
  wf m0 -> init m0 = Ok m -> inv m /\ mIsValid m = true /\ box_rank m = 0.
Proof.
  intros Hwf E. destruct (init_inv m0 m Hwf E) as (Hwf' & Hv & Hb).
  split; [by split|]. split; [done|].
  apply init_ok in E as (_ & _ & ->). by apply init_rank_upto.
Qed.

(** X4. The loop [for(index.init(); index.valid(); ++index)] runs
    exactly as many rounds as the box has positions (the product of
    [upper[i] - lower[i]] over the axes): after [k] increments the index
    is still valid exactly when [k] is below that number, and it is then
    at the position of row-major rank [k]. *)
Theorem iteration_runs_box_count_rounds m0 m (k : nat) :
  wf m0 -> init m0 = Ok m ->
  (mIsValid (Nat.iter k incr m) = true <-> Z.of_nat k < box_count m)
  /\ (Z.of_nat k < box_count m -> box_rank (Nat.iter k incr m) = Z.of_nat k).
Proof.
  intros Hwf E. destruct (init_started m0 m Hwf E) as (Hinv & Hv & Hr).
  split.
  - split.
    + intros Hvk. destruct (decide (Z.of_nat k < box_count m)) as [|Hge]; [done|].
      rewrite (iter_incr_ends k m Hinv Hv) in Hvk by lia. done.
    + intros Hk. by destruct (iter_incr_facts k m Hinv Hv ltac:(lia)) as (_ & ? & _).
  - intros Hk. destruct (iter_incr_facts k m Hinv Hv ltac:(lia)) as (_ & _ & -> & _). lia.
Qed.

Lemma iteration_runs_box_count_rounds_witness :
  let m0 := Build [0; -1; 0; 0] [2; 2; 0; 0] [0; 0; 0; 0] 2 false in
  exists m, init m0 = Ok m /\ box_count m = 6 /\
            mIsValid (Nat.iter 5 incr m) = true /\ box_rank (Nat.iter 5 incr m) = 5 /\
            mIsValid (Nat.iter 6 incr m) = false.
Proof.
  intros m0.
  assert (Hwf : wf m0).
  { unfold wf, m0, MAX_MULTIINDEX_DIMENSION. cbn.
    repeat split; try lia; repeat constructor; unfold INT_MIN, INT_MAX; lia. }
  eexists. split; [reflexivity|]. split; [reflexivity|].
  pose proof (iteration_runs_box_count_rounds m0 _ 5 Hwf eq_refl) as [H5 R5].
  pose proof (iteration_runs_box_count_rounds m0 _ 6 Hwf eq_refl) as [H6 _].
  split; [apply H5; reflexivity|]. split; [apply R5; reflexivity|].
  destruct (mIsValid (Nat.iter 6 incr _)) eqn:E; [|reflexivity].
  pose proof (proj1 H6 eq_refl) as C. vm_compute in C. discriminate.
Defined.

Lemma box_rank_upto_inj k m m' :
  mLowerBound m' = mLowerBound m -> mUpperBound m' = mUpperBound m ->
  (forall i, (i < k)%nat ->
     get (mLowerBound m) i <= get (mCurrentPos m) i < get (mUpperBound m) i) ->
  (forall i, (i < k)%nat ->
     get (mLowerBound m) i <= get (mCurrentPos m') i < get (mUpperBound m) i) ->
  box_rank_upto k m = box_rank_upto k m' ->
  forall i, (i < k)%nat -> get (mCurrentPos m) i = get (mCurrentPos m') i.
Proof.
  intros El Eu. induction k as [|k IH]; intros Hb Hb' Er i Hi; [lia|].
  rewrite !box_rank_upto_S, El, Eu in Er.
  pose proof (Hb k ltac:(lia)) as Hk. pose proof (Hb' k ltac:(lia)) as Hk'.
  set (e := get (mUpperBound m) k - get (mLowerBound m) k) in *.
  set (d := get (mCurrentPos m) k - get (mLowerBound m) k) in *.
  set (d' := get (mCurrentPos m') k - get (mLowerBound m) k) in *.
  assert (Hd : 0 <= d < e) by (unfold d, e; lia).
  assert (Hd' : 0 <= d' < e) by (unfold d', e; lia).
  assert (Hq : box_rank_upto k m = box_rank_upto k m').
  { assert (H1 : box_rank_upto k m = (box_rank_upto k m * e + d) / e)
      by (apply (Z.div_unique_pos _ e _ d); lia).
    assert (H2 : box_rank_upto k m' = (box_rank_upto k m' * e + d') / e)
      by (apply (Z.div_unique_pos _ e _ d'); lia).
    rewrite H1, H2. by rewrite Er. }
  destruct (decide (i = k)) as [->|Hne].
  - rewrite Hq in Er. unfold d, d' in Er. lia.
  - apply IH; try done; try lia; intros j Hj; [apply Hb | apply Hb']; lia.
Qed.

Lemma list_eq_get (a b : list Z) n :
  length a = n -> length b = n -> (forall i, (i < n)%nat -> get a i = get b i) -> a = b.
Proof.
  intros La Lb Hg. apply list_eq. intros i.
  destruct (decide (i < n)%nat) as [Hi|Hi].
  - specialize (Hg i Hi). unfold get in Hg.
    destruct (lookup_lt_is_Some_2 a i ltac:(lia)) as [x Hx].
    destruct (lookup_lt_is_Some_2 b i ltac:(lia)) as [y Hy].
    rewrite Hx, Hy in *. cbn in Hg. by subst.
  - rewrite !lookup_ge_None_2 by lia. done.
Qed.

Lemma iter_reaches_position m0 m (p : list Z) :
  wf m0 -> init m0 = Ok m -> length p = size m ->
  (forall i, (i < size m)%nat ->
     get (mLowerBound m) i <= get p i < get (mUpperBound m) i) ->
  exists k : nat,
    Z.of_nat k < box_count m /\
    mIsValid (Nat.iter k incr m) = true /\
    getAsVector (Nat.iter k incr m) = p.
Proof.
  intros Hwf E Hlen Hp. unfold size in *.
  destruct (init_started m0 m Hwf E) as (Hinv & Hv & Hr).
  set (mp := Build (mLowerBound m) (mUpperBound m) p (mDimension m) true).
  assert (Hbp : in_box mp) by (intros i Hi; cbn; specialize (Hp i Hi); lia).
  pose proof (box_rank_upto_bound (mDimension mp) mp ltac:(lia) Hbp) as Hrp.
  fold (box_rank mp) in Hrp. change (box_count_upto (mDimension mp) mp) with (box_count m) in Hrp.
  exists (Z.to_nat (box_rank mp)).
  destruct (iter_incr_facts (Z.to_nat (box_rank mp)) m Hinv Hv ltac:(lia))
    as ([Hwfk Hbk] & Hvk & Hrk & _ & El & Eu & Ed).
  set (mk := Nat.iter _ incr m) in *.
  split; [lia|]. split; [done|].
  unfold getAsVector. rewrite Ed.
  destruct Hwfk as (_ & _ & L3 & L4 & _).
  apply (list_eq_get _ _ (mDimension m));
    [apply length_take_le; rewrite L3, <- Ed; exact L4 | done |].
  intros i Hi.
  assert (Ht : get (take (mDimension m) (mCurrentPos mk)) i = get (mCurrentPos mk) i)
    by (unfold get; by rewrite lookup_take_lt).
  rewrite Ht.
  apply (box_rank_upto_inj (mDimension m) mk mp); [by cbn | by cbn | | | | done].
  - intros j Hj. by destruct (Hbk Hvk j ltac:(lia)) as [Hc _].
  - intros j Hj. cbn. rewrite El, Eu. by apply Hp.
  - unfold box_rank in Hrk, Hr, Hrp. rewrite Ed in Hrk.
    change (mDimension mp) with (mDimension m) in *. rewrite Hrk, Hr. lia.
Qed.

(** X5. The loop visits every position of the box: for every vector
    [p] of [size()] entries with [lower[i] <= p[i] < upper[i]] on every
    axis there is a number [k] of increments, below the number of
    positions, after which the started index is valid and
    [getAsVector()] is [p]. *)
Theorem iteration_reaches_every_position m0 m (p : list Z) :
  wf m0 -> init m0 = Ok m -> length p = size m ->
  (forall i, (i < size m)%nat ->
     get (mLowerBound m) i <= get p i < get (mUpperBound m) i) ->
  exists k : nat,
    Z.of_nat k < box_count m /\
    mIsValid (Nat.iter k incr m) = true /\
    getAsVector (Nat.iter k incr m) = p.
Proof. apply iter_reaches_position. Qed.

Lemma iteration_reaches_every_position_witness :
  let m0 := Build [0; -1; 0; 0] [2; 2; 0; 0] [0; 0; 0; 0] 2 false in
  exists m k, init m0 = Ok m /\ getAsVector (Nat.iter k incr m) = [1; 0].
Proof.
  intros m0.
  assert (Hwf : wf m0).
  { unfold wf, m0, MAX_MULTIINDEX_DIMENSION. cbn.
    repeat split; try lia; repeat constructor; unfold INT_MIN, INT_MAX; lia. }
  eexists.
  destruct (iteration_reaches_every_position m0 _ [1; 0] Hwf eq_refl eq_refl)
    as (k & _ & _ & Hk).
  - intros i Hi. cbn in Hi. destruct i as [|[|i]]; cbn; lia.
  - exists k. split; [reflexivity | exact Hk].
Defined.

(** *** [split] *)

Lemma slabs_snoc m lo acc mid c :
  slabs m lo acc mid ->
  mIsValid c = true -> mDimension c = mDimension m ->
  mCurrentPos c = mLowerBound c ->
  get (mLowerBound c) 0 = mid -> mid < get (mUpperBound c) 0 ->
  (forall i, (0 < i)%nat ->
     get (mLowerBound c) i = get (mLowerBound m) i /\
     get (mUpperBound c) i = get (mUpperBound m) i) ->
  slabs m lo (acc ++ [c]) (get (mUpperBound c) 0).
Proof.
  revert lo. induction acc as [|a acc IH]; intros lo Hs Hv Hd Hc Hl Hu Ho.
  - cbn in *. subst. done.
  - cbn in Hs. destruct Hs as (H1 & H2 & H3 & H4 & H5 & H6 & H7).
    cbn. repeat (split; [done|]). by apply IH.
Qed.

Lemma split_loop_slabs m (n k : nat) :
  let lo0 := get (mLowerBound m) 0 in
  let range := get (mUpperBound m) 0 - lo0 in
  wf m -> in_box m -> (0 < mDimension m)%nat ->
  (0 < n)%nat -> Z.of_nat n * range <= INT_MAX -> (k <= n)%nat ->
  exists acc,
    fold_left (split_step m (Z.of_nat n) range) (seq 0 k) (Ok ([], lo0))
    = Ok (acc, Z.of_nat k * range / Z.of_nat n + lo0)
    /\ slabs m lo0 acc (Z.of_nat k * range / Z.of_nat n + lo0)
    /\ Z.of_nat (length acc)
       = (if Z.of_nat n <=? range then Z.of_nat k else Z.of_nat k * range / Z.of_nat n).
Proof.
  intros lo0 range Hwf Hbox HD Hn Hmax.
  pose proof Hwf as (L1 & L2 & L3 & L4 & R1 & R2 & R3).
  destruct (Hbox 0%nat HD) as [Hc0 Hlu0]. fold lo0 in Hc0, Hlu0.
  assert (Hr : 0 < range) by (unfold range; lia).
  assert (Hlo : int_range lo0) by by apply get_range.
  assert (Hup : int_range (get (mUpperBound m) 0)) by by apply get_range.
  induction k as [|k IH]; intros Hk.
  - exists []. cbn [seq fold_left length slabs].
    rewrite Z.mul_0_l, Zdiv_0_l. split; [done|]. split; [lia|].
    by destruct (_ <=? _).
  - destruct (IH ltac:(lia)) as (acc & E & Hacc & Hlen).
    rewrite seq_S, fold_left_app, E. cbn [fold_left Nat.add].
    set (q := Z.of_nat k * range / Z.of_nat n) in *.
    set (q' := Z.of_nat (S k) * range / Z.of_nat n).
    set (last := q + lo0) in *. set (next := q' + lo0).
    assert (Hq0 : 0 <= q) by (apply Z.div_pos; nia).
    assert (Hq1 : q <= q') by (apply Z.div_le_mono; nia).
    assert (Hq2 : q' <= range) by (apply Z.div_le_upper_bound; nia).
    assert (Hstep : (Z.of_nat k * range + Z.of_nat n) / Z.of_nat n = q + 1).
    { unfold q. rewrite <- (Z.mul_1_l (Z.of_nat n)) at 1. rewrite Z.div_add by lia. done. }
    assert (Hgrow : Z.of_nat n <= range -> q + 1 <= q').
    { intros Hle. rewrite <- Hstep. apply Z.div_le_mono; nia. }
    assert (Hslow : range < Z.of_nat n -> q' <= q + 1).
    { intros Hlt. rewrite <- Hstep. apply Z.div_le_mono; nia. }
    assert (Hnext : wrap_int (Z.quot (wrap_int (wrap_int (Z.of_nat k + 1) * range))
                                     (wrap_int (Z.of_nat n)) + lo0) = next).
    { rewrite (wrap_int_id (Z.of_nat k + 1))
        by (unfold int_range, INT_MIN, INT_MAX in *; nia).
      rewrite (wrap_int_id ((Z.of_nat k + 1) * range))
        by (unfold int_range, INT_MIN, INT_MAX in *; nia).
      rewrite (wrap_int_id (Z.of_nat n))
        by (unfold int_range, INT_MIN, INT_MAX in *; nia).
      rewrite Z.quot_div_nonneg by nia.
      replace (Z.of_nat k + 1) with (Z.of_nat (S k)) by lia.
      apply wrap_int_id. unfold int_range, INT_MIN, INT_MAX, range, next in *. lia. }
    unfold split_step.
    rewrite (result_bind_ok (Ok (acc, last)) _ (acc, last)) by done.
    erewrite result_bind_ok
      by (apply setLowerBoundAt_ok;
          [done | cbn; rewrite L1; unfold MAX_MULTIINDEX_DIMENSION; lia]).
    erewrite result_bind_ok
      by (apply setUpperBoundAt_ok;
          [done | cbn; rewrite L2; unfold MAX_MULTIINDEX_DIMENSION; lia]).
    cbn [mLowerBound mUpperBound mCurrentPos mDimension mIsValid].
    fold lo0. rewrite Hnext.
    destruct (last =? next) eqn:Eq.
    + apply Z.eqb_eq in Eq. exists acc. rewrite <- Eq. split; [done|]. split; [done|].
      rewrite Hlen. destruct (Z.of_nat n <=? range) eqn:En.
      * apply Z.leb_le in En. specialize (Hgrow En). unfold last, next in Eq. lia.
      * unfold last, next in Eq. lia.
    + apply Z.eqb_neq in Eq.
      set (copy := Build _ _ _ _ false).
      assert (Hg0 : forall (a : storage_type) v i,
                 length a = MAX_MULTIINDEX_DIMENSION ->
                 get (<[0%nat:=v]> a) i = if decide (i = 0%nat) then v else get a i).
      { intros a v i La. case_decide as Hi.
        - subst i. apply get_insert_eq. rewrite La.
          unfold MAX_MULTIINDEX_DIMENSION. lia.
        - apply get_insert_ne. done. }
      assert (Hok : bounds_ok copy = true).
      { apply bounds_ok_spec. intros i Hi. cbn in *. rewrite !Hg0 by done.
        case_decide; [unfold last, next in *; lia|]. by apply Hbox. }
      unfold init, checkNotValid, valid.
      cbn [mIsValid copy]. rewrite Hok.
      eexists. split; [reflexivity|].
      cbn [mLowerBound mUpperBound mCurrentPos mDimension].
      split.
      * replace next with (get (<[0%nat:=next]> (mUpperBound m)) 0)
          by (rewrite Hg0 by done; done).
        apply (slabs_snoc m lo0 acc last);
          cbn [copy mLowerBound mUpperBound mCurrentPos mDimension mIsValid]; try done.
        -- rewrite Hg0 by done. done.
        -- rewrite Hg0 by done. rewrite decide_True by done. lia.
        -- intros i Hi. rewrite !Hg0 by done. rewrite !decide_False by lia. done.
      * rewrite length_app, Nat2Z.inj_add, Hlen. cbn [length].
        destruct (Z.of_nat n <=? range) eqn:En; [lia|].
        apply Z.leb_gt in En. specialize (Hslow En). unfold last, next in Eq. lia.
Qed.

(** X6. [split(n)] of an index whose box is not empty, for [n >= 1]
    parts (and bounds for which the [int] products of the loop do not
    overflow): it returns [min(n, upper[0] - lower[0])] started
    sub-indices, each at its first position, that cut the range of axis 0
    into consecutive non-empty slabs from [lower[0]] to [upper[0]] and
    keep the bounds of the other axes; together they cover the box
    without overlap. *)
Theorem split_cuts_axis_0 m (n : nat) :
  wf m -> in_box m -> (0 < size m)%nat -> (0 < n)%nat ->
  Z.of_nat n * (get (mUpperBound m) 0 - get (mLowerBound m) 0) <= INT_MAX ->
  exists subs,
    split n m = Ok subs /\
    Z.of_nat (length subs)
    = Z.min (Z.of_nat n) (get (mUpperBound m) 0 - get (mLowerBound m) 0) /\
    slabs m (get (mLowerBound m) 0) subs (get (mUpperBound m) 0).
Proof.
  intros Hwf Hbox HD Hn Hmax. unfold split, size in *.
  rewrite decide_False by lia.
  destruct (Hbox 0%nat HD) as [_ Hlu0].
  rewrite wrap_int_id by (unfold int_range, INT_MIN, INT_MAX in *; nia).
  pose proof (split_loop_slabs m n n) as H. cbv zeta in H.
  destruct (H Hwf Hbox HD Hn Hmax ltac:(lia)) as (acc & E & Hs & Hl).
  rewrite E. exists acc. split; [done|].
  rewrite (Z.mul_comm (Z.of_nat n)), Z.div_mul in Hs, Hl by lia.
  split.
  - rewrite Hl. destruct (Z.of_nat n <=? _) eqn:En.
    + apply Z.leb_le in En. lia.
    + apply Z.leb_gt in En. lia.
  - replace (get (mUpperBound m) 0 - get (mLowerBound m) 0 + get (mLowerBound m) 0)
      with (get (mUpperBound m) 0) in Hs by lia.
    exact Hs.
Qed.

Lemma split_cuts_axis_0_witness :
  let m := Build [-2; 0; 0; 0] [3; 2; 0; 0] [-2; 0; 0; 0] 2 true in
  exists subs, split 3 m = Ok subs /\ length subs = 3%nat /\
               slabs m (-2) subs 3.
Proof.
  intros m.
  assert (Hwf : wf m).
  { unfold wf, m, MAX_MULTIINDEX_DIMENSION. cbn.
    repeat split; try lia; repeat constructor; unfold INT_MIN, INT_MAX; lia. }
  assert (Hbox : in_box m).
  { intros i Hi. unfold m in *. cbn in Hi. destruct i as [|[|i]]; cbn; lia. }
  destruct (split_cuts_axis_0 m 3 Hwf Hbox) as (subs & E & Hl & Hs).
  - cbn. lia.
  - lia.
  - cbn. unfold INT_MAX. lia.
  - exists subs. split; [exact E|]. split; [|exact Hs].
    cbn in Hl. lia.
Defined.

End MultiIndexIteration.

(* ===================================================================== *)
(** ** DynamicGrid: offsets of the three access modes, index, copies *)
(* ===================================================================== *)

Section GridIndexing.
Context {V : Type} `{Zero V}.
Import Randomize.

Lemma IdentityIndexFn_S k index extends :
  IdentityIndexFn (S k) index extends
  = to_size_t (IdentityIndexFn k index extends * get extends k + get index k).
Proof. unfold IdentityIndexFn. rewrite seq_S, fold_left_app. reflexivity. Qed.

Lemma PeriodicIndexFn_S k index extends :
  0 < get extends k ->
  PeriodicIndexFn (S k) index extends
  = to_size_t (PeriodicIndexFn k index extends * get extends k
               + to_size_t (get index k) mod get extends k).
Proof.
  intros Hp. unfold PeriodicIndexFn. rewrite seq_S, fold_left_app. cbn [fold_left Nat.add].
  destruct (_ <? 0) eqn:E; [|done].
  apply Z.ltb_lt in E.
  pose proof (Z.mod_pos_bound (to_size_t (get index k)) (get extends k) Hp). lia.
Qed.

Lemma Identity_as_FFT k index extends :
  (forall i, (i < k)%nat -> 0 <= get index i) ->
  IdentityIndexFn k index extends = FFTIndexFn k index extends.
Proof.
  induction k as [|k IH]; intros Hi; [done|].
  rewrite IdentityIndexFn_S, FFTIndexFn_S, IH by (intros; apply Hi; lia).
  unfold fft_coord. specialize (Hi k ltac:(lia)).
  by rewrite (proj2 (Z.ltb_ge _ _) Hi).
Qed.

Lemma Periodic_as_FFT k index extends :
  (forall i, (i < k)%nat -> 0 < get extends i) ->
  PeriodicIndexFn k index extends
  = FFTIndexFn k (map (fun i => to_size_t (get index i) mod get extends i) (seq 0 k)) extends.
Proof.
  intros He.
  assert (G : forall j, (j <= k)%nat ->
            PeriodicIndexFn j index extends
            = FFTIndexFn j (map (fun i => to_size_t (get index i) mod get extends i)
                                (seq 0 k)) extends).
  { induction j as [|j IH]; intros Hj; [done|].
    rewrite PeriodicIndexFn_S, FFTIndexFn_S, IH by (try apply He; lia).
    rewrite get_map_seq by lia. unfold fft_coord.
    pose proof (Z.mod_pos_bound (to_size_t (get index j)) (get extends j) (He j ltac:(lia))).
    by rewrite (proj2 (Z.ltb_ge _ _)) by lia. }
  by apply G.
Qed.

Lemma wf_grid_cells (g : DynamicGrid V) :
  wf_grid g ->
  cells_upto (getDimension g) (getExtents g) = getElementCount g
  /\ cells_upto (getDimension g) (getExtents g) <= SIZE_MAX.
Proof.
  intros (Hd & H6 & Hr & Hp).
  unfold getDimension, getExtents, getElementCount in *. rewrite Hd.
  pose proof (safe_product_range _ _ Hp) as Hn.
  apply safe_product_exact_from in Hp.
  - rewrite cells_upto_product, <- Hp. unfold size_range in Hn. lia.
  - unfold SIZE_MAX. lia.
  - eapply Forall_impl; [exact Hr|]. intros e [? _]. lia.
Qed.

Lemma nonneg_coords k extents index :
  (forall i, (i < k)%nat -> 0 <= get index i < get extents i) ->
  coords_in_range k extents index.
Proof.
  intros Hi i Hk. specialize (Hi i Hk). unfold fft_coord.
  by rewrite (proj2 (Z.ltb_ge _ _)) by lia.
Qed.

(** X7. In IDENTITY access mode the offset of an index inside the
    extents ([0 <= n[i] < extent[i]] on every axis) is the row-major
    offset: it lies inside the storage, the last axis is contiguous
    (going one step along it is the next cell), and two such indices
    with the same offset agree on every axis. *)
Theorem identity_offsets_row_major (g : DynamicGrid V) (n n' : list Z) :
  wf_grid g -> getAccessMode g = IDENTITY ->
  (forall i, (i < getDimension g)%nat -> 0 <= get n i < get (getExtents g) i) ->
  (forall i, (i < getDimension g)%nat -> 0 <= get n' i < get (getExtents g) i) ->
  0 <= getOffsetOf g n < getElementCount g
  /\ (getOffsetOf g n = getOffsetOf g n' ->
      forall i, (i < getDimension g)%nat -> get n i = get n' i)
  /\ ((forall i, (i < getDimension g - 1)%nat -> get n' i = get n i) ->
      get n' (getDimension g - 1) = get n (getDimension g - 1) + 1 ->
      getOffsetOf g n' = getOffsetOf g n + 1).
Proof.
  intros Hg Hm Hn Hn'.
  destruct (wf_grid_cells g Hg) as [Hc Hmax].
  pose proof (nonneg_coords _ _ _ Hn) as Cn. pose proof (nonneg_coords _ _ _ Hn') as Cn'.
  unfold getOffsetOf, getAccessMode in *. rewrite Hm. cbn [getIndexFnTemplate].
  fold (getDimension g) (getExtents g).
  rewrite !Identity_as_FFT by (intros i Hi; first [by apply Hn' | by apply Hn]).
  split; [rewrite <- Hc; by apply FFTIndexFn_bound|]. split.
  - intros E i Hi.
    pose proof (FFTIndexFn_inj _ _ _ _ Cn Cn' Hmax E i Hi) as Ei.
    unfold fft_coord in Ei.
    rewrite !(proj2 (Z.ltb_ge _ _)) in Ei by (try apply Hn; try apply Hn'; done). done.
  - intros Hsame Hlast.
    destruct Hg as (_ & H6 & _).
    destruct (getDimension g) as [|k] eqn:Ek;
      [unfold getDimension in Ek; lia|].
    replace (S k - 1)%nat with k in * by lia.
    rewrite !FFTIndexFn_S.
    rewrite (FFTIndexFn_congr k (getExtents g) n' n)
      by (intros i Hi; by rewrite Hsame by done).
    pose proof (FFTIndexFn_bound (S k) _ _ Cn Hmax) as B.
    pose proof (FFTIndexFn_bound (S k) _ _ Cn' Hmax) as B'.
    rewrite !FFTIndexFn_S in B, B'.
    rewrite (FFTIndexFn_congr k (getExtents g) n' n) in B'
      by (intros i Hi; by rewrite Hsame by done).
    unfold fft_coord in *.
    rewrite !(proj2 (Z.ltb_ge _ _)) in * by (try apply Hn; try apply Hn'; lia).
    assert (Hk : 0 <= FFTIndexFn k n (getExtents g) * get (getExtents g) k + get n k
                 <= SIZE_MAX).
    { assert (Cn1 : coords_in_range k (getExtents g) n)
        by (intros i Hi; apply Cn; lia).
      pose proof (cells_upto_mono k _ _ Cn) as Hmono.
      pose proof (FFTIndexFn_bound k _ _ Cn1 ltac:(lia)) as Bk.
      rewrite cells_upto_S in *. specialize (Hn k ltac:(lia)). nia. }
    assert (Hk' : 0 <= FFTIndexFn k n (getExtents g) * get (getExtents g) k + get n' k
                  <= SIZE_MAX).
    { assert (Cn1 : coords_in_range k (getExtents g) n)
        by (intros i Hi; apply Cn; lia).
      pose proof (cells_upto_mono k _ _ Cn) as Hmono.
      pose proof (FFTIndexFn_bound k _ _ Cn1 ltac:(lia)) as Bk.
      rewrite cells_upto_S in *. specialize (Hn' k ltac:(lia)). nia. }
    rewrite !to_size_t_id by done. lia.
Qed.

(** X8. In PERIODIC access mode (and in the offset computation of
    [linearInterpolate], which is the same function) the offset of every
    index, in range or not, lies inside the storage of a grid with
    non-zero extents; an index inside the extents gets its IDENTITY
    offset; and two indices whose entries are not negative and congruent
    modulo the extents get the same offset.  (A negative entry is reduced
    after its conversion to [std::size_t], that is as [2^64 + n[i]].) *)
Theorem periodic_offsets_in_storage (g : DynamicGrid V) (n n' : list Z) :
  wf_grid g -> getAccessMode g = PERIODIC ->
  (forall i, (i < getDimension g)%nat -> 0 < get (getExtents g) i) ->
  0 <= getOffsetOf g n < getElementCount g
  /\ ((forall i, (i < getDimension g)%nat -> 0 <= get n i < get (getExtents g) i) ->
      getOffsetOf g n = IdentityIndexFn (getDimension g) n (getExtents g))
  /\ ((forall i, (i < getDimension g)%nat ->
         0 <= get n i <= SIZE_MAX /\ 0 <= get n' i <= SIZE_MAX /\
         get n i mod get (getExtents g) i = get n' i mod get (getExtents g) i) ->
      getOffsetOf g n = getOffsetOf g n').
Proof.
  intros Hg Hm He.
  destruct (wf_grid_cells g Hg) as [Hc Hmax].
  unfold getOffsetOf, getAccessMode in *. rewrite Hm. cbn [getIndexFnTemplate].
  fold (getDimension g) (getExtents g).
  rewrite !Periodic_as_FFT by done.
  assert (Cr : forall m : list Z,
             coords_in_range (getDimension g) (getExtents g)
               (map (fun i => to_size_t (get m i) mod get (getExtents g) i)
                    (seq 0 (getDimension g)))).
  { intros m. apply nonneg_coords. intros i Hi. rewrite get_map_seq by done.
    apply Z.mod_pos_bound. by apply He. }
  split; [rewrite <- Hc; by apply FFTIndexFn_bound|]. split.
  - intros Hn. rewrite Identity_as_FFT by (intros i Hi; by apply Hn).
    apply FFTIndexFn_congr. intros i Hi. rewrite get_map_seq by done.
    specialize (Hn i Hi).
    assert (Hs : get (getExtents g) i <= SIZE_MAX).
    { destruct Hg as (Hd & _ & Hr & _). unfold getDimension, getExtents, get in *.
      destruct (mExtents g !! i) as [e|] eqn:E; cbn.
      - apply (Forall_lookup_1 _ _ _ _ Hr E).
      - unfold SIZE_MAX. lia. }
    rewrite to_size_t_id by (unfold size_range; lia).
    by rewrite Z.mod_small by lia.
  - intros Hcong. apply FFTIndexFn_congr. intros i Hi. rewrite !get_map_seq by done.
    destruct (Hcong i Hi) as (Hn & Hn' & E).
    by rewrite !to_size_t_id, E by done.
Qed.

End GridIndexing.

Lemma identity_offsets_row_major_witness :
  let g : DynamicGrid Z := MkGrid [10; 11; 12; 13; 14; 15] 2 [2; 3] IDENTITY in
  getOffsetOf g [1; 1] = getOffsetOf g [1; 0] + 1.
Proof.
  intros g.
  assert (Hg : wf_grid g).
  { split; [done|]. split; [cbn; lia|]. split; [|done].
    repeat constructor; unfold SIZE_MAX; lia. }
  refine (proj2 (proj2 (identity_offsets_row_major g [1; 0] [1; 1]
                          Hg eq_refl _ _)) _ _).
  - intros i Hi. cbn in Hi. destruct i as [|[|i]]; cbn; lia.
  - intros i Hi. cbn in Hi. destruct i as [|[|i]]; cbn; lia.
  - intros i Hi. cbn in Hi. destruct i as [|i]; [reflexivity | lia].
  - reflexivity.
Defined.

Lemma periodic_offsets_in_storage_witness :
  let g : DynamicGrid Z := MkGrid [10; 11; 12; 13; 14; 15] 2 [2; 3] PERIODIC in
  0 <= getOffsetOf g [-7; 100] < 6 /\ getOffsetOf g [3; 5] = getOffsetOf g [1; 2].
Proof.
  intros g.
  assert (Hg : wf_grid g).
  { split; [done|]. split; [cbn; lia|]. split; [|done].
    repeat constructor; unfold SIZE_MAX; lia. }
  assert (He : forall i, (i < getDimension g)%nat -> 0 < get (getExtents g) i).
  { intros i Hi. cbn in Hi. destruct i as [|[|i]]; cbn; lia. }
  split.
  - destruct (periodic_offsets_in_storage g [-7; 100] [] Hg eq_refl He) as (B & _ & _).
    exact B.
  - destruct (periodic_offsets_in_storage g [3; 5] [1; 2] Hg eq_refl He) as (_ & _ & C).
    apply C. intros i Hi. cbn in Hi. unfold SIZE_MAX.
    destruct i as [|[|i]]; cbn; try lia; repeat split; lia.
Defined.


Section FftOffsets.
Import Randomize.

Lemma fft_coord_inj e x y :
  0 < e -> e mod 2 = 0 -> e <= SIZE_MAX ->
  - (e / 2) <= x < e / 2 -> - (e / 2) <= y < e / 2 ->
  fft_coord e x = fft_coord e y -> x = y.
Proof.
  intros He Hev Hmax Hx Hy. unfold fft_coord.
  assert (e = 2 * (e / 2)) by (rewrite (Z.div_mod e 2) at 1 by lia; lia).
  destruct (x <? 0) eqn:Ex; destruct (y <? 0) eqn:Ey;
    try apply Z.ltb_lt in Ex; try apply Z.ltb_ge in Ex;
    try apply Z.ltb_lt in Ey; try apply Z.ltb_ge in Ey;
    rewrite ?to_size_t_id by (unfold size_range; lia); lia.
Qed.

Lemma fft_offsets_inj (g : complex_grid) (n n' : list Z) :
  fft_grid g -> fft_centred (getExtents g) n -> fft_centred (getExtents g) n' ->
  getOffsetOf g n = getOffsetOf g n' ->
  forall i, (i < getDimension g)%nat -> get n i = get n' i.
Proof.
  intros Hg Hn Hn' E i Hi. rewrite !getOffsetOf_fft in E by done.
  destruct (fft_grid_cells g Hg) as [_ Hmax].
  pose proof (FFTIndexFn_inj _ _ _ _ (fft_centred_coords g n Hg Hn)
                (fft_centred_coords g n' Hg Hn') Hmax E i Hi) as Ei.
  destruct (fft_extent_facts _ (fft_grid_extent g i Hg Hi)) as (Hp & Hev & Hs & _).
  assert (Hl : (i < length (getExtents g))%nat).
  { destruct Hg as ((Hd & _) & _). unfold getDimension, getExtents in *. lia. }
  by apply (fft_coord_inj (get (getExtents g) i)); [ | | | apply Hn | apply Hn' | ].
Qed.

(** X9. In FFT_INDEX access mode, on a grid of even extents, the
    offset of an FFT-centred index ([-E/2 <= n[i] < E/2] on every axis)
    lies inside the storage, and two FFT-centred indices with the same
    offset agree on every axis: the centred indices address the cells one
    to one. *)
Theorem fft_offsets_one_to_one (g : complex_grid) (n n' : list Z) :
  fft_grid g -> fft_centred (getExtents g) n -> fft_centred (getExtents g) n' ->
  0 <= getOffsetOf g n < getElementCount g
  /\ (getOffsetOf g n = getOffsetOf g n' ->
      forall i, (i < getDimension g)%nat -> get n i = get n' i).
Proof.
  intros Hg Hn Hn'. split; [by apply offset_in_grid, fft_centred_coords|].
  by apply fft_offsets_inj.
Qed.

Lemma fft_offsets_one_to_one_witness :
  let g : complex_grid := MkGrid [(1, 0); (2, 0); (3, 0); (4, 0)]%R 1 [4] FFT_INDEX in
  0 <= getOffsetOf g [-2] < 4.
Proof.
  intros g.
  assert (Hg : fft_grid g).
  { split; [|split; [done|split; [cbn; lia|]]].
    - split; [done|]. split; [cbn; lia|]. split; [|done].
      repeat constructor; unfold SIZE_MAX; lia.
    - repeat constructor; unfold INT_MAX; lia. }
  assert (Hc : fft_centred (getExtents g) [-2]).
  { intros i Hi. cbn in Hi. destruct i as [|i]; [|lia].
    cbn. change (4 `div` 2) with 2. lia. }
  exact (proj1 (fft_offsets_one_to_one g [-2] [-2] Hg Hc Hc)).
Defined.

End FftOffsets.

Section GridIndex.
Context {V : Type} `{Zero V}.
Import Randomize.

Lemma cells_upto_pos' k extents :
  (forall i, (i < k)%nat -> 0 < get extents i) -> 0 < cells_upto k extents.
Proof.
  induction k as [|k IH]; intros He; [done|].
  rewrite cells_upto_S. specialize (IH ltac:(intros; apply He; lia)).
  specialize (He k ltac:(lia)). nia.
Qed.

Lemma cells_upto_le k D extents :
  (forall i, (i < D)%nat -> 0 < get extents i) -> (k <= D)%nat ->
  cells_upto k extents <= cells_upto D extents.
Proof.
  intros He. induction D as [|D IH]; intros Hk.
  - by replace k with 0%nat by lia.
  - destruct (decide (k = S D)) as [->|Hne]; [done|].
    specialize (IH ltac:(intros; apply He; lia) ltac:(lia)).
    rewrite cells_upto_S.
    pose proof (cells_upto_pos' D extents ltac:(intros; apply He; lia)).
    specialize (He D ltac:(lia)). nia.
Qed.

Lemma box_count_cells k m extents :
  (forall i, (i < k)%nat ->
     get (MultiIndex.mLowerBound m) i = 0 /\
     get (MultiIndex.mUpperBound m) i = get extents i) ->
  box_count_upto k m = cells_upto k extents.
Proof.
  induction k as [|k IH]; intros Hb; [done|].
  rewrite box_count_upto_S, cells_upto_S, IH by (intros; apply Hb; lia).
  destruct (Hb k ltac:(lia)) as [-> ->]. lia.
Qed.

Lemma rank_identity k m extents :
  (forall i, (i < k)%nat ->
     get (MultiIndex.mLowerBound m) i = 0 /\
     get (MultiIndex.mUpperBound m) i = get extents i) ->
  (forall i, (i < k)%nat ->
     0 <= get (MultiIndex.mCurrentPos m) i < get extents i) ->
  cells_upto k extents <= SIZE_MAX ->
  IdentityIndexFn k (MultiIndex.mCurrentPos m) extents = box_rank_upto k m.
Proof.
  induction k as [|k IH]; intros Hb Hc Hmax; [done|].
  assert (He : forall i, (i < S k)%nat -> 0 < get extents i)
    by (intros i Hi; specialize (Hc i Hi); lia).
  pose proof (cells_upto_le k (S k) extents He ltac:(lia)) as Hle.
  specialize (IH ltac:(intros; apply Hb; lia) ltac:(intros; apply Hc; lia) ltac:(lia)).
  assert (Cn : coords_in_range k extents (MultiIndex.mCurrentPos m))
    by (apply nonneg_coords; intros i Hi; apply Hc; lia).
  pose proof (FFTIndexFn_bound k extents (MultiIndex.mCurrentPos m) Cn ltac:(lia)) as B.
  rewrite <- Identity_as_FFT in B by (intros i Hi; apply Hc; lia).
  rewrite IdentityIndexFn_S, box_rank_upto_S, <- IH.
  destruct (Hb k ltac:(lia)) as [-> ->]. specialize (Hc k ltac:(lia)).
  rewrite cells_upto_S in Hmax.
  rewrite to_size_t_id by (unfold size_range; nia). lia.
Qed.

Lemma getIndex_loop_ok (g : DynamicGrid V) k :
  (k <= length (mExtents g))%nat ->
  (length (mExtents g) <= MultiIndex.MAX_MULTIINDEX_DIMENSION)%nat ->
  (forall i, (i < length (mExtents g))%nat -> 0 <= get (mExtents g) i <= INT_MAX) ->
  forall idx,
    MultiIndex.mIsValid idx = false ->
    length (MultiIndex.mUpperBound idx) = MultiIndex.MAX_MULTIINDEX_DIMENSION ->
    Forall int_range (MultiIndex.mUpperBound idx) ->
    exists idx',
      fold_left (getIndex_step g) (seq 0 k) (Ok idx) = Ok idx' /\
      MultiIndex.mIsValid idx' = false /\
      MultiIndex.mLowerBound idx' = MultiIndex.mLowerBound idx /\
      MultiIndex.mCurrentPos idx' = MultiIndex.mCurrentPos idx /\
      MultiIndex.mDimension idx' = MultiIndex.mDimension idx /\
      length (MultiIndex.mUpperBound idx') = MultiIndex.MAX_MULTIINDEX_DIMENSION /\
      Forall int_range (MultiIndex.mUpperBound idx') /\
      forall i, (i < k)%nat -> get (MultiIndex.mUpperBound idx') i = get (mExtents g) i.
Proof.
  intros Hk H4 He. induction k as [|k IH]; intros idx Hv Lu Ru.
  - exists idx. cbn. repeat split; try done. intros i Hi. lia.
  - destruct (IH ltac:(lia) idx Hv Lu Ru) as (idx1 & E1 & Hv1 & El1 & Ec1 & Ed1 & Lu1 & Ru1 & Hb1).
    rewrite seq_S, fold_left_app, E1. cbn [fold_left Nat.add].
    unfold getIndex_step. rewrite (result_bind_ok (Ok idx1) _ idx1) by done.
    specialize (He k ltac:(lia)).
    rewrite wrap_int_id by (unfold int_range, INT_MIN, INT_MAX in *; lia).
    rewrite setUpperBoundAt_ok; [|done|lia].
    eexists. split; [reflexivity|]. cbn.
    split; [done|]. split; [done|]. split; [done|]. split; [done|].
    split; [by rewrite length_insert|].
    split; [apply Forall_insert_range;
            [done | unfold int_range, INT_MIN, INT_MAX in *; lia]|].
    intros i Hi. destruct (decide (i = k)) as [->|Hne].
    + rewrite get_insert_eq by lia. done.
    + rewrite get_insert_ne by done. apply Hb1. lia.
Qed.

(** X10. [getIndex] of a grid built by the constructor whose extents
    are positive and fit [int]: a grid of more than 4 axes has no index
    ([logic_error], the capacity of MultiIndex); otherwise the index is
    started, has as many positions as the grid has cells, and in IDENTITY
    access mode the loop [for(; index.valid(); ++index)] visits the cells
    in storage order: after [k] increments [getOffsetOf(index)] is
    [k]. *)
Theorem getIndex_visits_cells_in_storage_order (g : DynamicGrid V) :
  wf_grid g -> getAccessMode g = IDENTITY ->
  (forall i, (i < getDimension g)%nat -> 0 < get (getExtents g) i <= INT_MAX) ->
  (4 < getDimension g -> getIndex g = Throw logic_error)%nat
  /\ ((getDimension g <= 4)%nat ->
      exists index,
        getIndex g = Ok index /\
        box_count index = getElementCount g /\
        forall k : nat,
          Z.of_nat k < getElementCount g ->
          MultiIndex.mIsValid (Nat.iter k MultiIndex.incr index) = true /\
          getOffsetOf g (MultiIndex.mCurrentPos (Nat.iter k MultiIndex.incr index))
          = Z.of_nat k).
Proof.
  intros Hg Hm He. pose proof Hg as (Hd & H6 & Hr & Hp).
  destruct (wf_grid_cells g Hg) as [Hc Hmax].
  unfold getDimension, getExtents in *.
  split.
  - intros H4. unfold getIndex, MultiIndex.create.
    by rewrite decide_True by (unfold MultiIndex.MAX_MULTIINDEX_DIMENSION; lia).
  - intros H4. unfold getIndex, MultiIndex.create.
    rewrite decide_False by (unfold MultiIndex.MAX_MULTIINDEX_DIMENSION; lia).
    erewrite result_bind_ok by done.
    erewrite result_bind_ok by done.
    assert (H0 : int_range 0) by (unfold int_range, INT_MIN, INT_MAX; lia).
    destruct (getIndex_loop_ok g (length (mExtents g)) ltac:(lia)
                ltac:(unfold MultiIndex.MAX_MULTIINDEX_DIMENSION; lia)
                ltac:(intros i Hi; specialize (He i ltac:(lia)); lia)
                (MultiIndex.Build (MultiIndex.fill 0) (MultiIndex.fill 0) (MultiIndex.fill 0)
                                  (mDimension g) false))
      as (idx & E & Hv & El & Ec & Ed & Lu & Ru & Hb);
      [done | done | by apply Forall_fill |].
    cbn [MultiIndex.mLowerBound MultiIndex.mUpperBound MultiIndex.mCurrentPos
         MultiIndex.mDimension MultiIndex.mIsValid] in *.
    rewrite E. erewrite result_bind_ok by done.
    assert (Hlo : forall i, (i < mDimension g)%nat -> get (MultiIndex.mLowerBound idx) i = 0).
    { intros i Hi. rewrite El. apply get_fill.
      unfold MultiIndex.MAX_MULTIINDEX_DIMENSION. lia. }
    assert (Hwf : MultiIndex.wf idx).
    { unfold MultiIndex.wf. rewrite El, Ec, Ed.
      repeat split; try done; try (by apply Forall_fill). }
    assert (Hok : MultiIndex.bounds_ok idx = true).
    { apply bounds_ok_spec. intros i Hi. rewrite Ed in Hi.
      rewrite Hlo, Hb by lia. apply He. lia. }
    assert (Einit : MultiIndex.init idx
                    = Ok (MultiIndex.Build (MultiIndex.mLowerBound idx)
                            (MultiIndex.mUpperBound idx) (MultiIndex.mLowerBound idx)
                            (MultiIndex.mDimension idx) true)).
    { unfold MultiIndex.init, MultiIndex.checkNotValid, MultiIndex.valid.
      by rewrite Hv, Hok. }
    rewrite Einit. eexists. split; [reflexivity|].
    set (index := MultiIndex.Build _ _ _ _ true).
    destruct (init_started idx index Hwf Einit) as (Hinv & Hvi & Hrank).
    assert (Hbounds : forall i, (i < mDimension g)%nat ->
              get (MultiIndex.mLowerBound index) i = 0 /\
              get (MultiIndex.mUpperBound index) i = get (mExtents g) i).
    { intros i Hi. cbn. split; [by apply Hlo | apply Hb; lia]. }
    assert (Hcount : box_count index = getElementCount g).
    { rewrite <- Hc. unfold box_count. cbn [index MultiIndex.mDimension]. rewrite Ed.
      by apply box_count_cells. }
    split; [done|].
    intros k Hk.
    destruct (iter_incr_facts k index Hinv Hvi ltac:(lia))
      as ([_ Hbk] & Hvk & Hrk & _ & Elk & Euk & Edk).
    split; [done|].
    unfold getOffsetOf, getAccessMode in *. rewrite Hm. cbn [getIndexFnTemplate].
    set (mk := Nat.iter k MultiIndex.incr index) in *.
    rewrite (rank_identity (mDimension g) mk (mExtents g)).
    + unfold box_rank in Hrk. rewrite Edk in Hrk. cbn [index MultiIndex.mDimension] in Hrk.
      rewrite Ed in Hrk. rewrite Hrk. unfold box_rank in Hrank.
      cbn [index MultiIndex.mDimension] in Hrank. rewrite Ed in Hrank. rewrite Hrank. lia.
    + intros i Hi. rewrite Elk, Euk. by apply Hbounds.
    + intros i Hi.
      assert (Hik : (i < MultiIndex.mDimension mk)%nat)
        by (rewrite Edk; cbn [index MultiIndex.mDimension]; lia).
      destruct (Hbk Hvk i Hik) as [Hin _].
      rewrite Elk, Euk in Hin. destruct (Hbounds i Hi) as [E0 E1].
      rewrite E0, E1 in Hin. exact Hin.
    + exact Hmax.
Qed.

(** X11. [clone] of a grid built by the constructor returns a grid
    with the same cells, extents, dimension and access mode. *)
Theorem clone_is_equal (g : DynamicGrid V) :
  wf_grid g -> clone g = Ok g.
Proof.
  intros (Hd & H6 & Hr & Hp). unfold clone.
  rewrite (create_ok _ _ _ Hp) by lia.
  erewrite result_bind_ok by done. cbn [mData mDimension mExtents mTrafoType].
  rewrite drop_ge by (rewrite length_replicate, Nat2Z.id; done).
  rewrite app_nil_r, <- Hd. by destruct g.
Qed.

End GridIndex.

Lemma getIndex_visits_cells_in_storage_order_witness :
  let g : DynamicGrid Z := MkGrid [10; 11; 12; 13; 14; 15] 2 [2; 3] IDENTITY in
  exists index,
    getIndex g = Ok index /\
    getOffsetOf g (MultiIndex.mCurrentPos (Nat.iter 4 MultiIndex.incr index)) = 4.
Proof.
  intros g.
  assert (Hg : wf_grid g).
  { split; [done|]. split; [cbn; lia|]. split; [|done].
    repeat constructor; unfold SIZE_MAX; lia. }
  destruct (getIndex_visits_cells_in_storage_order g Hg eq_refl) as [_ Hi].
  - intros i Hi. cbn in Hi.
    destruct i as [|[|i]]; [cbn; unfold INT_MAX; lia | cbn; unfold INT_MAX; lia | lia].
  - destruct (Hi ltac:(cbn; lia)) as (index & E & _ & Hk).
    exists index. split; [exact E|]. apply (Hk 4%nat). vm_compute. reflexivity.
Defined.

Lemma clone_is_equal_witness :
  let g : DynamicGrid Z := MkGrid [10; 11; 12; 13; 14; 15] 2 [2; 3] PERIODIC in
  clone (H := 0) g = Ok g.
Proof.
  intros g. apply clone_is_equal.
  split; [done|]. split; [cbn; lia|]. split; [|done].
  repeat constructor; unfold SIZE_MAX; lia.
Defined.

(* ===================================================================== *)
(** ** util.hpp: [safe_product] *)
(* ===================================================================== *)

Lemma safe_product_nonneg_from l p n :
  fold_left safe_product_step l (Ok p) = Ok n -> Forall (fun f => 0 <= f) l.
Proof.
  revert p. induction l as [|f l IH]; intros p E; [constructor|].
  cbn [fold_left] in E. unfold safe_product_step at 2 in E.
  rewrite (result_bind_ok (Ok p) _ p) in E by done.
  destruct (f <? 0) eqn:Ef; [by rewrite safe_product_step_throw in E|].
  destruct (negb (f =? 0) && (SIZE_MAX / f <=? p));
    [by rewrite safe_product_step_throw in E|].
  apply Z.ltb_ge in Ef. constructor; [done | by eapply IH].
Qed.

Lemma safe_product_throws_from l r e :
  fold_left safe_product_step l r = Throw e ->
  (r = Throw e \/ e = overflow_error).
Proof.
  revert r. induction l as [|f l IH]; intros r E; [by left|].
  cbn [fold_left] in E. apply IH in E as [E|E]; [|by right].
  destruct r as [p|e']; [|left; exact E].
  right. unfold safe_product_step in E.
  rewrite (result_bind_ok (Ok p) _ p) in E by done.
  destruct (f <? 0); [congruence|].
  destruct (negb (f =? 0) && (SIZE_MAX / f <=? p)); congruence.
Qed.

Lemma fold_mul_ge l p :
  1 <= p -> Forall (fun f => 1 <= f) l -> p <= fold_left Z.mul l p.
Proof.
  intros Hp Hl. revert p Hp. induction Hl as [|f l Hf _ IH]; intros p Hp; [cbn; lia|].
  cbn [fold_left]. specialize (IH (p * f) ltac:(nia)). nia.
Qed.

Lemma safe_product_fits_from l p :
  1 <= p -> Forall (fun f => 1 <= f) l -> 2 * fold_left Z.mul l p <= SIZE_MAX ->
  fold_left safe_product_step l (Ok p) = Ok (fold_left Z.mul l p).
Proof.
  intros Hp Hl. revert p Hp. induction Hl as [|f l Hf Hl IH]; intros p Hp Hmax; [done|].
  cbn [fold_left] in *. unfold safe_product_step at 2.
  rewrite (result_bind_ok (Ok p) _ p) by done.
  pose proof (fold_mul_ge l (p * f) ltac:(nia) Hl) as Hge.
  rewrite (proj2 (Z.ltb_ge _ _)) by lia.
  assert (Hdiv : p + 1 <= SIZE_MAX / f) by (apply Z.div_le_lower_bound; nia).
  rewrite (proj2 (Z.leb_gt _ _)) by lia. rewrite andb_false_r.
  rewrite to_size_t_id by (unfold size_range; nia).
  apply IH; [nia | done].
Qed.

(** X12. [safe_product] never returns a wrapped product: when it
    returns, no factor is negative and the result is the exact product
    of the factors, below 2^64; every exception it throws is
    [overflow_error].  It returns whenever all factors are at least 1 and
    twice their product fits [std::size_t]; its guard [p >= max / f] is
    stricter than the overflow itself, so a single factor above
    [max / 2] is rejected even though it fits. *)
Theorem safe_product_exact_or_overflow (factors : list Z) :
  (forall n, safe_product factors = Ok n ->
     Forall (fun f => 0 <= f) factors /\ n = fold_left Z.mul factors 1 /\ 0 <= n <= SIZE_MAX)
  /\ (forall e, safe_product factors = Throw e -> e = overflow_error)
  /\ (Forall (fun f => 1 <= f) factors -> 2 * fold_left Z.mul factors 1 <= SIZE_MAX ->
      safe_product factors = Ok (fold_left Z.mul factors 1))
  /\ (forall f, SIZE_MAX / 2 < f -> safe_product [f] = Throw overflow_error).
Proof.
  split; [|split; [|split]].
  - intros n E. pose proof (safe_product_nonneg_from _ _ _ E) as Hn.
    split; [done|]. split.
    + apply safe_product_exact_from; [unfold SIZE_MAX; lia | done | done].
    + by apply safe_product_range in E.
  - intros e E. by apply safe_product_throws_from in E as [E|E].
  - intros Hl Hmax. by apply safe_product_fits_from.
  - intros f Hf. unfold safe_product. cbn [fold_left]. unfold safe_product_step.
    rewrite (result_bind_ok (Ok 1) _ 1) by done.
    assert (Hpos : 0 < f).
    { assert (0 <= SIZE_MAX / 2) by (unfold SIZE_MAX; apply Z.div_pos; lia). lia. }
    rewrite (proj2 (Z.ltb_ge _ _)) by lia.
    rewrite (proj2 (Z.eqb_neq _ _)) by lia.
    assert (Hq : SIZE_MAX / f <= 1).
    { apply Z.lt_succ_r. apply Z.div_lt_upper_bound; [done|].
      assert (SIZE_MAX <= 2 * (SIZE_MAX / 2) + 1).
      { rewrite (Z.div_mod SIZE_MAX 2) at 1 by lia.
        pose proof (Z.mod_pos_bound SIZE_MAX 2 ltac:(lia)). lia. }
      lia. }
    by rewrite (proj2 (Z.leb_le _ _)) by done.
Qed.

(* ===================================================================== *)
(** ** Loading a grid: what is rejected *)
(* ===================================================================== *)

Section GridLoadRejects.
Context {V W : Type} {ZV : Zero V} {SV : Serial V} {ZW : Zero W} {SW : Serial W}.

(** X13. [DynamicGrid<W>::load] rejects with [runtime_error] a stream
    whose first byte is not the grid marker ['g'], and the dump of a grid
    of another cell type (one whose [typeid] name differs): the cells of
    the dump are not read as [W]. *)
Theorem load_rejects_foreign_input (g : DynamicGrid V) (b : byte) (rest : list byte) :
  wf_grid g ->
  (b <> "g"%byte -> load (V := W) (b :: rest) = Throw runtime_error)
  /\ (type_name (V := V) <> type_name (V := W) ->
      load (V := W) (dump g ++ rest) = Throw runtime_error).
Proof.
  intros (Hd & H6 & Hr & Hp). split.
  - intros Hb. unfold load. apply rbind_throw.
    unfold load_info. unfold mbind, reader_bind, rbind. cbn [read_byte].
    by rewrite decide_False.
  - intros Hne. unfold load, dump. rewrite <- !app_assoc.
    erewrite rbind_ok by (apply load_info_dump; [done | lia | done]).
    rewrite (create_ok _ _ _ Hp) by lia.
    unfold mbind at 1, reader_bind, rbind, rlift.
    cbn [mData]. apply rbind_throw.
    unfold storage_load, storage_dump. rewrite <- !app_assoc. cbn [app].
    erewrite rbind_ok by (apply getline_nul_app, type_name_c_string).
    erewrite rbind_ok by apply readInteger_write.
    by rewrite decide_False.
Qed.

End GridLoadRejects.

Lemma load_rejects_foreign_input_witness :
  load (V := float64) ("x"%byte :: writeInteger 1) = Throw runtime_error.
Proof.
  assert (Hg : wf_grid (MkGrid [float64_zero; float64_zero] 1 [2] IDENTITY)).
  { split; [done|]. split; [cbn; lia|]. split; [|done].
    repeat constructor; unfold SIZE_MAX; lia. }
  apply (proj1 (load_rejects_foreign_input (V := float64) (W := float64) _ "x"%byte
                  (writeInteger 1) Hg)).
  discriminate.
Defined.

(* ===================================================================== *)
(** ** Potential: storing and finding grids *)
(* ===================================================================== *)

Section PotentialLookup.
Import Potential.

Lemma lexicographical_compare_total {A} (lt : A -> A -> bool) a b :
  (forall x y, lt x y = false -> lt y x = false -> x = y) ->
  lexicographical_compare lt a b = false -> lexicographical_compare lt b a = false ->
  a = b.
Proof.
  intros Ht. revert b. induction a as [|x a IH]; intros [|y b]; cbn; try done.
  destruct (lt x y) eqn:E1; [done|]. destruct (lt y x) eqn:E2; [done|].
  intros H1 H2. rewrite (Ht x y E1 E2). f_equal. by apply IH.
Qed.

Lemma byte_lt_total x y : byte_lt x y = false -> byte_lt y x = false -> x = y.
Proof.
  unfold byte_lt. rewrite !Z.ltb_ge. intros H1 H2.
  rewrite <- (byte_of_Z_of_byte x), <- (byte_of_Z_of_byte y). f_equal. lia.
Qed.

Lemma Zltb_total x y : (x <? y) = false -> (y <? x) = false -> x = y.
Proof. rewrite !Z.ltb_ge. lia. Qed.

Lemma key_equiv_eq a b : key_lt a b = false -> key_lt b a = false -> a = b.
Proof.
  unfold key_lt. destruct a as [na da], b as [nb db]. cbn [name derivations].
  destruct (lexicographical_compare byte_lt na nb) eqn:E1; [done|].
  destruct (lexicographical_compare byte_lt nb na) eqn:E2; [intros _; done|].
  pose proof (lexicographical_compare_total _ _ _ byte_lt_total E1 E2) as ->.
  rewrite !decide_True by done. intros H1 H2.
  by rewrite (lexicographical_compare_total _ _ _ Zltb_total H1 H2).
Qed.

Lemma key_lt_irrefl a : key_lt a a = false.
Proof.
  destruct (key_lt a a) eqn:E; [|done]. pose proof (key_lt_asym a a E). congruence.
Qed.

Lemma key_ne_lt a b : a <> b -> key_lt a b || key_lt b a = true.
Proof.
  intros Hne. destruct (key_lt a b) eqn:E1; [done|].
  destruct (key_lt b a) eqn:E2; [done|]. by destruct Hne; apply key_equiv_eq.
Qed.

Lemma map_find_assign_eq k v (m : map_type) : map_find k (map_assign k v m) = Some v.
Proof.
  induction m as [|[k' v'] m IH]; cbn [map_assign map_find].
  - by rewrite key_lt_irrefl.
  - destruct (key_lt k k') eqn:E1; cbn [map_find].
    + by rewrite key_lt_irrefl.
    + destruct (key_lt k' k) eqn:E2; cbn [map_find]; rewrite E1, E2; done.
Qed.

Lemma map_find_assign_ne k k2 v (m : map_type) :
  k2 <> k -> map_find k2 (map_assign k v m) = map_find k2 m.
Proof.
  intros Hne. pose proof (key_ne_lt k2 k Hne) as Hlt.
  induction m as [|[k' v'] m IH]; cbn [map_assign map_find].
  - by rewrite Hlt.
  - destruct (key_lt k k') eqn:E1; cbn [map_find].
    + by rewrite Hlt.
    + destruct (key_lt k' k) eqn:E2; cbn [map_find].
      * by rewrite IH.
      * rewrite (key_equiv_eq k k' E1 E2) in Hlt. by rewrite Hlt.
Qed.

(** X14. What [setDerivative] stores is what [getDerivative] finds:
    after a successful [setDerivative(deriv, data, name)],
    [getDerivative(deriv, name)] returns [data] (a grid stored before
    under this key is replaced), and [getDerivative] of every other
    key (another name or another derivative index) answers as before the
    call. *)
Theorem setDerivative_then_getDerivative deriv data name_ p p' :
  setDerivative deriv data name_ p = Ok p' ->
  getDerivative deriv name_ p' = Ok data
  /\ (forall deriv' name', (name', deriv') <> (name_, deriv) ->
        getDerivative deriv' name' p' = getDerivative deriv' name' p).
Proof.
  unfold setDerivative. case_decide as Hl; [done|]. case_decide as Hd; [done|].
  intros E. inversion E; subst p'; clear E.
  unfold getDerivative. cbn [with_data mDimension mData]. split.
  - case_decide; [done|]. by rewrite map_find_assign_eq.
  - intros deriv' name' Hne. case_decide; [done|].
    rewrite map_find_assign_ne; [done|]. intros Ek. apply Hne. by inversion Ek.
Qed.

Lemma setDerivative_then_getDerivative_witness :
  let g : grid_type := MkGrid [float64_zero; minus_one] 1 [2] IDENTITY in
  let p := create [2] [minus_one] minus_one in
  exists p', setPotential g potential_name p = Ok p' /\
             getPotential potential_name p' = Ok g.
Proof.
  intros g p. eexists. split; [reflexivity|].
  apply (setDerivative_then_getDerivative [0] g potential_name p). reflexivity.
Defined.

(** The calls of a sequence that do not name the key [k] leave its
    entry as it is. *)
Lemma setDerivatives_other_keys calls :
  forall p p' deriv name_,
    setDerivatives calls p = Ok p' ->
    mDimension p' = mDimension p /\
    (Forall (fun c => (c.1.1, c.2) <> (deriv, name_)) calls ->
     map_find (MkIndex name_ deriv) (mData p') = map_find (MkIndex name_ deriv) (mData p)).
Proof.
  induction calls as [|[[d g] n] calls IH]; intros p p' deriv name_ E; cbn in E.
  - by inversion E.
  - unfold setDerivative in E. case_decide as Hl; [done|]. case_decide as Hd; [done|].
    cbn in E. destruct (IH _ _ deriv name_ E) as [Hdim Hfind].
    split; [done|]. intros Hall. apply Forall_cons in Hall as [Hne Hall].
    rewrite (Hfind Hall). cbn [with_data mData].
    apply map_find_assign_ne. intros Ek. apply Hne. by inversion Ek.
Qed.

Lemma setDerivatives_app before after :
  forall p p',
    setDerivatives (before ++ after) p = Ok p' ->
    exists p1, setDerivatives before p = Ok p1 /\ setDerivatives after p1 = Ok p'.
Proof.
  induction before as [|[[d g] n] before IH]; intros p p' E; cbn in E.
  - by exists p.
  - destruct (setDerivative d g n p) as [q|e] eqn:Eq; [|done]. cbn in E.
    destruct (IH _ _ E) as (p1 & E1 & E2). exists p1. split; [|done].
    cbn. by rewrite Eq.
Qed.

(** X15. [getDerivative] finds what the history of set calls stored
    and nothing else.  On a potential made by the constructor and a
    sequence of successful [setDerivative] calls, [getDerivative(deriv,
    name)] throws [runtime_error] when [deriv] has not as many entries
    as the potential has axes, throws [out_of_range] when [deriv] has the
    right size and no call of the sequence was made with this index and
    this name, and returns the grid of the last call that was made with
    them. *)
Theorem getDerivative_of_missing_grid extents support strength calls (p : t)
        deriv name_ :
  setDerivatives calls (create extents support strength) = Ok p ->
  (length deriv <> length extents ->
     getDerivative deriv name_ p = Throw runtime_error)
  /\ (length deriv = length extents ->
      Forall (fun c => (c.1.1, c.2) <> (deriv, name_)) calls ->
      getDerivative deriv name_ p = Throw out_of_range)
  /\ (forall before data after,
        calls = before ++ (deriv, data, name_) :: after ->
        Forall (fun c => (c.1.1, c.2) <> (deriv, name_)) after ->
        getDerivative deriv name_ p = Ok data).
Proof.
  intros E.
  destruct (setDerivatives_other_keys calls _ _ deriv name_ E) as [Hdim Hfind].
  cbn [create mDimension mData] in Hdim, Hfind.
  split; [|split].
  - intros Hl. unfold getDerivative. rewrite decide_True; [done|]. by rewrite Hdim.
  - intros Hl Hall. unfold getDerivative. rewrite decide_False by (rewrite Hdim; auto).
    by rewrite (Hfind Hall).
  - intros before data after -> Hall.
    destruct (setDerivatives_app _ _ _ _ E) as (p1 & E1 & E2).
    cbn in E2. destruct (setDerivative deriv data name_ p1) as [p2|e] eqn:E3; [|done].
    cbn in E2.
    destruct (setDerivatives_other_keys after _ _ deriv name_ E2) as [Hdim2 Hfind2].
    unfold setDerivative in E3. case_decide as Hl; [done|]. case_decide as Hd; [done|].
    inversion E3; subst p2; clear E3.
    cbn [with_data mDimension mData] in Hdim2, Hfind2.
    unfold getDerivative. rewrite decide_False by (rewrite Hdim2; auto).
    by rewrite (Hfind2 Hall), map_find_assign_eq.
Qed.

Lemma getDerivative_of_missing_grid_witness :
  let g : grid_type := MkGrid [float64_zero; minus_one] 1 [2] IDENTITY in
  let p := with_data (create [2] [minus_one] minus_one)
                     [(MkIndex potential_name [1], g)] in
  getDerivative [0] potential_name p = Throw out_of_range
  /\ getDerivative [1] potential_name p = Ok g.
Proof.
  intros g p.
  destruct (getDerivative_of_missing_grid [2] [minus_one] minus_one
              [([1], g, potential_name)] p [0] potential_name eq_refl)
    as (_ & H0 & _).
  destruct (getDerivative_of_missing_grid [2] [minus_one] minus_one
              [([1], g, potential_name)] p [1] potential_name eq_refl)
    as (_ & _ & H1).
  split.
  - apply H0; [done|]. repeat constructor. intros Ek. by inversion Ek.
  - apply (H1 [] g []); [done | constructor].
Defined.

End PotentialLookup.

(* ===================================================================== *)
(** ** Binary I/O of integers and of caustic records *)
(* ===================================================================== *)

(** X16. [writeInteger] always writes 8 bytes; [readInteger] of what it
    wrote returns the value reduced modulo 2^64 and leaves the rest of
    the stream; a (possibly negative) [int] written this way and read
    back with the conversion to [int], as the derivative indices of a
    potential file are, is returned unchanged. *)
Theorem integer_write_read (v : Z) (rest : list byte) :
  length (writeInteger v) = 8%nat
  /\ readInteger (writeInteger v ++ rest) = Ok (v mod 2 ^ 64, rest)
  /\ (int_range v -> Potential.read_int (writeInteger v ++ rest) = Ok (v, rest)).
Proof.
  split; [apply le_bytes_length|]. split; [apply readInteger_write|].
  apply read_int_write.
Qed.

Section CausticFileFacts.
Import Caustic.

Lemma readVec_writeVec v rest : readVec (length v) (writeVec v ++ rest) = Ok (v, rest).
Proof. apply read_n_floats. Qed.

(** X17. A caustic record written by [Caustic::write] is read back
    unchanged by [Caustic::read] into an object whose four vectors have
    the sizes of the written ones (as [Caustic(dimension)] makes them),
    and the stream is left after the record; the trajectory number is a
    64-bit value and the caustic index one byte. *)
Theorem caustic_write_read (c c0 : Caustic.t) (rest : list byte) :
  size_range (mTrajectory c) -> 0 <= mIndex c < 256 ->
  length (mCausticPosition c0) = length (mCausticPosition c) ->
  length (mCausticVelocity c0) = length (mCausticVelocity c) ->
  length (mInitialPosition c0) = length (mInitialPosition c) ->
  length (mInitialVelocity c0) = length (mInitialVelocity c) ->
  read c0 (write c ++ rest) = Ok (c, rest).
Proof.
  intros Ht Hi L1 L2 L3 L4. unfold read, write. rewrite L1, L2, L3, L4.
  rewrite <- !app_assoc.
  erewrite rbind_ok by apply readInteger_write.
  erewrite rbind_ok by apply readVec_writeVec.
  erewrite rbind_ok by apply readVec_writeVec.
  erewrite rbind_ok by apply readVec_writeVec.
  erewrite rbind_ok by apply readVec_writeVec.
  erewrite rbind_ok by apply readFloat_write.
  erewrite rbind_ok by reflexivity.
  unfold mret, reader_ret, rret.
  rewrite to_size_t_id by done. rewrite Z_of_byte_of_Z, Z.mod_small by done.
  by destruct c.
Qed.

Lemma caustic_write_read_witness :
  let c := Build 7 [Potential.minus_one; float64_zero] [float64_zero; float64_zero]
                 [float64_zero; Potential.minus_one] [Potential.minus_one; Potential.minus_one] Potential.minus_one 255 in
  read (create 2) (write c ++ [x2a]) = Ok (c, [x2a]).
Proof.
  intros c. apply caustic_write_read; try reflexivity.
  - unfold size_range, SIZE_MAX. cbn. lia.
  - cbn. lia.
Defined.

End CausticFileFacts.

(* ===================================================================== *)
(** ** Caustic observer: the records of one trajectory *)
(* ===================================================================== *)

Section CausticNumbering.
Import CausticObserver.

Lemma size_t_mod_256 x y : (to_size_t x + y) mod 256 = (x + y) mod 256.
Proof.
  unfold to_size_t. rewrite (Z.add_mod (x mod 2 ^ 64)) by lia.
  rewrite Z.mod_mod_divide by (exists (2 ^ 56); reflexivity).
  by rewrite <- Z.add_mod by lia.
Qed.

Lemma watch_steps_records steps :
  forall o,
    exists new,
      mCausticPositions (watch_steps steps o) = mCausticPositions o ++ new
      /\ (forall (j : nat) c, new !! j = Some c ->
            mIndex c = (mCausticCount o + Z.of_nat j + 1) mod 256 /\
            mTrajectory c = mParticleNumber o /\
            mInitialPosition c = getPosition (getState (mCachedInitialCondition o)) /\
            mInitialVelocity c = getVelocity (getState (mCachedInitialCondition o)))
      /\ (mBreakOnFirst o = true -> (length new <= 1)%nat).
Proof.
  induction steps as [|[state time] steps IH]; intros o.
  { exists []. cbn. rewrite app_nil_r. split; [done|]. split; [done | lia]. }
  cbn [watch_steps]. unfold watch.
  destruct (sign_change time (signed_area_of o state) (mOldArea o)) eqn:E.
  - set (nc := new_caustic state time (signed_area_of o state) o).
    destruct (mBreakOnFirst o) eqn:Eb.
    + exists [nc]. split; [done|]. split; [|cbn; lia].
      intros [|j] c Hc; [|done]. cbn in Hc. inversion Hc; subst c.
      cbn. rewrite Z.add_0_r. done.
    + set (o' := update_cache _ _ _ _).
      destruct (IH o') as (new & Hn & Hidx & Hbr).
      exists (nc :: new). split; [|split].
      * rewrite Hn. cbn. by rewrite <- app_assoc.
      * intros [|j] c Hc.
        -- cbn in Hc. inversion Hc; subst c. cbn. rewrite Z.add_0_r. done.
        -- cbn in Hc. destruct (Hidx j c Hc) as (H1 & H2 & H3 & H4).
           cbn in H1, H2, H3, H4. rewrite H1.
           split; [|done].
           rewrite <- Z.add_assoc, size_t_mod_256. f_equal. lia.
      * done.
  - set (o' := update_cache _ _ _ _).
    destruct (IH o') as (new & Hn & Hidx & Hbr).
    exists new. split; [exact Hn|]. split; [exact Hidx | exact Hbr].
Qed.

(** X18. The records one trajectory adds: tracing a trajectory
    ([startTrajectory], then [watch] after every step for as long as it
    returns [true]) appends records to the list and changes none that
    was there; the [j]-th record added (counting from 1) carries the
    caustic index [j mod 256] (the counter is stored in one byte, so the
    256th caustic of a trajectory gets index 0), the number of the
    trajectory and the position and velocity of its initial condition;
    with break-on-first at most one record is added. *)
Theorem trajectory_numbers_its_caustics start (id : Z) steps (o : CausticObserver.t) :
  exists new,
    mCausticPositions (trajectory start id steps o) = mCausticPositions o ++ new
    /\ (forall (j : nat) c, new !! j = Some c ->
          mIndex c = (Z.of_nat j + 1) mod 256 /\
          mTrajectory c = id /\
          mInitialPosition c = getPosition (getState start) /\
          mInitialVelocity c = getVelocity (getState start))
    /\ (mBreakOnFirst o = true -> (length new <= 1)%nat).
Proof.
  unfold trajectory.
  destruct (watch_steps_records steps (startTrajectory start id o)) as (new & Hn & Hidx & Hbr).
  exists new. split; [exact Hn|]. split; [|exact Hbr].
  intros j c Hc. destruct (Hidx j c Hc) as (H1 & H2 & H3 & H4).
  cbn in H1, H2, H3, H4. by rewrite Z.add_0_l in H1.
Qed.

End CausticNumbering.

(* ===================================================================== *)
(** ** Linear interpolation: grid points and bounds *)
(* ===================================================================== *)

Section InterpolationFacts.
Local Open Scope R_scope.

Lemma interpolate_between a b t lo hi :
  lo <= a <= hi -> lo <= b <= hi -> 0 <= t <= 1 ->
  lo <= interpolate_linear_1d a b t <= hi.
Proof. intros Ha Hb Ht. unfold interpolate_linear_1d. nra. Qed.

(** Inside the range of [int] the conversion is the floor. *)
Lemma floor_int_id (x : R) :
  IZR INT_MIN <= x < IZR INT_MAX ->
  floor_int x = Int_part x /\ (INT_MIN <= Int_part x < INT_MAX)%Z.
Proof.
  intros [H1 H2]. destruct (base_Int_part x) as [B1 B2].
  assert (G1 : (INT_MIN - 1 < Int_part x)%Z).
  { apply lt_IZR. rewrite minus_IZR. lra. }
  assert (G2 : (Int_part x < INT_MAX)%Z) by (apply lt_IZR; lra).
  split; [|lia]. apply wrap_int_id. unfold int_range. lia.
Qed.

(** The periodic index function stays inside the storage, whatever the
    access mode. *)
Lemma PeriodicIndexFn_in_storage {V} (g : DynamicGrid V) (n : list Z) :
  wf_grid g ->
  (forall i, (i < getDimension g)%nat -> (0 < get (getExtents g) i)%Z) ->
  (0 <= PeriodicIndexFn (getDimension g) n (getExtents g) < getElementCount g)%Z.
Proof.
  intros Hg He. destruct (wf_grid_cells g Hg) as [Hc Hmax].
  rewrite Periodic_as_FFT by done.
  rewrite <- Hc. apply FFTIndexFn_bound; [|done].
  apply nonneg_coords. intros i Hi. rewrite get_map_seq by done.
  apply Z.mod_pos_bound. by apply He.
Qed.

Lemma periodic_cell_stored (grid : DynamicGrid R) (base : list Z) :
  wf_grid grid ->
  (forall i, (i < getDimension grid)%nat -> (0 < get (getExtents grid) i)%Z) ->
  cell grid (GetOffsetOf (getDimension grid) base (getExtents grid)) ∈ getContainer grid.
Proof.
  intros Hg He. unfold GetOffsetOf, cell, getContainer.
  pose proof (PeriodicIndexFn_in_storage grid base Hg He) as Hb.
  unfold getElementCount in Hb.
  destruct (lookup_lt_is_Some_2 (mData grid)
              (Z.to_nat (PeriodicIndexFn (getDimension grid) base (getExtents grid)))
              ltac:(lia)) as [c Hc].
  rewrite Hc. cbn [default]. by eapply list_elem_of_lookup_2.
Qed.

Lemma inter_bounded D n (grid : DynamicGrid R) v lo hi :
  (forall base, lo <= cell grid (GetOffsetOf D base (getExtents grid)) <= hi) ->
  forall base,
    (forall i, (i < n)%nat -> get base i = Int_part (getR v i)) ->
    lo <= inter D n grid base v <= hi.
Proof.
  intros Hc. induction n as [|n IH]; intros base Hb; cbn [inter]; [apply Hc|].
  apply interpolate_between.
  - apply IH. intros i Hi. apply Hb. lia.
  - apply IH. intros i Hi. rewrite get_insert_ne by lia. apply Hb. lia.
  - rewrite Hb by lia. destruct (base_Int_part (getR v n)) as [H1 H2]. lra.
Qed.

(** X19. Linear interpolation never overshoots: on a grid in PERIODIC
    access mode of dimension 1 to 3 with non-zero extents, if every
    stored cell lies between [lo] and [hi], then so does
    [linearInterpolate] at every position whose cells are within the
    range of [int]. *)
Theorem linearInterpolate_within_cell_values (grid : DynamicGrid R) (v : list R) lo hi :
  wf_grid grid -> getAccessMode grid = PERIODIC ->
  (1 <= getDimension grid <= 3)%nat ->
  (forall i, (i < getDimension grid)%nat -> (0 < get (getExtents grid) i)%Z) ->
  in_int_cells (getDimension grid) v ->
  Forall (fun c => lo <= c <= hi) (getContainer grid) ->
  lo <= linearInterpolate grid v <= hi.
Proof.
  intros Hg Hm Hd He Hv Hc. unfold linearInterpolate, linearInterpolateF.
  rewrite decide_True by done. rewrite decide_True by done.
  apply inter_bounded.
  - intros base. pose proof (periodic_cell_stored grid base Hg He) as Hin.
    by apply (proj1 (Forall_forall _ _) Hc) in Hin.
  - intros i Hi. rewrite get_map_seq by done.
    by destruct (floor_int_id (getR v i) (Hv i Hi)) as [-> _].
Qed.

Lemma Int_part_IZR z : Int_part (IZR z) = z.
Proof.
  unfold Int_part. rewrite <- (up_tech (IZR z) z); [lia | lra |].
  rewrite plus_IZR. lra.
Qed.

Lemma inter_at_node D n (grid : DynamicGrid R) v :
  forall base,
    (forall i, (i < n)%nat -> getR v i = IZR (get base i)) ->
    inter D n grid base v = cell grid (GetOffsetOf D base (getExtents grid)).
Proof.
  induction n as [|n IH]; intros base Hb; cbn [inter]; [done|].
  rewrite Hb by lia. rewrite (IH base) by (intros i Hi; apply Hb; lia).
  unfold interpolate_linear_1d. lra.
Qed.

Lemma PeriodicIndexFn_ext k a b extends :
  (forall i, (i < k)%nat -> get a i = get b i) ->
  PeriodicIndexFn k a extends = PeriodicIndexFn k b extends.
Proof.
  induction k as [|k IH]; intros Hab; [done|].
  unfold PeriodicIndexFn in *. rewrite seq_S, !fold_left_app.
  rewrite IH by (intros i Hi; apply Hab; lia).
  cbn [fold_left Nat.add]. by rewrite Hab by lia.
Qed.

Lemma getR_map_seq (f : nat -> R) k i : (i < k)%nat -> getR (map f (seq 0 k)) i = f i.
Proof.
  intros Hi. unfold getR. change (map f (seq 0 k)) with (f <$> seq 0 k).
  rewrite list_lookup_fmap, lookup_seq_lt by done. done.
Qed.

(** X20. At a grid point linear interpolation returns the cell: on a
    grid in PERIODIC access mode of dimension 1 to 3 with non-zero
    extents, for integer coordinates [k] with [INT_MIN <= k[i] < INT_MAX]
    (negative or beyond the extents as well), [linearInterpolate] at the
    position [k] is the cell [grid(k)], a cell inside the storage. *)
Theorem linearInterpolate_at_grid_points (grid : DynamicGrid R) (k : list Z) :
  wf_grid grid -> getAccessMode grid = PERIODIC ->
  (1 <= getDimension grid <= 3)%nat ->
  (forall i, (i < getDimension grid)%nat -> (0 < get (getExtents grid) i)%Z) ->
  (forall i, (i < getDimension grid)%nat -> (INT_MIN <= get k i < INT_MAX)%Z) ->
  linearInterpolate grid (map (fun i => IZR (get k i)) (seq 0 (getDimension grid)))
  = at_index grid k
  /\ (0 <= getOffsetOf grid k < getElementCount grid)%Z.
Proof.
  intros Hg Hm Hd He Hk.
  assert (Ho : getOffsetOf grid k
               = PeriodicIndexFn (getDimension grid) k (getExtents grid)).
  { unfold getOffsetOf, getAccessMode in *. by rewrite Hm. }
  split; [|rewrite Ho; by apply PeriodicIndexFn_in_storage].
  unfold linearInterpolate, linearInterpolateF.
  rewrite decide_True by done. rewrite decide_True by done.
  assert (Hf : forall i, (i < getDimension grid)%nat ->
                 floor_int (IZR (get k i)) = get k i).
  { intros i Hi. destruct (floor_int_id (IZR (get k i))) as [-> _].
    - specialize (Hk i Hi). split; [apply IZR_le | apply IZR_lt]; lia.
    - apply Int_part_IZR. }
  rewrite inter_at_node.
  - unfold at_index, GetOffsetOf. rewrite Ho. f_equal.
    apply PeriodicIndexFn_ext. intros i Hi.
    rewrite get_map_seq, getR_map_seq by done. by apply Hf.
  - intros i Hi. rewrite get_map_seq, !getR_map_seq by lia.
    by rewrite Hf by lia.
Qed.

End InterpolationFacts.

Lemma linearInterpolate_within_cell_values_witness :
  let grid : DynamicGrid R := MkGrid [1; 3]%R 1 [2] PERIODIC in
  (1 <= linearInterpolate grid [0.25%R] <= 3)%R.
Proof.
  intros grid.
  assert (Hg : wf_grid grid).
  { split; [done|]. split; [cbn; lia|]. split; [|done].
    repeat constructor; unfold SIZE_MAX; lia. }
  apply (linearInterpolate_within_cell_values grid [0.25%R] 1 3 Hg eq_refl).
  - cbn. lia.
  - intros i Hi. cbn in Hi. destruct i as [|i]; cbn; lia.
  - intros i Hi. cbn in Hi. destruct i as [|i]; [|lia].
    unfold getR, INT_MIN, INT_MAX. cbn.
    change (- 2 ^ 31)%Z with (-2147483648)%Z.
    change (2 ^ 31 - 1)%Z with 2147483647%Z. lra.
  - repeat constructor; lra.
Defined.

Lemma linearInterpolate_at_grid_points_witness :
  let grid : DynamicGrid R := MkGrid [1; 3; 5; 7; 9; 11]%R 2 [2; 3] PERIODIC in
  linearInterpolate grid [(-1)%R; 5%R] = 11%R.
Proof.
  intros grid.
  assert (Hg : wf_grid grid).
  { split; [done|]. split; [cbn; lia|]. split; [|done].
    repeat constructor; unfold SIZE_MAX; lia. }
  destruct (linearInterpolate_at_grid_points grid [-1; 5] Hg eq_refl) as [E _].
  - cbn. lia.
  - intros i Hi. cbn in Hi. destruct i as [|[|i]]; cbn; lia.
  - intros i Hi. cbn in Hi. unfold INT_MIN, INT_MAX.
    destruct i as [|[|i]]; cbn; lia.
  - cbn [getDimension mDimension grid seq map] in E.
    change (get [-1; 5] 0) with (-1)%Z in E. change (get [-1; 5] 1) with 5%Z in E.
    rewrite E. vm_compute. reflexivity.
Defined.

(* ===================================================================== *)
(** ** Radial initial conditions: unit speed *)
(* ===================================================================== *)

Section RadialSpeed.
Local Open Scope R_scope.

(** X21. Every ray of a radial initial condition starts with unit
    speed: for a velocity vector of two entries [RadialWave2D::generate]
    and for one of three entries [RadialWave3D::generate] leave a
    velocity [v] with [std::inner_product(v, v) = 1], for every manifold
    coordinate. *)
Theorem radial_rays_have_unit_speed (p v : gen_vect) (params : list R) :
  (forall w, length v = 2%nat ->
     let v' := snd (RadialWave2D.generate w p v params) in
     inner_product v' v' 0 = 1)
  /\ (forall w, length v = 3%nat ->
        let v' := snd (RadialWave3D.generate w p v params) in
        inner_product v' v' 0 = 1).
Proof.
  split.
  - intros w Hl. destruct v as [|a [|b [|c v]]]; try done.
    cbn. repeat (unfold getR; cbn).
    pose proof (sin2_cos2 (getR params 0 * 2 * PI)) as Hu. unfold Rsqr, getR in Hu. lra.
  - intros w Hl. destruct v as [|a [|b [|c [|d v]]]]; try done.
    cbn. repeat (unfold getR; cbn).
    set (theta := (2 * _ - 1) * PI / 2). set (phi := _ * 2 * PI).
    pose proof (sin2_cos2 theta) as Ht. pose proof (sin2_cos2 phi) as Hp.
    unfold Rsqr in *. nra.
Qed.

End RadialSpeed.

(* ===================================================================== *)
(** ** Phase randomisation: what it leaves unchanged, what it visits *)
(* ===================================================================== *)

Section RandomizeModuli.
Import Randomize.
Local Open Scope R_scope.

Lemma same_moduli_refl g : same_moduli g g.
Proof. by repeat split. Qed.

Lemma same_moduli_trans g1 g2 g3 :
  same_moduli g1 g2 -> same_moduli g2 g3 -> same_moduli g1 g3.
Proof.
  intros (E1 & D1 & M1 & L1 & N1) (E2 & D2 & M2 & L2 & N2).
  split; [congruence|]. split; [congruence|]. split; [congruence|].
  split; [congruence|]. intros k. by rewrite N2, N1.
Qed.

Lemma norm_cmul a f : norm (cmul a f) = norm a * norm f.
Proof. unfold norm, cmul. cbn. ring. Qed.

Lemma norm_unit phase : norm (cos phase, sin phase) = 1.
Proof. unfold norm. cbn. pose proof (sin2_cos2 phase) as H. unfold Rsqr in H. lra. Qed.

Lemma norm_conj a : norm (conj a) = norm a.
Proof. unfold norm, conj. cbn. ring. Qed.

Lemma norm_sign a draw : norm (cscale a (self_conjugate_sign draw)) = norm a.
Proof. unfold norm, cscale, self_conjugate_sign. case_bool_decide; cbn; ring. Qed.

Lemma set_cell_same_moduli (g : complex_grid) offset v :
  norm v = norm (cell g offset) -> same_moduli g (set_cell g offset v).
Proof.
  intros Hv. unfold same_moduli, set_cell. cbn [getExtents getDimension getAccessMode
    mData mDimension mExtents mTrafoType].
  split; [done|]. split; [done|]. split; [done|]. split; [by rewrite length_insert|].
  intros k. destruct (decide (k = Z.to_nat offset)) as [->|Hne].
  - destruct (decide (Z.to_nat offset < length (mData g))%nat) as [Hlt|Hge].
    + rewrite list_lookup_insert_eq by done. cbn. exact Hv.
    + by rewrite list_insert_ge by lia.
  - by rewrite list_lookup_insert_ne by done.
Qed.

Lemma phase_step_same_moduli DIM rnd index (g : complex_grid) drawn :
  same_moduli g (fst (phase_step DIM rnd index (g, drawn))).
Proof.
  unfold phase_step.
  destruct (_ <? _); [|destruct (_ =? _)]; cbn [fst].
  - eapply same_moduli_trans; apply set_cell_same_moduli.
    + rewrite norm_cmul, norm_unit. lra.
    + rewrite norm_cmul, norm_conj, norm_unit. lra.
  - apply set_cell_same_moduli, norm_sign.
  - apply same_moduli_refl.
Qed.

Lemma phase_loop_same_moduli DIM rnd fuel :
  forall index (g : complex_grid) drawn,
    same_moduli g (fst (fst (phase_loop fuel DIM rnd index (g, drawn)))).
Proof.
  induction fuel as [|fuel IH]; intros index g drawn; cbn [phase_loop].
  - apply same_moduli_refl.
  - destruct (MultiIndex.valid index); [|apply same_moduli_refl].
    pose proof (phase_step_same_moduli DIM rnd index g drawn) as Hs.
    destruct (phase_step DIM rnd index (g, drawn)) as [g1 d1].
    eapply same_moduli_trans; [exact Hs | apply IH].
Qed.

Lemma run_task_same_moduli worker_rnd seed (g : complex_grid) task :
  same_moduli g (run_task worker_rnd seed g task).
Proof.
  unfold run_task, randomize_generic, randomize_over_index.
  repeat case_decide; try apply same_moduli_refl;
    (destruct (negb _); [apply same_moduli_refl | apply phase_loop_same_moduli]).
Qed.

Lemma run_tasks_same_moduli worker_rnd seed tasks :
  forall g : complex_grid, same_moduli g (fold_left (run_task worker_rnd seed) tasks g).
Proof.
  induction tasks as [|task tasks IH]; intros g; cbn [fold_left].
  - apply same_moduli_refl.
  - eapply same_moduli_trans; [apply run_task_same_moduli | apply IH].
Qed.


End RandomizeModuli.


Section FftIteration.
Import Randomize.

Lemma fft_box_count k (g : complex_grid) index :
  fft_grid g -> (k <= getDimension g)%nat ->
  (forall i, (i < getDimension g)%nat ->
     get (MultiIndex.mLowerBound index) i = - (get (getExtents g) i / 2) /\
     get (MultiIndex.mUpperBound index) i = get (getExtents g) i / 2) ->
  box_count_upto k index = cells_upto k (getExtents g).
Proof.
  intros Hg. induction k as [|k IH]; intros Hk Hb; [done|].
  rewrite box_count_upto_S, cells_upto_S, IH by (done || lia).
  destruct (Hb k ltac:(lia)) as [-> ->].
  destruct (fft_extent_facts _ (fft_grid_extent g k Hg ltac:(lia))) as (Hp & Hev & _).
  f_equal. rewrite (Z.div_mod (get (getExtents g) k) 2) at 3 by lia. lia.
Qed.

(** X23. The iteration index of phase randomisation addresses every
    cell once: on a grid in FFT_INDEX access mode with even extents,
    [fft_indexing] returns a started index with as many positions as the
    grid has cells; the offset of each position the loop visits lies
    inside the storage, and two different rounds of the loop have
    different offsets. *)
Theorem fft_indexing_addresses_cells_once (g : complex_grid) :
  fft_grid g ->
  exists index,
    fft_indexing g = Ok index /\
    box_count index = getElementCount g /\
    forall k k' : nat,
      Z.of_nat k < getElementCount g -> Z.of_nat k' < getElementCount g ->
      let offset (j : nat) :=
          getOffsetOf g (MultiIndex.mCurrentPos (Nat.iter j MultiIndex.incr index)) in
      MultiIndex.mIsValid (Nat.iter k MultiIndex.incr index) = true /\
      0 <= offset k < getElementCount g /\
      (offset k = offset k' -> k = k').
Proof.
  intros Hg. destruct (fft_indexing_ok g Hg) as (index & E & Hinv & Hv & Hd & Hb).
  exists index. split; [exact E|].
  assert (Hrank : box_rank index = 0).
  { unfold fft_indexing in E.
    destruct (MultiIndex.create (getDimension g)) as [i0|]; [|done].
    rewrite (result_bind_ok (Ok i0) _ i0) in E by done.
    destruct (fold_left _ _ _) as [i1|]; [|done].
    rewrite (result_bind_ok (Ok i1) _ i1) in E by done.
    apply init_ok in E as (_ & _ & ->). by apply init_rank_upto. }
  destruct (fft_grid_cells g Hg) as [Hc Hmax].
  assert (Hcount : box_count index = getElementCount g).
  { unfold box_count, getElementCount. rewrite Hd, <- Hc. by apply fft_box_count. }
  split; [exact Hcount|].
  assert (Hfacts : forall j : nat, Z.of_nat j < getElementCount g ->
            let mj := Nat.iter j MultiIndex.incr index in
            MultiIndex.mIsValid mj = true /\ box_rank mj = Z.of_nat j /\
            MultiIndex.mLowerBound mj = MultiIndex.mLowerBound index /\
            MultiIndex.mUpperBound mj = MultiIndex.mUpperBound index /\
            MultiIndex.mDimension mj = MultiIndex.mDimension index /\
            fft_centred (getExtents g) (MultiIndex.mCurrentPos mj)).
  { intros j Hj.
    destruct (iter_incr_facts j index Hinv Hv ltac:(lia))
      as (Hi & Hvj & Hr & _ & El & Eu & Ed).
    cbv zeta. split; [done|]. split; [lia|]. split; [done|]. split; [done|]. split; [done|].
    apply (index_within_centred g); [done | | done].
    split; [done|]. split; [congruence|]. intros i Hi'.
    rewrite El, Eu. destruct (Hb i Hi') as [-> ->]. lia. }
  intros k k' Hk Hk'. cbv zeta.
  destruct (Hfacts k Hk) as (Hvk & Hrk & Elk & Euk & Edk & Hck).
  destruct (Hfacts k' Hk') as (Hvk' & Hrk' & Elk' & Euk' & Edk' & Hck').
  split; [done|]. split.
  - unfold getElementCount. by apply offset_in_grid, fft_centred_coords.
  - intros Eo.
    pose proof (fft_offsets_inj g _ _ Hg Hck Hck' Eo) as Hpos.
    assert (Er : box_rank (Nat.iter k MultiIndex.incr index)
                 = box_rank (Nat.iter k' MultiIndex.incr index)).
    { unfold box_rank. rewrite Edk, Edk'.
      apply box_rank_upto_ext; [congruence | congruence |].
      intros i Hi. apply Hpos. by rewrite <- Hd. }
    lia.
Qed.

End FftIteration.

Lemma fft_indexing_addresses_cells_once_witness :
  let g : complex_grid := MkGrid [(1, 0); (2, 0)]%R 1 [2] FFT_INDEX in
  exists index, fft_indexing g = Ok index /\ box_count index = 2.
Proof.
  intros g.
  destruct (fft_indexing_addresses_cells_once g) as (index & E & Hc & _).
  - apply real_pair_grid_hermitian.
  - exists index. split; [exact E | exact Hc].
Defined.

(* ===================================================================== *)
(** ** Potential: which derivative orders are complete *)
(* ===================================================================== *)

Section DerivativeOrders.

Lemma hasDerivativesOfOrder_loop_spec fuel order name_ p :
  forall index,
    hasDerivativesOfOrder_loop fuel order name_ p index = true <->
    forall k : nat, (k < fuel)%nat ->
      MultiIndex.mIsValid (Nat.iter k MultiIndex.incr index) = true ->
      ~ (Potential.getOrder (Nat.iter k MultiIndex.incr index) = order /\
         Potential.hasDerivative (Nat.iter k MultiIndex.incr index) name_ p = false).
Proof.
  induction fuel as [|fuel IH]; intros index; cbn [hasDerivativesOfOrder_loop].
  - split; [intros _ k Hk; lia | done].
  - unfold MultiIndex.valid. destruct (MultiIndex.mIsValid index) eqn:Hv.
    + destruct (_ && _) eqn:Ec.
      * split; [done|]. intros Hall. exfalso.
        apply (Hall 0%nat ltac:(lia) Hv).
        apply andb_true_iff in Ec as [E1 E2]. apply Z.eqb_eq in E1.
        apply negb_true_iff in E2. done.
      * rewrite IH. split.
        -- intros Hall [|k] Hk Hvk.
           ++ intros [E1 E2]. change (Nat.iter 0 MultiIndex.incr index) with index in *.
              rewrite E1, Z.eqb_refl, E2 in Ec. done.
           ++ rewrite Nat.iter_succ_r in *. apply Hall; [lia | done].
        -- intros Hall k Hk Hvk. specialize (Hall (S k) ltac:(lia)).
           rewrite Nat.iter_succ_r in Hall. by apply Hall.
    + split; [|done]. intros _ k Hk Hvk. by rewrite iter_incr_invalid in Hvk.
Qed.

Lemma sum_wrap_from (l : list Z) B :
  0 <= B -> Forall (fun d => 0 <= d <= B) l ->
  forall a, 0 <= a -> a + Z.of_nat (length l) * B <= INT_MAX ->
    fold_left (fun acc v => wrap_int (acc + v)) l a = fold_left Z.add l a
    /\ 0 <= fold_left Z.add l a <= INT_MAX.
Proof.
  intros HB Hl. induction Hl as [|d l Hd _ IH]; intros a Ha Hmax.
  - cbn in *. split; [done | lia].
  - cbn [fold_left length] in *.
    rewrite wrap_int_id by (unfold int_range, INT_MIN, INT_MAX in *; nia).
    apply IH; nia.
Qed.

Lemma sum_ge_entries (l : list Z) :
  Forall (fun d => 0 <= d) l ->
  forall a, 0 <= a ->
    a <= fold_left Z.add l a
    /\ forall x, x ∈ l -> x <= fold_left Z.add l a.
Proof.
  intros Hl. induction Hl as [|d l Hd _ IH]; intros a Ha.
  - cbn. split; [lia|]. intros x Hx. by apply elem_of_nil in Hx.
  - cbn [fold_left]. destruct (IH (a + d) ltac:(lia)) as [H1 H2].
    split; [lia|]. intros x Hx. apply elem_of_cons in Hx as [->|Hx]; [lia | by apply H2].
Qed.

Lemma getAsVector_entries m B :
  MultiIndex.wf m ->
  (forall i, (i < MultiIndex.mDimension m)%nat -> 0 <= get (MultiIndex.mCurrentPos m) i <= B) ->
  length (MultiIndex.getAsVector m) = MultiIndex.mDimension m
  /\ Forall (fun d => 0 <= d <= B) (MultiIndex.getAsVector m).
Proof.
  intros (_ & _ & L3 & L4 & _) Hb. unfold MultiIndex.getAsVector. split.
  - apply length_take_le. rewrite L3. exact L4.
  - apply Forall_lookup. intros i x Hx.
    apply lookup_take_Some in Hx as [Hx Hi].
    specialize (Hb i Hi). unfold get in Hb. by rewrite Hx in Hb.
Qed.

Lemma hasDerivativesOfOrder_spec (order : Z) name_ (p : Potential.t) :
  0 <= order < INT_MAX -> Z.of_nat (Potential.mDimension p) * order <= INT_MAX ->
  ((4 < Potential.mDimension p)%nat ->
     hasDerivativesOfOrder order name_ p = Throw logic_error)
  /\ ((Potential.mDimension p <= 4)%nat ->
      exists b, hasDerivativesOfOrder order name_ p = Ok b /\
        (b = true <->
         forall deriv,
           length deriv = Potential.mDimension p ->
           Forall (fun d => 0 <= d) deriv ->
           fold_left Z.add deriv 0 = order ->
           is_Some (Potential.map_find (Potential.MkIndex name_ deriv) (Potential.mData p)))).
Proof.
  intros Ho Hmax. set (D := Potential.mDimension p) in *.
  unfold hasDerivativesOfOrder. fold D. unfold MultiIndex.create.
  split.
  { intros H4. by rewrite decide_True by (unfold MultiIndex.MAX_MULTIINDEX_DIMENSION; lia). }
  intros H4.
  rewrite decide_False by (unfold MultiIndex.MAX_MULTIINDEX_DIMENSION; lia).
  erewrite result_bind_ok by done.
  erewrite result_bind_ok by done.
  rewrite to_size_t_id by (unfold size_range, SIZE_MAX, INT_MAX in *; lia).
  rewrite wrap_int_id by (unfold int_range, INT_MIN, INT_MAX in *; lia).
  erewrite result_bind_ok by done.
  cbn [MultiIndex.mLowerBound MultiIndex.mUpperBound MultiIndex.mCurrentPos
       MultiIndex.mDimension MultiIndex.mIsValid].
  set (pre := MultiIndex.Build (MultiIndex.fill 0) (MultiIndex.fill (order + 1))
                               (MultiIndex.fill 0) D false).
  assert (Hwf : MultiIndex.wf pre).
  { unfold MultiIndex.wf, pre. cbn.
    repeat split; try done; try (unfold MultiIndex.MAX_MULTIINDEX_DIMENSION; lia);
      apply Forall_fill; unfold int_range, INT_MIN, INT_MAX in *; lia. }
  assert (Hok : MultiIndex.bounds_ok pre = true).
  { apply bounds_ok_spec. intros i Hi.
    cbn [pre MultiIndex.mLowerBound MultiIndex.mUpperBound MultiIndex.mDimension] in *.
    rewrite !get_fill by (unfold MultiIndex.MAX_MULTIINDEX_DIMENSION; lia). lia. }
  assert (Einit : MultiIndex.init pre
                  = Ok (MultiIndex.Build (MultiIndex.fill 0) (MultiIndex.fill (order + 1))
                                         (MultiIndex.fill 0) D true)).
  { unfold MultiIndex.init, MultiIndex.checkNotValid, MultiIndex.valid.
    cbn [pre MultiIndex.mIsValid]. rewrite (result_bind_ok (Ok tt) _ tt) by done.
    by rewrite Hok. }
  rewrite Einit. erewrite result_bind_ok by done.
  set (index := MultiIndex.Build _ _ _ D true) in *.
  destruct (init_started pre index Hwf Einit) as (Hinv & Hv & Hrank).
  eexists. split; [reflexivity|].
  rewrite hasDerivativesOfOrder_loop_spec.
  assert (Hget : forall i, (i < D)%nat ->
            get (MultiIndex.mLowerBound index) i = 0 /\
            get (MultiIndex.mUpperBound index) i = order + 1).
  { intros i Hi. cbn [index MultiIndex.mLowerBound MultiIndex.mUpperBound].
    by rewrite !get_fill by (unfold MultiIndex.MAX_MULTIINDEX_DIMENSION; lia). }
  assert (Hvisit : forall k : nat,
            MultiIndex.mIsValid (Nat.iter k MultiIndex.incr index) = true ->
            (Z.of_nat k < box_count index) /\
            length (MultiIndex.getAsVector (Nat.iter k MultiIndex.incr index)) = D /\
            Forall (fun d => 0 <= d <= order)
                   (MultiIndex.getAsVector (Nat.iter k MultiIndex.incr index)) /\
            Potential.getOrder (Nat.iter k MultiIndex.incr index)
            = fold_left Z.add (MultiIndex.getAsVector (Nat.iter k MultiIndex.incr index)) 0).
  { intros k Hvk.
    assert (Hk : Z.of_nat k < box_count index).
    { destruct (decide (Z.of_nat k < box_count index)) as [|Hge]; [done|].
      rewrite (iter_incr_ends k index Hinv Hv) in Hvk by lia. done. }
    destruct (iter_incr_facts k index Hinv Hv ltac:(lia))
      as ([Hwfk Hbk] & _ & _ & _ & El & Eu & Ed).
    set (mk := Nat.iter k MultiIndex.incr index) in *.
    destruct (getAsVector_entries mk order Hwfk) as [Hlen Hall].
    { intros i Hi. rewrite Ed in Hi. cbn in Hi.
      destruct (Hbk Hvk i ltac:(rewrite Ed; cbn; lia)) as [Hc _].
      rewrite El, Eu in Hc. destruct (Hget i Hi) as [E0 E1]. rewrite E0, E1 in Hc. lia. }
    rewrite Ed in Hlen. cbn in Hlen.
    split; [done|]. split; [done|]. split; [done|].
    unfold Potential.getOrder.
    destruct (sum_wrap_from _ order ltac:(lia) Hall 0 ltac:(lia)) as [Es Hs].
    { rewrite Hlen. lia. }
    rewrite Es. apply to_size_t_id. unfold size_range, SIZE_MAX, INT_MAX in *. lia. }
  split.
  - intros Hall deriv Hlen Hnn Hsum.
    destruct (sum_ge_entries deriv Hnn 0 ltac:(lia)) as [_ Hle].
    destruct (iter_reaches_position pre index deriv Hwf Einit) as (k & Hk & Hvk & Ek).
    { done. }
    { intros i Hi. unfold MultiIndex.size in Hi. cbn in Hi.
      destruct (Hget i Hi) as [-> ->].
      destruct (lookup_lt_is_Some_2 deriv i ltac:(lia)) as [x Hx].
      unfold get. rewrite Hx. cbn.
      pose proof (Forall_lookup_1 _ _ _ _ Hnn Hx) as H0. cbn in H0.
      pose proof (Hle x (list_elem_of_lookup_2 _ _ _ Hx)). lia. }
    destruct (Hvisit k Hvk) as (_ & _ & _ & Eord).
    specialize (Hall k ltac:(lia) Hvk).
    unfold Potential.hasDerivative in Hall. rewrite Ek in *.
    destruct (decide (is_Some (Potential.map_find (Potential.MkIndex name_ deriv)
                                                  (Potential.mData p)))) as [|Hno]; [done|].
    exfalso. apply Hall. split; [by rewrite Eord|]. by apply bool_decide_eq_false.
  - intros Hall k Hk Hvk [Eo Eh].
    destruct (Hvisit k Hvk) as (_ & Hlen & Hent & Eord).
    unfold Potential.hasDerivative in Eh. apply bool_decide_eq_false in Eh. apply Eh.
    apply Hall; [done | | congruence].
    eapply Forall_impl; [exact Hent|]. intros d Hd. cbn in Hd. lia.
Qed.

(** X24. [hasDerivativesOfOrder(order, name)] on a potential of at most
    4 axes (for orders within the [int] arithmetic of the index) returns
    [true] exactly when a grid is stored for [name] under every
    derivative index of non-negative entries, one per axis, whose sum is
    [order]; on a potential of more than 4 axes it throws
    [logic_error]. *)
Theorem hasDerivativesOfOrder_checks_every_index (order : Z) name_ (p : Potential.t) :
  0 <= order < INT_MAX -> Z.of_nat (Potential.mDimension p) * order <= INT_MAX ->
  ((4 < Potential.mDimension p)%nat ->
     hasDerivativesOfOrder order name_ p = Throw logic_error)
  /\ ((Potential.mDimension p <= 4)%nat ->
      exists b, hasDerivativesOfOrder order name_ p = Ok b /\
        (b = true <->
         forall deriv,
           length deriv = Potential.mDimension p ->
           Forall (fun d => 0 <= d) deriv ->
           fold_left Z.add deriv 0 = order ->
           is_Some (Potential.map_find (Potential.MkIndex name_ deriv) (Potential.mData p)))).
Proof. apply hasDerivativesOfOrder_spec. Qed.

End DerivativeOrders.

Lemma hasDerivativesOfOrder_checks_every_index_witness :
  let p := Potential.create [2] [Potential.minus_one] Potential.minus_one in
  hasDerivativesOfOrder 1 Potential.potential_name p = Ok false.
Proof.
  intros p.
  destruct (hasDerivativesOfOrder_checks_every_index 1 Potential.potential_name p)
    as [_ H].
  { unfold INT_MAX. lia. }
  { unfold INT_MAX. cbn. lia. }
  destruct (H ltac:(cbn; lia)) as (b & Eb & Hb). rewrite Eb.
  destruct b; [|done]. exfalso.
  destruct (proj1 Hb eq_refl [1]) as [x Hx]; [done | repeat constructor; lia | done |].
  discriminate Hx.
Defined.

(* ===================================================================== *)
(** ** Interpolated drawing (common/interpolation.cpp) *)
(* ===================================================================== *)

Section DrawingFacts.
Local Open Scope R_scope.

Lemma periodic_offset_in_storage {V} (g : DynamicGrid V) (n : list Z) :
  wf_grid g -> getAccessMode g = PERIODIC ->
  (forall i, (i < getDimension g)%nat -> (0 < get (getExtents g) i)%Z) ->
  (0 <= getOffsetOf g n < getElementCount g)%Z.
Proof.
  intros Hg Hm He.
  destruct (wf_grid_cells g Hg) as [Hc Hmax].
  unfold getOffsetOf, getAccessMode in *. rewrite Hm. cbn [getIndexFnTemplate].
  fold (getDimension g) (getExtents g).
  rewrite Periodic_as_FFT by done.
  rewrite <- Hc. apply FFTIndexFn_bound; [|done].
  apply nonneg_coords. intros i Hi. rewrite get_map_seq by done.
  apply Z.mod_pos_bound. by apply He.
Qed.

Lemma foldr_Rplus_insert (l : list R) (i : nat) (x w : R) :
  l !! i = Some x ->
  foldr Rplus 0 (<[i := x + w]> l) = foldr Rplus 0 l + w.
Proof.
  revert i. induction l as [|y l IH]; intros [|i] Hi; try done.
  - injection Hi as ->. cbn. lra.
  - change (<[S i := x + w]> (y :: l)) with (y :: <[i := x + w]> l).
    cbn [foldr]. rewrite (IH i Hi). lra.
Qed.

Lemma fold_mul_init (f : nat -> R) (l : list nat) (w : R) :
  fold_left (fun w i => w * f i) l w = w * fold_left (fun w i => w * f i) l 1.
Proof.
  revert w. induction l as [|i l IH]; intros w; cbn [fold_left]; [lra|].
  rewrite (IH (w * f i)), (IH (1 * f i)). lra.
Qed.

Lemma fold_mul_ext (f g : nat -> R) (k : nat) (w : R) :
  (forall i, (i < k)%nat -> f i = g i) ->
  fold_left (fun w i => w * f i) (seq 0 k) w = fold_left (fun w i => w * g i) (seq 0 k) w.
Proof.
  intros H. induction k as [|k IH]; [done|].
  rewrite seq_S, !fold_left_app. cbn [fold_left Nat.add].
  rewrite IH by (intros i Hi; apply H; lia). by rewrite H by lia.
Qed.

Lemma getR_insert_eq (df : list R) (i : nat) (x : R) :
  (i < length df)%nat -> getR (<[i := x]> df) i = x.
Proof. intros Hi. unfold getR. by rewrite list_lookup_insert_eq. Qed.

Lemma getR_insert_ne (df : list R) (i j : nat) (x : R) :
  i <> j -> getR (<[i := x]> df) j = getR df j.
Proof. intros Hi. unfold getR. by rewrite list_lookup_insert_ne. Qed.

Lemma set_cell_total (g : DynamicGrid R) (o : Z) (w : R) :
  (0 <= o < getElementCount g)%Z ->
  grid_total (set_cell g o (cell g o + w)) = grid_total g + w.
Proof.
  intros Ho. unfold grid_total, set_cell, cell, getContainer, getElementCount in *.
  cbn [mData].
  destruct (lookup_lt_is_Some_2 (mData g) (Z.to_nat o) ltac:(lia)) as [x Hx].
  rewrite Hx. cbn [default]. by apply foldr_Rplus_insert.
Qed.

Lemma AddDotRecurse_total DIM n :
  forall (dens : DynamicGrid R) df offset weight,
    (n <= DIM)%nat -> length df = DIM ->
    (forall index, (0 <= getOffsetOf dens index < getElementCount dens)%Z) ->
    let r := AddDotRecurse DIM n dens df offset weight in
    mDimension r = mDimension dens /\ mExtents r = mExtents dens /\
    mTrafoType r = mTrafoType dens /\ length (mData r) = length (mData dens) /\
    grid_total r
    = grid_total dens + weight * fold_left (fun w i => w * getR df i) (seq 0 (DIM - n)) 1.
Proof.
  induction n as [|n IH]; intros dens df offset weight Hn Hdf Hoff; cbn [AddDotRecurse].
  - cbv zeta. split; [done|]. split; [done|]. split; [done|].
    split; [cbn [set_cell mData]; by rewrite length_insert|].
    rewrite set_cell_total by apply Hoff. rewrite Nat.sub_0_r.
    by rewrite (fold_mul_init (getR df)).
  - cbv zeta.
    destruct (IH dens df offset weight ltac:(lia) Hdf Hoff) as (H1 & H2 & H3 & H4 & H5).
    set (r1 := AddDotRecurse DIM n dens df offset weight) in *.
    set (sub := (DIM - n - 1)%nat).
    assert (Hoff1 : forall index, (0 <= getOffsetOf r1 index < getElementCount r1)%Z).
    { intros index. unfold getOffsetOf, getElementCount. rewrite H1, H2, H3, H4.
      apply Hoff. }
    destruct (IH r1 (<[sub := 1 - getR df sub]> df)
                 (<[sub := wrap_int (get offset sub + 1)]> offset)
                 weight ltac:(lia) ltac:(by rewrite length_insert) Hoff1)
      as (G1 & G2 & G3 & G4 & G5).
    split; [congruence|]. split; [congruence|]. split; [congruence|].
    split; [congruence|].
    rewrite G5, H5.
    replace (DIM - n)%nat with (S sub) by (unfold sub; lia).
    replace (DIM - S n)%nat with sub by (unfold sub; lia).
    rewrite seq_S, !fold_left_app. cbn [fold_left Nat.add].
    rewrite getR_insert_eq by (unfold sub; lia).
    rewrite (fold_mul_ext (getR (<[sub := 1 - getR df sub]> df)) (getR df))
      by (intros i Hi; apply getR_insert_ne; lia).
    lra.
Qed.

Lemma drawInterpolatedDot_total (grid : DynamicGrid R) (pos : list R) (weight : R) :
  wf_grid grid -> getAccessMode grid = PERIODIC ->
  (forall i, (i < getDimension grid)%nat -> (0 < get (getExtents grid) i)%Z) ->
  (1 <= getDimension grid <= 3)%nat ->
  let r := drawInterpolatedDot grid pos weight in
  getDimension r = getDimension grid /\ getExtents r = getExtents grid /\
  getAccessMode r = getAccessMode grid /\ getElementCount r = getElementCount grid /\
  grid_total r = grid_total grid + weight.
Proof.
  intros Hg Hm He Hd. unfold drawInterpolatedDot. rewrite decide_True by done.
  unfold AddDot. cbv zeta.
  assert (Hoff : forall index, (0 <= getOffsetOf grid index < getElementCount grid)%Z).
  { intros index. by apply periodic_offset_in_storage. }
  unfold getDimension, getExtents, getAccessMode, getElementCount in *.
  match goal with |- context [AddDotRecurse ?D ?n ?g ?df ?off ?w] =>
    destruct (AddDotRecurse_total D n g df off w) as (H1 & H2 & H3 & H4 & H5) end.
  { done. }
  { by rewrite length_map, length_seq. }
  { exact Hoff. }
  rewrite H1, H2, H3, H4, H5. rewrite Nat.sub_diag. cbn [seq fold_left].
  repeat split; try done. lra.
Qed.

(** X27. Drawing conserves the weight: on a grid in PERIODIC access
    mode of dimension 1 to 3 with non-zero extents, [drawTrajectory]
    keeps the shape of the grid and raises the sum of all cells by exactly
    the sum of the weights of the dots, wherever the dots lie, inside the
    grid or not; in particular one [drawInterpolatedDot] raises it by
    [weight] (floats and doubles idealised as reals). *)
Theorem drawTrajectory_adds_weights (grid : DynamicGrid R) (trajectory : list IPDot) :
  wf_grid grid -> getAccessMode grid = PERIODIC ->
  (forall i, (i < getDimension grid)%nat -> (0 < get (getExtents grid) i)%Z) ->
  (1 <= getDimension grid <= 3)%nat ->
  let r := drawTrajectory grid trajectory in
  getDimension r = getDimension grid /\ getExtents r = getExtents grid /\
  getAccessMode r = getAccessMode grid /\ getElementCount r = getElementCount grid /\
  grid_total r = grid_total grid + foldr Rplus 0 (map weight trajectory) /\
  forall pos weight,
    grid_total (drawInterpolatedDot grid pos weight) = grid_total grid + weight.
Proof.
  intros Hg Hm He Hd. cbv zeta.
  assert (G : getDimension (drawTrajectory grid trajectory) = getDimension grid /\
              getExtents (drawTrajectory grid trajectory) = getExtents grid /\
              getAccessMode (drawTrajectory grid trajectory) = getAccessMode grid /\
              getElementCount (drawTrajectory grid trajectory) = getElementCount grid /\
              grid_total (drawTrajectory grid trajectory)
              = grid_total grid + foldr Rplus 0 (map weight trajectory)).
  { revert grid Hg Hm He Hd.
    induction trajectory as [|point trajectory IH]; intros grid Hg Hm He Hd.
    - cbn. repeat split; try done. lra.
    - unfold drawTrajectory in *. cbn [fold_left map foldr].
      destruct (drawInterpolatedDot_total grid (pos point) (weight point) Hg Hm He Hd)
        as (H1 & H2 & H3 & H4 & H5).
      set (g1 := drawInterpolatedDot grid (pos point) (weight point)) in *.
      destruct (IH g1) as (G1 & G2 & G3 & G4 & G5).
      + destruct Hg as (W1 & W2 & W3 & W4).
        unfold getDimension, getExtents, getElementCount in *.
        split; [congruence|]. split; [by rewrite H1|]. split; [by rewrite H2|].
        rewrite H2, W4. f_equal. lia.
      + congruence.
      + intros i Hi. rewrite H2. apply He. by rewrite <- H1.
      + by rewrite H1.
      + split; [congruence|]. split; [congruence|]. split; [congruence|].
        split; [congruence|]. rewrite G5, H5. lra. }
  destruct G as (G1 & G2 & G3 & G4 & G5).
  repeat (split; [done|]).
  intros pos0 weight0. by apply drawInterpolatedDot_total.
Qed.

End DrawingFacts.

Lemma drawTrajectory_adds_weights_witness :
  let g : DynamicGrid R := MkGrid [0; 0; 0; 0]%R 2 [2; 2] PERIODIC in
  grid_total (drawTrajectory g [MkIPDot [1.5; 0.25] 3; MkIPDot [7.5; -0.5] 2]%R) = 5%R.
Proof.
  intros g.
  assert (Hg : wf_grid g).
  { split; [done|]. split; [cbn; lia|]. split; [|done].
    repeat constructor; unfold SIZE_MAX; lia. }
  destruct (drawTrajectory_adds_weights
              g [MkIPDot [1.5; 0.25] 3; MkIPDot [7.5; -0.5] 2]%R Hg eq_refl)
    as (_ & _ & _ & _ & E & _).
  - intros i Hi. cbn in Hi. destruct i as [|[|i]]; cbn; lia.
  - cbn. lia.
  - rewrite E. unfold grid_total. cbn. lra.
Defined.

(* ===================================================================== *)
(** ** Periodicity of the interpolation (common/interpolation.cpp) *)
(* ===================================================================== *)

Section InterpolationPeriod.
Local Open Scope R_scope.

Lemma Int_part_shift (x : R) (m : Z) : Int_part (x + IZR m) = (Int_part x + m)%Z.
Proof.
  destruct (base_Int_part x) as [H1 H2], (base_Int_part (x + IZR m)) as [H3 H4].
  assert (G1 : IZR (Int_part (x + IZR m) - Int_part x - m) < IZR 1)
    by (rewrite !minus_IZR; lra).
  assert (G2 : IZR (-1) < IZR (Int_part (x + IZR m) - Int_part x - m))
    by (rewrite !minus_IZR; lra).
  apply lt_IZR in G1, G2. lia.
Qed.

Lemma Int_part_nonneg (x : R) : 0 <= x -> (0 <= Int_part x)%Z.
Proof.
  intros Hx. destruct (base_Int_part x) as [H1 H2].
  assert (G : IZR (-1) < IZR (Int_part x)) by lra.
  apply lt_IZR in G. lia.
Qed.

Lemma Int_part_le (x : R) (b : Z) : x <= IZR b -> (Int_part x <= b)%Z.
Proof.
  intros Hx. destruct (base_Int_part x) as [H1 H2].
  apply le_IZR. lra.
Qed.

Lemma Periodic_congr D (base base' extends : list Z) :
  (forall i, (i < D)%nat -> (0 < get extends i)%Z) ->
  (forall i, (i < D)%nat ->
     (0 <= get base i <= SIZE_MAX)%Z /\ (0 <= get base' i <= SIZE_MAX)%Z /\
     (get base i mod get extends i = get base' i mod get extends i)%Z) ->
  PeriodicIndexFn D base extends = PeriodicIndexFn D base' extends.
Proof.
  intros He Hb. rewrite !Periodic_as_FFT by done.
  apply FFTIndexFn_congr. intros i Hi. rewrite !get_map_seq by done.
  destruct (Hb i Hi) as (Hn & Hn' & E).
  by rewrite !to_size_t_id, E by done.
Qed.

(** Two runs of the recursion whose base cells are congruent modulo the
    extents and whose offsets inside the cell agree. *)
Lemma inter_shift D n (grid : DynamicGrid R) (v v' : list R) :
  (forall i, (i < D)%nat -> (0 < get (getExtents grid) i)%Z) ->
  forall base base',
    (n <= D)%nat -> length base = D -> length base' = D ->
    (forall i, (i < D)%nat ->
       (0 <= get base i <= INT_MAX)%Z /\ (0 <= get base' i <= INT_MAX)%Z /\
       (get base i mod get (getExtents grid) i
        = get base' i mod get (getExtents grid) i)%Z) ->
    (forall i, (i < n)%nat ->
       (get base i < INT_MAX)%Z /\ (get base' i < INT_MAX)%Z /\
       getR v i - IZR (get base i) = getR v' i - IZR (get base' i)) ->
    inter D n grid base v = inter D n grid base' v'.
Proof.
  intros He. induction n as [|n IH]; intros base base' Hn Hl Hl' Hb Hf; cbn [inter].
  - unfold GetOffsetOf. f_equal. apply Periodic_congr; [done|].
    intros i Hi. destruct (Hb i Hi) as (C1 & C2 & E).
    unfold INT_MAX, SIZE_MAX in *. repeat split; lia.
  - destruct (Hf n ltac:(lia)) as (B1 & B2 & ->).
    destruct (Hb n ltac:(lia)) as (C1 & C2 & E).
    rewrite !wrap_int_id by (unfold int_range, INT_MIN, INT_MAX in *; lia).
    rewrite (IH base base') by (try done; try lia; intros i Hi; apply Hf; lia).
    rewrite (IH (<[n := (get base n + 1)%Z]> base) (<[n := (get base' n + 1)%Z]> base')).
    + done.
    + lia.
    + by rewrite length_insert.
    + by rewrite length_insert.
    + intros i Hi. destruct (decide (i = n)) as [->|Hne].
      * rewrite !get_insert_eq by lia.
        split; [lia|]. split; [lia|].
        by rewrite (Z.add_mod (get base n)), (Z.add_mod (get base' n)), E
          by (specialize (He n Hi); lia).
      * rewrite !get_insert_ne by done. by apply Hb.
    + intros i Hi. rewrite !get_insert_ne by lia. apply Hf. lia.
Qed.

(** X28. The interpolated field is periodic: on a grid in PERIODIC
    access mode of dimension 1 to 3 with non-zero extents, moving a
    position with non-negative coordinates forward by whole multiples of
    the extents does not change [linearInterpolate], as long as the
    coordinates stay below [INT_MAX]. *)
Theorem linearInterpolate_periodic (grid : DynamicGrid R) (v v' : list R) (k : list Z) :
  wf_grid grid -> getAccessMode grid = PERIODIC ->
  (1 <= getDimension grid <= 3)%nat ->
  (forall i, (i < getDimension grid)%nat -> (0 < get (getExtents grid) i)%Z) ->
  (forall i, (i < getDimension grid)%nat ->
     0 <= getR v i /\ (0 <= get k i)%Z /\
     getR v' i = getR v i + IZR (get k i * get (getExtents grid) i) /\
     getR v' i < IZR INT_MAX) ->
  linearInterpolate grid v' = linearInterpolate grid v.
Proof.
  intros Hg Hm Hd He Hv. unfold linearInterpolate, linearInterpolateF.
  rewrite !decide_True by done. symmetry.
  assert (Hfl : forall i, (i < getDimension grid)%nat ->
            floor_int (getR v i) = Int_part (getR v i) /\
            floor_int (getR v' i)
            = (Int_part (getR v i) + get k i * get (getExtents grid) i)%Z /\
            (0 <= Int_part (getR v i))%Z /\
            (0 <= get k i * get (getExtents grid) i)%Z /\
            (Int_part (getR v i) + get k i * get (getExtents grid) i < INT_MAX)%Z).
  { intros i Hi. destruct (Hv i Hi) as (H0 & Hk & E & Hmax). specialize (He i Hi).
    assert (Hp : (0 <= get k i * get (getExtents grid) i)%Z) by nia.
    assert (Hp' : 0 <= IZR (get k i * get (getExtents grid) i)) by by apply IZR_le.
    assert (Hmin : IZR INT_MIN <= 0) by (apply IZR_le; unfold INT_MIN; lia).
    destruct (floor_int_id (getR v i)) as [E1 _]; [lra|].
    destruct (floor_int_id (getR v' i)) as [E2 B2]; [lra|].
    rewrite E, Int_part_shift in E2, B2.
    pose proof (Int_part_nonneg _ H0).
    split; [exact E1|]. split; [by rewrite E|]. split; [done|]. split; [done|]. lia. }
  apply inter_shift; try done.
  - by rewrite length_map, length_seq.
  - by rewrite length_map, length_seq.
  - intros i Hi. rewrite !get_map_seq by done.
    destruct (Hfl i Hi) as (-> & -> & P0 & P1 & P2). specialize (He i Hi).
    split; [lia|]. split; [lia|].
    by rewrite Z.mod_add by lia.
  - intros i Hi. rewrite !get_map_seq by lia.
    destruct (Hfl i ltac:(lia)) as (-> & -> & P0 & P1 & P2).
    destruct (Hv i ltac:(lia)) as (_ & _ & E & _).
    split; [lia|]. split; [lia|].
    rewrite E, plus_IZR. lra.
Qed.

End InterpolationPeriod.

Lemma linearInterpolate_periodic_witness :
  let grid : DynamicGrid R := MkGrid [1; 3]%R 1 [2] PERIODIC in
  linearInterpolate grid [4.25%R] = linearInterpolate grid [0.25%R].
Proof.
  intros grid.
  assert (Hg : wf_grid grid).
  { split; [done|]. split; [cbn; lia|]. split; [|done].
    repeat constructor; unfold SIZE_MAX; lia. }
  apply (linearInterpolate_periodic grid [0.25%R] [4.25%R] [2] Hg eq_refl).
  - cbn. lia.
  - intros i Hi. cbn in Hi. destruct i as [|i]; cbn; lia.
  - intros i Hi. cbn in Hi. destruct i as [|i]; [|lia].
    unfold getR, get. cbn. unfold INT_MAX.
    change (2 * 2)%Z with 4%Z.
    change (2 ^ 31 - 1)%Z with 2147483647%Z.
    repeat split; try lra; try lia.
Defined.

(* ===================================================================== *)
(** ** Index vectors of derivatives (common/util.hpp) *)
(* ===================================================================== *)

Section IndexVectors.

Lemma makeIndexVector_fold (idx : list nat) :
  forall v : list Z,
    (forall k, 0 <= get v k) ->
    (forall k, get v k + Z.of_nat (length idx) <= INT_MAX) ->
    let r := fold_left (fun v i => <[i := wrap_int (get v i + 1)]> v) idx v in
    length r = length v /\
    forall k, (k < length v)%nat ->
      get r k = get v k + Z.of_nat (count_occ Nat.eq_dec idx k).
Proof.
  induction idx as [|i idx IH]; intros v H0 Hmax; cbn [fold_left count_occ].
  - cbv zeta. split; [done|]. intros k _. lia.
  - cbv zeta. cbn [length] in Hmax.
    assert (Ew : wrap_int (get v i + 1) = get v i + 1).
    { apply wrap_int_id. specialize (H0 i). specialize (Hmax i).
      unfold int_range, INT_MIN, INT_MAX in *. lia. }
    rewrite Ew.
    assert (Hg : forall k, get (<[i := get v i + 1]> v) k
                           = if decide (i = k /\ (i < length v)%nat)
                             then get v k + 1 else get v k).
    { intros k. case_decide as Hk.
      - destruct Hk as [-> Hk]. by rewrite get_insert_eq.
      - destruct (decide (i = k)) as [->|Hne].
        + rewrite list_insert_ge by lia. done.
        + by rewrite get_insert_ne. }
    destruct (IH (<[i := get v i + 1]> v)) as [L G].
    { intros k. rewrite Hg. specialize (H0 k).
      destruct (decide (i = k /\ (i < length v)%nat)); lia. }
    { intros k. rewrite Hg. specialize (Hmax k).
      destruct (decide (i = k /\ (i < length v)%nat)); lia. }
    rewrite length_insert in *. split; [done|].
    intros k Hk. rewrite (G k Hk), Hg.
    destruct (Nat.eq_dec i k) as [->|Hne].
    + rewrite decide_True by done. lia.
    + rewrite decide_False by (intros [? _]; done). lia.
Qed.

Lemma get_replicate_0 n k : get (replicate n 0) k = 0.
Proof.
  unfold get. destruct (replicate n 0 !! k) as [x|] eqn:E; [|done].
  by apply lookup_replicate in E as [-> _].
Qed.

Lemma makeIndexVector_entries (n : nat) (idx : list nat) :
  Z.of_nat (length idx) <= INT_MAX ->
  length (makeIndexVector n idx) = n /\
  forall k, (k < n)%nat ->
    get (makeIndexVector n idx) k = Z.of_nat (count_occ Nat.eq_dec idx k).
Proof.
  intros Hl. unfold makeIndexVector.
  destruct (makeIndexVector_fold idx (replicate n 0)) as [L G].
  - intros k. by rewrite get_replicate_0.
  - intros k. rewrite get_replicate_0. lia.
  - rewrite length_replicate in *. split; [done|].
    intros k Hk. by rewrite (G k Hk), get_replicate_0.
Qed.

Lemma makeIndexVector_perm (n : nat) (idx idx' : list nat) :
  Z.of_nat (length idx) <= INT_MAX -> idx ≡ₚ idx' ->
  makeIndexVector n idx' = makeIndexVector n idx.
Proof.
  intros Hl Hp.
  destruct (makeIndexVector_entries n idx Hl) as [L G].
  destruct (makeIndexVector_entries n idx') as [L' G'].
  { by rewrite <- (Permutation_length Hp). }
  apply (list_eq_get _ _ n); [done | done |].
  intros k Hk. rewrite (G k Hk), (G' k Hk).
  by rewrite (proj1 (Permutation_count_occ Nat.eq_dec idx idx') Hp k).
Qed.

Lemma fold_add_shift (v : list Z) (a b : Z) :
  fold_left Z.add v (a + b) = fold_left Z.add v a + b.
Proof.
  revert a. induction v as [|y v IH]; intros a; cbn [fold_left]; [done|].
  replace (a + b + y) with (a + y + b) by lia. apply IH.
Qed.

Lemma sum_insert_succ (v : list Z) :
  forall i x a, v !! i = Some x ->
    fold_left Z.add (<[i := x + 1]> v) a = fold_left Z.add v a + 1.
Proof.
  induction v as [|y v IH]; intros [|i] x a Hi; try done.
  - injection Hi as ->. cbn [fold_left].
    change (<[0%nat := x + 1]> (x :: v)) with ((x + 1) :: v). cbn [fold_left].
    replace (a + (x + 1)) with (a + x + 1) by lia. apply fold_add_shift.
  - change (<[S i := x + 1]> (y :: v)) with (y :: <[i := x + 1]> v).
    cbn [fold_left]. by apply IH.
Qed.

Lemma makeIndexVector_sum (n : nat) (idx : list nat) :
  Z.of_nat (length idx) <= INT_MAX -> Forall (fun i => (i < n)%nat) idx ->
  fold_left Z.add (makeIndexVector n idx) 0 = Z.of_nat (length idx)
  /\ Forall (fun d => 0 <= d) (makeIndexVector n idx).
Proof.
  intros Hl Hin. split.
  - unfold makeIndexVector.
    assert (G : forall v : list Z,
               length v = n ->
               (forall k, 0 <= get v k) ->
               (forall k, get v k + Z.of_nat (length idx) <= INT_MAX) ->
               fold_left Z.add
                 (fold_left (fun v i => <[i := wrap_int (get v i + 1)]> v) idx v) 0
               = fold_left Z.add v 0 + Z.of_nat (length idx)).
    { clear Hl. induction Hin as [|i idx Hi Hin IH]; intros v Lv H0 Hmax;
        cbn [fold_left length] in *; [lia|].
      assert (Ew : wrap_int (get v i + 1) = get v i + 1).
      { apply wrap_int_id. specialize (H0 i). specialize (Hmax i).
        unfold int_range, INT_MIN, INT_MAX in *. lia. }
      rewrite Ew.
      destruct (lookup_lt_is_Some_2 v i ltac:(lia)) as [x Hx].
      assert (Ex : get v i = x) by (unfold get; by rewrite Hx).
      rewrite IH.
      - rewrite Ex, (sum_insert_succ v i x 0 Hx). lia.
      - by rewrite length_insert.
      - intros k. destruct (decide (i = k)) as [->|Hne].
        + rewrite get_insert_eq by lia. specialize (H0 k). lia.
        + rewrite get_insert_ne by done. apply H0.
      - intros k. destruct (decide (i = k)) as [->|Hne].
        + rewrite get_insert_eq by lia. specialize (Hmax k). lia.
        + rewrite get_insert_ne by done. specialize (Hmax k). lia. }
    rewrite G.
    + clear. induction n as [|n IH]; [done|]. cbn [replicate fold_left].
      change (0 + 0) with 0. lia.
    + by rewrite length_replicate.
    + intros k. by rewrite get_replicate_0.
    + intros k. rewrite get_replicate_0. lia.
  - destruct (makeIndexVector_entries n idx Hl) as [L G].
    apply Forall_lookup. intros k x Hx.
    assert (Hk : (k < n)%nat) by (rewrite <- L; by eapply lookup_lt_Some).
    specialize (G k Hk). unfold get in G. rewrite Hx in G. cbn in G. lia.
Qed.



(** X26. The order check covers the lookups of the dynamics: when
    [hasDerivativesOfOrder(order, name)] returns [true], then for every
    list [idx] of [order] axis numbers of the potential
    [getDerivative(makeIndexVector(dimension, idx), name)] returns a
    grid (it throws neither [runtime_error] nor [out_of_range]), and the
    same grid for every reordering of [idx]. *)
Theorem order_check_covers_index_vectors (name_ : list byte) (p : Potential.t)
        (idx : list nat) :
  4 * Z.of_nat (length idx) < INT_MAX ->
  Forall (fun i => (i < Potential.mDimension p)%nat) idx ->
  hasDerivativesOfOrder (Z.of_nat (length idx)) name_ p = Ok true ->
  exists g,
    Potential.getDerivative (makeIndexVector (Potential.mDimension p) idx) name_ p = Ok g /\
    forall idx', idx ≡ₚ idx' ->
      Potential.getDerivative (makeIndexVector (Potential.mDimension p) idx') name_ p = Ok g.
Proof.
  intros Hl Hin Hh.
  assert (Hl' : Z.of_nat (length idx) <= INT_MAX) by lia.
  destruct (decide (4 < Potential.mDimension p)%nat) as [Hbig|Hd].
  { exfalso.
    assert (Hsmall : forall q name o, (4 < Potential.mDimension q)%nat ->
               hasDerivativesOfOrder o name q = Throw logic_error).
    { intros q name o Hq. unfold hasDerivativesOfOrder, MultiIndex.create.
      rewrite decide_True; [done|]. unfold MultiIndex.MAX_MULTIINDEX_DIMENSION. lia. }
    rewrite Hsmall in Hh by done. discriminate. }
  destruct (hasDerivativesOfOrder_spec (Z.of_nat (length idx)) name_ p) as [_ H].
  { lia. }
  { nia. }
  destruct (H ltac:(lia)) as (b & Eb & Hb).
  rewrite Hh in Eb. injection Eb as <-.
  destruct (makeIndexVector_entries (Potential.mDimension p) idx Hl') as [L _].
  destruct (makeIndexVector_sum (Potential.mDimension p) idx Hl' Hin) as [Hs Hnn].
  destruct (proj1 Hb eq_refl _ L Hnn Hs) as [g Hg].
  exists g.
  assert (G : Potential.getDerivative (makeIndexVector (Potential.mDimension p) idx) name_ p
              = Ok g).
  { unfold Potential.getDerivative. rewrite decide_False by (rewrite L; auto).
    by rewrite Hg. }
  split; [done|]. intros idx' Hp. by rewrite (makeIndexVector_perm _ idx idx').
Qed.

End IndexVectors.

Lemma order_check_covers_index_vectors_witness :
  let g : Potential.grid_type :=
      MkGrid [Potential.minus_one; Potential.minus_one] 1 [2] IDENTITY in
  let p := Potential.with_data
             (Potential.create [2] [Potential.minus_one] Potential.minus_one)
             [(Potential.MkIndex Potential.potential_name [1], g)] in
  exists g', Potential.getDerivative (makeIndexVector 1 [0%nat])
                                     Potential.potential_name p = Ok g'.
Proof.
  intros g p.
  destruct (order_check_covers_index_vectors Potential.potential_name p [0%nat])
    as (g' & E & _).
  - unfold INT_MAX. cbn. lia.
  - repeat constructor.
  - vm_compute. reflexivity.
  - exists g'. exact E.
Defined.
